(** * edge-tts-universal: the streaming synthesis client

    A shallow embedding of the isomorphic bundle of edge-tts-universal
    (isomorphic-utils, isomorphic-drm, isomorphic-communicate, submaker)
    and the properties of its specification.

    Conventions of the embedding.
    - A JavaScript string is the list of its Unicode code points
      ([jsstring]); a lone surrogate is its own code point.  Every
      pattern, separator and literal of the source is ASCII, so code
      points and UTF-16 code units agree on them; the one index that is
      not found by a search is counted in code units
      ([substring_to]).
    - A [Uint8Array] is a list of [byte].
    - Tick counts (100 ns units) are integers far below 2^53 and are
      embedded as [Z]; the seconds of the cues are embedded as exact
      rationals; the clock values are binary64 numbers, with the
      rounding of each operation.
    - Exceptions are values of [exn]; a function that may throw returns
      [result]. *)

From Stdlib Require Import ZArith Ascii String QArith Qround Qabs Qpower Lia Lqa.
From Stdlib Require Import DecimalString DecimalN DecimalPos DecimalFacts.
From Stdlib.Strings Require Import Byte.
From stdpp Require Import gmap list.

Local Open Scope Z_scope.

(** ** JavaScript strings *)

Module JS.

Definition jsstring := list Z.

(** A source literal, written as a Rocq string of ASCII characters. *)
Fixpoint lit (s : string) : jsstring :=
  match s with
  | EmptyString => []
  | String a s' => Z.of_N (N_of_ascii a) :: lit s'
  end.

Fixpoint str_eqb (a b : jsstring) : bool :=
  match a, b with
  | [], [] => true
  | x :: a', y :: b' => (x =? y) && str_eqb a' b'
  | _, _ => false
  end.

(** [startsWith]: is [p] a prefix of [s]? *)
Fixpoint prefixb (p s : jsstring) : bool :=
  match p, s with
  | [], _ => true
  | x :: p', y :: s' => (x =? y) && prefixb p' s'
  | _ :: _, [] => false
  end.

(** [s.replace(/pat/g, rep)] for a literal, non-empty pattern: the
    leftmost match is replaced and the scan resumes after it.  [skip]
    counts the characters of the current match still to be dropped. *)
Fixpoint replace_from (skip : nat) (pat rep s : jsstring) : jsstring :=
  match s with
  | [] => []
  | c :: s' =>
      match skip with
      | S k => replace_from k pat rep s'
      | O =>
          if prefixb pat s
          then rep ++ replace_from (Nat.pred (length pat)) pat rep s'
          else c :: replace_from O pat rep s'
      end
  end.

Definition replace_all (pat rep s : jsstring) : jsstring :=
  replace_from O pat rep s.

(** [\s] of a regular expression and the characters [trim] removes:
    WhiteSpace and LineTerminator of ECMAScript. *)
Definition is_space (c : Z) : bool :=
  ((9 <=? c) && (c <=? 13)) || (c =? 32) || (c =? 160) || (c =? 5760)
  || ((8192 <=? c) && (c <=? 8202)) || (c =? 8232) || (c =? 8233)
  || (c =? 8239) || (c =? 8287) || (c =? 12288) || (c =? 65279).

Fixpoint trimStart (s : jsstring) : jsstring :=
  match s with
  | c :: s' => if is_space c then trimStart s' else s
  | [] => []
  end.

Definition trimEnd (s : jsstring) : jsstring := rev (trimStart (rev s)).

Definition trim (s : jsstring) : jsstring := trimEnd (trimStart s).

(** [s.split(/(\s+)/)]: the pieces between the maximal runs of white
    space, with the runs themselves (the capture group) in between.
    [cur] is the piece being read and [ws] tells whether it is a run of
    white space. *)
Fixpoint split_ws_from (cur : jsstring) (ws : bool) (s : jsstring) : list jsstring :=
  match s with
  | [] => if ws then [cur; []] else [cur]
  | c :: s' =>
      if Bool.eqb (is_space c) ws
      then split_ws_from (cur ++ [c]) ws s'
      else cur :: split_ws_from [c] (is_space c) s'
  end.

Definition split_ws (s : jsstring) : list jsstring := split_ws_from [] false s.

(** [s.split(sep)] for a literal, non-empty separator.  [skip] as in
    [replace_from]. *)
Fixpoint split_from (skip : nat) (cur sep s : jsstring) : list jsstring :=
  match s with
  | [] => [cur]
  | c :: s' =>
      match skip with
      | S k => split_from k cur sep s'
      | O =>
          if prefixb sep s
          then cur :: split_from (Nat.pred (length sep)) [] sep s'
          else split_from O (cur ++ [c]) sep s'
      end
  end.

Definition split (sep s : jsstring) : list jsstring := split_from O [] sep s.

(** [s.substring(0, n)] for [n] UTF-16 code units, as the source
    counts them: a character from U+10000 on takes two units, and when
    the cut falls between them the substring ends with the first one, a
    lone surrogate. *)
Definition high_surrogate (c : Z) : Z := 55296 + (c - 65536) / 1024.

Fixpoint substring_to (n : nat) (s : jsstring) : jsstring :=
  match n, s with
  | S k, c :: s' =>
      if 65535 <? c then
        match k with
        | O => [high_surrogate c]
        | S k' => c :: substring_to k' s'
        end
      else c :: substring_to k s'
  | _, _ => []
  end.

(** [s.indexOf(pat)], [None] for -1. *)
Fixpoint indexOf_from (i : nat) (pat s : jsstring) : option nat :=
  if prefixb pat s then Some i
  else match s with
       | [] => None
       | _ :: s' => indexOf_from (S i) pat s'
       end.

Definition indexOf (pat s : jsstring) : option nat := indexOf_from O pat s.

(** *** Typed arrays *)

Definition bytes := list byte.

Definition byte_val (b : byte) : Z := Z.of_N (Byte.to_N b).

Definition byte_of (z : Z) : byte :=
  match Byte.of_N (Z.to_N z) with
  | Some b => b
  | None => x00
  end.

(** [a.slice(start, end)]: a negative index counts from the end, and
    both are clamped to the array. *)
Definition slice_index (len i : Z) : Z :=
  if i <? 0 then Z.max (len + i) 0 else Z.min i len.

Definition slice {A} (a : list A) (start stop : Z) : list A :=
  let len := Z.of_nat (length a) in
  let from := slice_index len start in
  let to := slice_index len stop in
  take (Z.to_nat (to - from)) (drop (Z.to_nat from) a).

(** *** TextEncoder and TextDecoder (UTF-8) *)

Definition replacement : Z := 65533.

(** [TextEncoder.encode] writes U+FFFD for what is no scalar value. *)
Definition scalar (c : Z) : Z :=
  if (c <? 0) || (1114111 <? c) || ((55296 <=? c) && (c <=? 57343))
  then replacement else c.

Definition encode_char (c : Z) : bytes :=
  let c := scalar c in
  if c <? 128 then [byte_of c]
  else if c <? 2048 then
    [byte_of (Z.lor 192 (Z.shiftr c 6)); byte_of (Z.lor 128 (Z.land c 63))]
  else if c <? 65536 then
    [byte_of (Z.lor 224 (Z.shiftr c 12));
     byte_of (Z.lor 128 (Z.land (Z.shiftr c 6) 63));
     byte_of (Z.lor 128 (Z.land c 63))]
  else
    [byte_of (Z.lor 240 (Z.shiftr c 18));
     byte_of (Z.lor 128 (Z.land (Z.shiftr c 12) 63));
     byte_of (Z.lor 128 (Z.land (Z.shiftr c 6) 63));
     byte_of (Z.lor 128 (Z.land c 63))].

Definition utf8_encode (s : jsstring) : bytes := flat_map encode_char s.

(** The UTF-8 decoder of the Encoding Standard, which [TextDecoder]
    runs with the replacement error mode. *)
Record decoder := {
  needed : Z;        (* bytes needed *)
  seen : Z;          (* bytes seen *)
  code_point : Z;
  lower : Z;         (* lower boundary *)
  upper : Z          (* upper boundary *)
}.

Definition decoder_init : decoder :=
  {| needed := 0; seen := 0; code_point := 0; lower := 128; upper := 191 |}.

(** A byte read when no sequence is open. *)
Definition decode_lead (v : Z) : jsstring * decoder :=
  if v <=? 127 then ([v], decoder_init)
  else if (194 <=? v) && (v <=? 223) then
    ([], {| needed := 1; seen := 0; code_point := Z.land v 31;
            lower := 128; upper := 191 |})
  else if (224 <=? v) && (v <=? 239) then
    ([], {| needed := 2; seen := 0; code_point := Z.land v 15;
            lower := if v =? 224 then 160 else 128;
            upper := if v =? 237 then 159 else 191 |})
  else if (240 <=? v) && (v <=? 244) then
    ([], {| needed := 3; seen := 0; code_point := Z.land v 7;
            lower := if v =? 240 then 144 else 128;
            upper := if v =? 244 then 143 else 191 |})
  else ([replacement], decoder_init).

Definition decode_byte (st : decoder) (v : Z) : jsstring * decoder :=
  if needed st =? 0 then decode_lead v
  else if (v <? lower st) || (upper st <? v) then
    (* the sequence is broken: an error, and the byte is read again *)
    let '(out, st') := decode_lead v in (replacement :: out, st')
  else
    let cp := Z.lor (Z.shiftl (code_point st) 6) (Z.land v 63) in
    if seen st + 1 =? needed st then ([cp], decoder_init)
    else ([], {| needed := needed st; seen := seen st + 1; code_point := cp;
                 lower := 128; upper := 191 |}).

Fixpoint decode_from (st : decoder) (bs : bytes) : jsstring :=
  match bs with
  | [] => if needed st =? 0 then [] else [replacement]
  | b :: bs' =>
      let '(out, st') := decode_byte st (byte_val b) in
      out ++ decode_from st' bs'
  end.

(** [new TextDecoder().decode(bs)]: a leading byte order mark is
    dropped. *)
Definition utf8_decode (bs : bytes) : jsstring :=
  match bs with
  | xef :: xbb :: xbf :: bs' => decode_from decoder_init bs'
  | _ => decode_from decoder_init bs
  end.

End JS.

Import JS.

(** ** isomorphic-utils.ts *)

Module Utils.

(** The quotation mark, U+0022. *)
Definition dquote : jsstring := [34].

Definition escape (text : jsstring) : jsstring :=
  replace_all (lit "'") (lit "&apos;")
    (replace_all dquote (lit "&quot;")
      (replace_all (lit ">") (lit "&gt;")
        (replace_all (lit "<") (lit "&lt;")
          (replace_all (lit "&") (lit "&amp;") text)))).

Definition unescape (text : jsstring) : jsstring :=
  replace_all (lit "&amp;") (lit "&")
    (replace_all (lit "&gt;") (lit ">")
      (replace_all (lit "&lt;") (lit "<")
        (replace_all (lit "&apos;") (lit "'")
          (replace_all (lit "&quot;") dquote text)))).

Definition chars_to_remove : jsstring :=
  lit "*/()[]{}$%^@#+=|\~`><" ++ dquote ++ lit "&".

Definition removeIncompatibleCharacters (str : jsstring) : jsstring :=
  fold_left (fun clean_str char => replace_all [char] [] clean_str)
            chars_to_remove str.

(** The inner loop of [splitTextByByteLength], which cuts an oversized
    word every [byteLength] bytes.  It does not end when [byteLength] is
    not positive: [None]. *)
Fixpoint force_split (fuel : nat) (wordBytes : bytes) (i byteLength : Z)
  : option (list jsstring) :=
  if i <? Z.of_nat (length wordBytes) then
    match fuel with
    | O => None
    | S fuel' =>
        match force_split fuel' wordBytes (i + byteLength) byteLength with
        | Some rest =>
            Some (utf8_decode (slice wordBytes i (i + byteLength)) :: rest)
        | None => None
        end
    end
  else Some [].

(** The loop over [words]: the chunks pushed so far and [currentChunk]. *)
Fixpoint split_loop (words : list jsstring) (byteLength : Z)
    (chunks : list jsstring) (currentChunk : jsstring)
  : option (list jsstring * jsstring) :=
  match words with
  | [] => Some (chunks, currentChunk)
  | word :: words' =>
      let potentialChunk := currentChunk ++ word in
      if Z.of_nat (length (utf8_encode potentialChunk)) <=? byteLength then
        split_loop words' byteLength chunks potentialChunk
      else
        match currentChunk with
        | _ :: _ =>
            split_loop words' byteLength (chunks ++ [trim currentChunk]) word
        | [] =>
            let wordBytes := utf8_encode word in
            match force_split (length wordBytes) wordBytes 0 byteLength with
            | Some slices =>
                split_loop words' byteLength (chunks ++ slices) []
            | None => None
            end
        end
  end.

Definition splitTextByByteLength (text : jsstring) (byteLength : Z)
  : option (list jsstring) :=
  match split_loop (split_ws text) byteLength [] [] with
  | Some (chunks, currentChunk) =>
      match trim currentChunk with
      | _ :: _ => Some (chunks ++ [trim currentChunk])
      | [] => Some chunks
      end
  | None => None
  end.

End Utils.

(** ** JavaScript numbers and exceptions *)

Module Num.

(** A number of the clock arithmetic is a binary64 number: a rational,
    an infinity or NaN.  The two zeros are one number: no operation of
    the embedded code tells them apart. *)
Inductive number :=
  | Num (q : Q)
  | Inf (negative : bool)
  | NaN.

Definition pow2 (e : Z) : Q := (2 # 1) ^ e.

(** The binade of a positive rational: the [e] with
    [2^e <= a < 2^(e+1)]. *)
Definition binade (a : Q) : Z :=
  let e := Z.log2 (Qnum a) - Z.log2 (Zpos (Qden a)) in
  if Qle_bool (pow2 e) a then e else e - 1.

(** The nearest integer, the even one on a tie. *)
Definition rne (r : Q) : Z :=
  let f := Qfloor r in
  match (r - inject_Z f ?= 1 # 2)%Q with
  | Lt => f
  | Gt => f + 1
  | Eq => if Z.even f then f else f + 1
  end.

(** The rounding of every operation of binary64: to the nearest number
    with a significand of 53 bits (less for the subnormal numbers, which
    are the multiples of 2^-1074), to the even one on a tie, and to an
    infinity from 2^1024 on. *)
Definition fl (q : Q) : number :=
  if Qeq_bool q 0 then Num 0
  else
    let a := Qabs q in
    let p := Z.max (binade a) (-1022) - 52 in
    let r := (inject_Z (rne (a / pow2 p)) * pow2 p)%Q in
    if Qle_bool (pow2 1024) r then Inf (negb (Qle_bool 0 q))
    else Num (if Qle_bool 0 q then r else - r)%Q.

Definition opp (x : number) : number :=
  match x with
  | Num a => Num (- a)
  | Inf s => Inf (negb s)
  | NaN => NaN
  end.

Definition add (x y : number) : number :=
  match x, y with
  | Num a, Num b => fl (a + b)
  | Num _, Inf s | Inf s, Num _ => Inf s
  | Inf s, Inf s' => if Bool.eqb s s' then Inf s else NaN
  | _, _ => NaN
  end.

Definition sub (x y : number) : number := add x (opp y).

Definition mul (x y : number) : number :=
  match x, y with
  | Num a, Num b => fl (a * b)
  | Num a, Inf s | Inf s, Num a =>
      if Qeq_bool a 0 then NaN else Inf (xorb s (negb (Qle_bool 0 a)))
  | Inf s, Inf s' => Inf (xorb s s')
  | _, _ => NaN
  end.

(** Division by a positive constant. *)
Definition div_by (d : positive) (x : number) : number :=
  match x with
  | Num a => fl (a / inject_Z (Zpos d))
  | Inf s => Inf s
  | NaN => NaN
  end.

(** The quotient rounded towards zero. *)
Definition Qtrunc (q : Q) : Z :=
  if Qle_bool 0 q then Qfloor q else Qceiling q.

(** [x % d] for a positive constant [d]: the remainder has the sign of
    the dividend.  It is exact: the remainder of a binary64 number is
    one. *)
Definition rem_by (d : positive) (x : number) : number :=
  match x with
  | Num a =>
      let y := inject_Z (Zpos d) in
      Num (a - y * inject_Z (Qtrunc (a / y)))
  | Inf _ | NaN => NaN
  end.

(** The digits of a natural number, as [Number.prototype.toString]
    writes them. *)
Definition digits (n : N) : jsstring :=
  lit (NilZero.string_of_uint (N.to_uint n)).

(** [x.toFixed(0)]: the nearest integer, the larger one on a tie of the
    absolute value, after the sign.  From 10^21 on the source would get
    the exponent form, which is not embedded: [None]. *)
Definition toFixed0 (x : number) : option jsstring :=
  match x with
  | NaN => Some (lit "NaN")
  | Inf s => Some ((if s then lit "-" else []) ++ lit "Infinity")
  | Num q =>
      let a := Qabs q in
      if Qle_bool (inject_Z (10 ^ 21)) a then None
      else
        let n := Z.to_N (Qfloor (a + (1 # 2))) in
        Some ((if Qle_bool 0 q then [] else lit "-") ++ digits n)
  end.

End Num.

Import Num.

Module Exn.

Inductive name :=
  | Error
  | TypeError
  | SyntaxError
  | SkewAdjustmentError
  | UnknownResponse
  | UnexpectedResponse
  | NoAudioReceived
  | WebSocketError
  | ValueError.

(** [new name(message)]. *)
Record exn := New { class : name; message : jsstring }.

Inductive result (A : Type) :=
  | Ok (a : A)
  | Throw (e : exn).

Arguments Ok {A} a.
Arguments Throw {A} e.

(** A computation that may throw, followed by one that may also leave
    the embedding ([None]). *)
Definition bind {A B} (r : result A) (k : A -> option (result B))
  : option (result B) :=
  match r with
  | Ok a => k a
  | Throw e => Some (Throw e)
  end.

Notation "'let*' x := r 'in' k" := (bind r (fun x => k))
  (at level 10, x name, r at level 100, k at level 200).

End Exn.

Import Exn.

(** ** constants.ts *)

Definition TRUSTED_CLIENT_TOKEN : jsstring := lit "6A5AA1D4EAFF4E9FB37E23D68491D6F4".

(** ** isomorphic-drm.ts *)

Module DRM.

Definition WIN_EPOCH : Z := 11644473600.
Definition S_TO_NS : Z := 1000000000.

(** The static field of the class: the clock skew shared by the whole
    process. *)
Record DRMState := { clockSkewSeconds : number }.

Definition initial : DRMState := {| clockSkewSeconds := Num 0 |}.

Definition adjClockSkewSeconds (st : DRMState) (skewSeconds : number) : DRMState :=
  {| clockSkewSeconds := add (clockSkewSeconds st) skewSeconds |}.

(** [now] is [Date.now()], in milliseconds. *)
Definition getUnixTimestamp (now : Z) (st : DRMState) : number :=
  add (div_by 1000 (Num (inject_Z now))) (clockSkewSeconds st).

(** A response as [handleClientResponseError] looks at it: [headers] is
    absent, an object with a [get] method, or a plain object. *)
Inductive headers_like :=
  | WithGet (get : jsstring -> option jsstring)
  | Plain (h : gmap jsstring jsstring).

Record response := { headers : option headers_like }.

(** [if (!serverDate)]: null, undefined and the empty string. *)
Definition falsy (v : option jsstring) : bool :=
  match v with
  | Some (_ :: _) => false
  | _ => true
  end.

(** [a || b]. *)
Definition or_else (a b : option jsstring) : option jsstring :=
  if falsy a then b else a.

(** The value of [serverDate] before it is tested. *)
Definition serverDate (r : response) : option jsstring :=
  match headers r with
  | Some (WithGet get) => get (lit "date")
  | Some (Plain h) => or_else (h !! lit "date") (h !! lit "Date")
  | None => None
  end.

Section Environment.

(** [new Date(date).getTime()] of the platform: the milliseconds since
    the epoch, or [None] for an invalid date, whose time is NaN. *)
Variable Date_getTime : jsstring -> option Z.

(** [crypto.subtle.digest("SHA-256", _)], when the platform has it. *)
Variable subtle : option (bytes -> bytes).

(** [new Date] of a string does not throw, so the [catch] that returns
    [null] is never taken: the result is a number, NaN included. *)
Definition parseRfc2616Date (date : jsstring) : option number :=
  Some (div_by 1000 (match Date_getTime date with
                     | Some ms => Num (inject_Z ms)
                     | None => NaN
                     end)).

Definition handleClientResponseError (now : Z) (st : DRMState) (r : response)
  : result DRMState :=
  match serverDate r with
  | Some ((_ :: _) as date) =>
      match parseRfc2616Date date with
      | None =>
          Throw (New SkewAdjustmentError (lit "Failed to parse server date: " ++ date))
      | Some serverDateParsed =>
          let clientDate := getUnixTimestamp now st in
          Ok (adjClockSkewSeconds st (sub serverDateParsed clientDate))
      end
  | _ => Throw (New SkewAdjustmentError (lit "No server date in headers."))
  end.

(** The three assignments to [ticks]. *)
Definition ticks_of (unixTimestamp : number) : number :=
  let ticks := add unixTimestamp (Num (inject_Z WIN_EPOCH)) in
  let ticks := sub ticks (rem_by 300 ticks) in
  mul ticks (Num (inject_Z (S_TO_NS / 100))).

Definition strToHash (unixTimestamp : number) : option jsstring :=
  match toFixed0 (ticks_of unixTimestamp) with
  | Some s => Some (s ++ TRUSTED_CLIENT_TOKEN)
  | None => None
  end.

Definition hex_digit (d : Z) : Z :=
  if d <? 10 then 48 + d else 97 + (d - 10).

(** [b.toString(16).padStart(2, "0")]. *)
Definition hex2 (b : byte) : jsstring :=
  let v := byte_val b in
  if v <? 16 then lit "0" ++ [hex_digit v]
  else [hex_digit (v / 16); hex_digit (v mod 16)].

(** [toUpperCase] on the hexadecimal digits it is applied to. *)
Definition toUpperCase (s : jsstring) : jsstring :=
  map (fun c => if (97 <=? c) && (c <=? 122) then c - 32 else c) s.

(** [None] where [toFixed0] is. *)
Definition generateSecMsGec (now : Z) (st : DRMState) : option (result jsstring) :=
  match strToHash (getUnixTimestamp now st) with
  | None => None
  | Some str =>
      match subtle with
      | None => Some (Throw (New Error (lit "Web Crypto API not available")))
      | Some digest =>
          let hashArray := digest (utf8_encode str) in
          Some (Ok (toUpperCase (flat_map hex2 hashArray)))
      end
  end.

End Environment.

End DRM.

(** ** The digest of the platform *)

(** SHA-256 as FIPS 180-4 defines it, on bytes as numbers: what
    [crypto.subtle.digest("SHA-256", _)] computes.  The properties take
    the digest as a parameter; this one is for their instances. *)
Module SHA256.

Definition w32 (x : Z) : Z := Z.land x 0xffffffff.

Definition rotr (n x : Z) : Z :=
  Z.lor (Z.shiftr x n) (w32 (Z.shiftl x (32 - n))).

Definition Ch (x y z : Z) : Z :=
  Z.lxor (Z.land x y) (Z.land (Z.lxor x 0xffffffff) z).

Definition Maj (x y z : Z) : Z :=
  Z.lxor (Z.lxor (Z.land x y) (Z.land x z)) (Z.land y z).

Definition Sigma0 (x : Z) : Z := Z.lxor (Z.lxor (rotr 2 x) (rotr 13 x)) (rotr 22 x).
Definition Sigma1 (x : Z) : Z := Z.lxor (Z.lxor (rotr 6 x) (rotr 11 x)) (rotr 25 x).
Definition sigma0 (x : Z) : Z := Z.lxor (Z.lxor (rotr 7 x) (rotr 18 x)) (Z.shiftr x 3).
Definition sigma1 (x : Z) : Z := Z.lxor (Z.lxor (rotr 17 x) (rotr 19 x)) (Z.shiftr x 10).

(** The constants, as the standard derives them: the first 32 bits of
    the fractional parts of the cube roots of the first 64 primes, and
    of the square roots of the first 8 for the initial hash. *)
Definition is_prime (n : Z) : bool :=
  forallb (fun d => negb (n mod Z.of_nat d =? 0)) (seq 2 (Z.to_nat n - 2)).

Definition primes : list Z := List.filter is_prime (map Z.of_nat (seq 2 310)).

(** The integer cube root of a number below 2^108, bit by bit. *)
Definition cube_root (n : Z) : Z :=
  fold_left (fun r b => let r' := Z.lor r (Z.shiftl 1 (Z.of_nat b)) in
                        if r' * r' * r' <=? n then r' else r)
            (rev (seq 0 36)) 0.

Definition K : list Z := map (fun p => w32 (cube_root (Z.shiftl p 96))) primes.

Definition H0 : list Z :=
  map (fun p => w32 (Z.sqrt (Z.shiftl p 64))) (firstn 8 primes).

(** The message with its padding: the bit 1, zeros, and the length in
    bits on 64 bits. *)
Definition be_bytes (n : nat) (x : Z) : list Z :=
  map (fun i => Z.land (Z.shiftr x (8 * Z.of_nat i)) 255) (rev (seq 0 n)).

Definition pad (msg : list Z) : list Z :=
  let len := Z.of_nat (length msg) in
  msg ++ [128] ++ repeat 0 (Z.to_nat ((55 - len) mod 64)) ++ be_bytes 8 (8 * len).

Definition be_word (b : list Z) : Z :=
  fold_left (fun acc x => 256 * acc + x) b 0.

(** The words of the message, four bytes each. *)
Fixpoint words (fuel : nat) (b : list Z) : list Z :=
  match fuel, b with
  | S fuel', _ :: _ => be_word (firstn 4 b) :: words fuel' (skipn 4 b)
  | _, _ => []
  end.

(** The message schedule, the latest word first. *)
Fixpoint schedule (n : nat) (w : list Z) : list Z :=
  match n with
  | O => w
  | S n' =>
      let x := w32 (sigma1 (nth 1 w 0) + nth 6 w 0 + sigma0 (nth 14 w 0) + nth 15 w 0) in
      schedule n' (x :: w)
  end.

Definition round (s : list Z) (kw : Z * Z) : list Z :=
  match s with
  | [a; b; c; d; e; f; g; h] =>
      let T1 := h + Sigma1 e + Ch e f g + fst kw + snd kw in
      let T2 := Sigma0 a + Maj a b c in
      [w32 (T1 + T2); a; b; c; w32 (d + T1); e; f; g]
  | _ => s
  end.

Definition compress (h : list Z) (block : list Z) : list Z :=
  let w := rev (schedule 48 (rev block)) in
  let s := fold_left round (combine K w) h in
  map (fun p => w32 (fst p + snd p)) (combine h s).

(** The blocks of 16 words. *)
Fixpoint blocks (fuel : nat) (w : list Z) : list (list Z) :=
  match fuel, w with
  | S fuel', _ :: _ => firstn 16 w :: blocks fuel' (skipn 16 w)
  | _, _ => []
  end.

Definition digest (msg : list Z) : list Z :=
  let p := pad msg in
  let w := words (length p) p in
  flat_map (be_bytes 4) (fold_left compress (blocks (length w) w) H0).

End SHA256.

Definition sha256 (data : bytes) : bytes :=
  map byte_of (SHA256.digest (map byte_val data)).

(** ** Values of [JSON.parse] *)

Module Json.

#[local] Set Warnings "-register-all".

(** Numbers are the integral tick counts of the service.  An object
    lists its fields, each key once. *)
Inductive json :=
  | JNull
  | JBool (b : bool)
  | JNum (n : Z)
  | JStr (s : jsstring)
  | JArr (l : list json)
  | JObj (fields : list (jsstring * json)).

Fixpoint assoc (key : jsstring) (fields : list (jsstring * json)) : option json :=
  match fields with
  | [] => None
  | (k, v) :: fields' => if str_eqb k key then Some v else assoc key fields'
  end.

(** [v[key]] for a key that is neither an index nor [length]; [None] is
    [undefined]. *)
Definition prop (v : option json) (key : jsstring) : result (option json) :=
  match v with
  | None =>
      Throw (New TypeError (lit "Cannot read properties of undefined"))
  | Some JNull =>
      Throw (New TypeError (lit "Cannot read properties of null"))
  | Some (JObj fields) => Ok (assoc key fields)
  | Some _ => Ok None
  end.

(** What [for (const x of v)] goes through. *)
Definition iterate (v : option json) : result (list json) :=
  match v with
  | Some (JArr l) => Ok l
  | Some (JStr s) => Ok (map (fun c => JStr [c]) s)
  | _ => Throw (New TypeError (lit "is not iterable"))
  end.

(** [v === "s"]. *)
Definition is_str (s : jsstring) (v : option json) : bool :=
  match v with
  | Some (JStr s') => str_eqb s' s
  | _ => false
  end.

Definition sign_digits (n : Z) : jsstring :=
  (if n <? 0 then lit "-" else []) ++ digits (Z.to_N (Z.abs n)).

Fixpoint join (sep : jsstring) (l : list jsstring) : jsstring :=
  match l with
  | [] => []
  | [s] => s
  | s :: l' => s ++ sep ++ join sep l'
  end.

(** [`${v}`]. *)
Fixpoint toString (v : json) : jsstring :=
  match v with
  | JNull => lit "null"
  | JBool true => lit "true"
  | JBool false => lit "false"
  | JNum n => sign_digits n
  | JStr s => s
  | JArr l =>
      join (lit ",")
        (map (fun x => match x with JNull => [] | _ => toString x end) l)
  | JObj _ => lit "[object Object]"
  end.

Definition template (v : option json) : jsstring :=
  match v with
  | Some x => toString x
  | None => lit "undefined"
  end.

End Json.

Import Json.

(** ** isomorphic-communicate.ts *)

Module Communicate.

Definition crlf : jsstring := [13; 10].

(** A header object: the own properties the parsers write. *)
Abbreviation headers_map := (gmap jsstring jsstring).

(** The loop over the header lines, shared by both parsers:
    [const [key, value] = line.split(":", 2)].  [headers] is a plain
    object: the assignment of a string to its [__proto__] has no
    effect. *)
Definition add_header (headers : headers_map) (line : jsstring) : headers_map :=
  match take 2 (split (lit ":") line) with
  | ((_ :: _) as key) :: ((_ :: _) as value) :: _ =>
      if str_eqb key (lit "__proto__") then headers
      else <[key := trim value]> headers
  | _ => headers
  end.

Definition parse_headers (headerString : jsstring) : headers_map :=
  fold_left add_header (split crlf headerString) empty.

Definition isomorphicGetHeadersAndDataFromText (message : bytes)
  : headers_map * bytes :=
  let messageString := utf8_decode message in
  let headerEndIndex := indexOf (crlf ++ crlf) messageString in
  let headers :=
    match headerEndIndex with
    | Some i => parse_headers (take i messageString)
    | None => empty
    end in
  let header :=
    match headerEndIndex with
    | Some i => take (i + 4) messageString
    | None => substring_to 3 messageString            (* -1 + 4 *)
    end in
  let headerByteLength := length (utf8_encode header) in
  (headers, slice message (Z.of_nat headerByteLength)
                  (Z.of_nat (length message))).

Definition isomorphicGetHeadersAndDataFromBinary (message : bytes)
  : result (headers_map * bytes) :=
  match message with
  | b0 :: b1 :: _ =>
      let len := Z.of_nat (length message) in
      let headerLength := Z.lor (Z.shiftl (byte_val b0) 8) (byte_val b1) in
      let headers :=
        if (0 <? headerLength) && (headerLength + 2 <=? len)
        then parse_headers (utf8_decode (slice message 2 (headerLength + 2)))
        else empty in
      Ok (headers, slice message (headerLength + 2) len)
  | _ => Throw (New Error (lit "Message too short to contain header length"))
  end.

(** [TTSChunk], as the declaration file has it. *)
Record TTSChunk := {
  type : jsstring;
  data : option bytes;
  duration : option Z;
  offset : option Z;
  text : option jsstring
}.

Definition audio_chunk (audioData : bytes) : TTSChunk :=
  {| type := lit "audio"; data := Some audioData;
     duration := None; offset := None; text := None |}.

(** [CommunicateState]. *)
Record CommunicateState := {
  partialText : bytes;
  offsetCompensation : Z;
  lastDurationOffset : Z;
  streamWasCalled : bool
}.

(** What [messageQueue] holds. *)
Inductive item :=
  | Chunk (c : TTSChunk)
  | Failure (e : exn)
  | Close.

(** The part of one [_stream] activation that its callbacks share. *)
Record connection := {
  messageQueue : list item;
  closing : bool            (* [websocket.close()] was called *)
}.

Definition push (x : item) (c : connection) : connection :=
  {| messageQueue := messageQueue c ++ [x]; closing := closing c |}.

(** The payload of a message event.  A [Blob], which the source reads
    asynchronously, is not embedded. *)
Inductive ws_data :=
  | TextData (s : jsstring)
  | BinaryData (b : bytes)
  | OtherData (description : jsstring).

Definition processBinaryData (bufferData : bytes) (c : connection) : connection :=
  match isomorphicGetHeadersAndDataFromBinary bufferData with
  | Throw _ =>               (* bufferData.length < 2 *)
      push (Failure (New UnexpectedResponse
        (lit "We received a binary message, but it is missing the header length."))) c
  | Ok (headers, audioData) =>
      if negb (bool_decide (headers !! lit "Path" = Some (lit "audio"))) then
        push (Failure (New UnexpectedResponse
          (lit "Received binary message, but the path is not audio."))) c
      else
        let contentType := headers !! lit "Content-Type" in
        if negb (bool_decide (contentType = Some (lit "audio/mpeg"))) then
          if (0 <? length audioData)%nat then
            push (Failure (New UnexpectedResponse
              (lit "Received binary message, but with an unexpected Content-Type."))) c
          else c
        else if (length audioData =? 0)%nat then
          push (Failure (New UnexpectedResponse
            (lit "Received binary message, but it is missing the audio data."))) c
        else push (Chunk (audio_chunk audioData)) c
  end.

Section Environment.

(** [JSON.parse] of the platform; it throws a SyntaxError. *)
Variable JSON_parse : jsstring -> result json.

(** The branch of [parseMetadata] for a WordBoundary entry.  [None]
    where [Offset] or [Duration] is no number: the sums of the source
    are then no tick counts, which is outside of the embedding. *)
Definition word_boundary (offsetCompensation : Z) (metaObj : json)
  : option (result TTSChunk) :=
  let* Data := prop (Some metaObj) (lit "Data") in
  let* Offset := prop Data (lit "Offset") in
  let* Duration := prop Data (lit "Duration") in
  let* text0 := prop Data (lit "text") in
  let* Text := prop text0 (lit "Text") in
  match Text with
  | Some (JStr Text) =>
      match Offset, Duration with
      | Some (JNum Offset), Some (JNum Duration) =>
          let currentOffset := Offset + offsetCompensation in
          let currentDuration := Duration in
          Some (Ok {| type := lit "WordBoundary";
                      data := None;
                      duration := Some currentDuration;
                      offset := Some currentOffset;
                      text := Some (Utils.unescape Text) |})
      | _, _ => None
      end
  | _ => Some (Throw (New TypeError (lit "text.replace is not a function")))
  end.

(** The loop of [parseMetadata] over the entries. *)
Fixpoint parse_entries (offsetCompensation : Z) (entries : list json)
  : option (result TTSChunk) :=
  match entries with
  | [] =>
      Some (Throw (New UnexpectedResponse (lit "No WordBoundary metadata found")))
  | metaObj :: entries' =>
      let* metaType := prop (Some metaObj) (lit "Type") in
      if is_str (lit "WordBoundary") metaType then
        word_boundary offsetCompensation metaObj
      else if is_str (lit "SessionEnd") metaType then
        parse_entries offsetCompensation entries'
      else
        Some (Throw (New UnknownResponse
          (lit "Unknown metadata type: " ++ template metaType)))
  end.

Definition parseMetadata (st : CommunicateState) (data : bytes)
  : option (result TTSChunk) :=
  let* metadata := JSON_parse (utf8_decode data) in
  let* list := prop (Some metadata) (lit "Metadata") in
  let* entries := iterate list in
  parse_entries (offsetCompensation st) entries.

(** [handleMessage(message, isBinary)], with [data] the payload of the
    message and [st], [c] the state and the connection it writes to. *)
Definition handleMessage (st : CommunicateState) (c : connection)
    (data : ws_data) (isBinary : option bool)
  : option (CommunicateState * connection) :=
  (* [message.data || message]: an empty string gives way to the event *)
  let data :=
    match data with
    | TextData [] => OtherData (lit "object MessageEvent")
    | _ => data
    end in
  let binary :=
    match isBinary with
    | Some b => b
    | None => match data with BinaryData _ => true | _ => false end
    end in
  match binary, data with
  | false, TextData s =>
      let '(headers, parsedData) :=
        isomorphicGetHeadersAndDataFromText (utf8_encode s) in
      let path := headers !! lit "Path" in
      if bool_decide (path = Some (lit "audio.metadata")) then
        match parseMetadata st parsedData with
        | None => None
        | Some (Ok parsedMetadata) =>
            match offset parsedMetadata, duration parsedMetadata with
            | Some o, Some d =>
                Some ({| partialText := partialText st;
                         offsetCompensation := offsetCompensation st;
                         lastDurationOffset := o + d;
                         streamWasCalled := streamWasCalled st |},
                      push (Chunk parsedMetadata) c)
            | _, _ => None
            end
        | Some (Throw e) => Some (st, push (Failure e) c)
        end
      else if bool_decide (path = Some (lit "turn.end")) then
        Some ({| partialText := partialText st;
                 offsetCompensation := lastDurationOffset st;
                 lastDurationOffset := lastDurationOffset st;
                 streamWasCalled := streamWasCalled st |},
              {| messageQueue := messageQueue c; closing := true |})
      else if negb (bool_decide (path = Some (lit "response")))
              && negb (bool_decide (path = Some (lit "turn.start"))) then
        Some (st, push (Failure (New UnknownResponse
          (lit "Unknown path received: "
           ++ match path with Some p => p | None => lit "undefined" end))) c)
      else Some (st, c)
  | _, BinaryData bufferData => Some (st, processBinaryData bufferData c)
  | _, TextData _ =>
      Some (st, push (Failure (New UnexpectedResponse
        (lit "Unknown binary data type: string String"))) c)
  | _, OtherData description =>
      Some (st, push (Failure (New UnexpectedResponse
        (lit "Unknown binary data type: " ++ description))) c)
  end.

(** What the transport does after the connection is open. *)
Inductive ws_event :=
  | OnMessage (data : ws_data) (isBinary : option bool)
  | OnError
  | OnClose.

(** The callbacks, run on the events of one connection in their order.
    After the connection is open [websocket.onerror] is the [onError]
    of the opening promise, whose [reject] has no effect any more. *)
Definition on_event (sc : CommunicateState * connection) (ev : ws_event)
  : option (CommunicateState * connection) :=
  let '(st, c) := sc in
  match ev with
  | OnMessage data isBinary => handleMessage st c data isBinary
  | OnError => Some (st, c)
  | OnClose => Some (st, push Close c)
  end.

Fixpoint on_events (sc : CommunicateState * connection) (evs : list ws_event)
  : option (CommunicateState * connection) :=
  match evs with
  | [] => Some sc
  | ev :: evs' =>
      match on_event sc ev with
      | Some sc' => on_events sc' evs'
      | None => None
      end
  end.

(** How a generator stops: it returns, it throws, or it waits for a
    message that does not come. *)
Inductive outcome :=
  | Return
  | Thrown (e : exn)
  | Waiting.

(** The receive loop of [_stream] on the queue the callbacks have
    filled: the events it yields and how it stops. *)
Fixpoint receive (queue : list item) (audioWasReceived : bool)
  : list TTSChunk * outcome :=
  match queue with
  | [] => ([], Waiting)
  | Close :: _ =>
      if audioWasReceived then ([], Return)
      else ([], Thrown (New NoAudioReceived (lit "No audio was received.")))
  | Failure e :: _ => ([], Thrown e)
  | Chunk message :: queue' =>
      let audio :=
        if bool_decide (type message = lit "audio") then true
        else audioWasReceived in
      let '(out, stop) := receive queue' audio in
      (message :: out, stop)
  end.

(** What the platform does with one connection: whether it opens (if
    not, the [await]s before the loop throw), and its events. *)
Record chunk_env := {
  opening : option exn;
  events : list ws_event
}.

Definition new_connection : connection :=
  {| messageQueue := []; closing := false |}.

(** One activation of [_stream], run to its end.  The callbacks write
    to the state and to the queue and read neither what the loop has
    done nor whether it still runs, and the loop reads the queue only:
    the callbacks are run on all the events first, the loop on the queue
    they leave. *)
Definition _stream (st : CommunicateState) (env : chunk_env)
  : option (list TTSChunk * outcome * CommunicateState) :=
  match opening env with
  | Some e => Some ([], Thrown e, st)
  | None =>
      match on_events (st, new_connection) (events env) with
      | None => None
      | Some (st', c) =>
          let '(out, stop) := receive (messageQueue c) false in
          Some (out, stop, st')
      end
  end.

(** A [Communicate] object: its state and what [this.texts] has still
    to yield. *)
Record session := {
  state : CommunicateState;
  texts : list bytes
}.

Definition set_partialText (st : CommunicateState) (partialText : bytes)
  : CommunicateState :=
  {| partialText := partialText;
     offsetCompensation := offsetCompensation st;
     lastDurationOffset := lastDurationOffset st;
     streamWasCalled := streamWasCalled st |}.

Definition set_streamWasCalled (st : CommunicateState) : CommunicateState :=
  {| partialText := partialText st;
     offsetCompensation := offsetCompensation st;
     lastDurationOffset := lastDurationOffset st;
     streamWasCalled := true |}.

(** The loop of [stream] over [this.texts], one [chunk_env] for each
    connection. *)
Fixpoint stream_loop (st : CommunicateState) (texts : list bytes)
    (envs : list chunk_env)
  : option (list TTSChunk * outcome * session) :=
  match texts with
  | [] => Some ([], Return, {| state := st; texts := [] |})
  | partialText :: texts' =>
      let st := set_partialText st partialText in
      match envs with
      | [] => Some ([], Waiting, {| state := st; texts := texts' |})
      | env :: envs' =>
          match _stream st env with
          | None => None
          | Some (out, Return, st') =>
              match stream_loop st' texts' envs' with
              | Some (out', stop, s') => Some (out ++ out', stop, s')
              | None => None
              end
          | Some (out, Thrown e, st') =>
              (* leaving the loop closes the generator [this.texts] *)
              Some (out, Thrown e, {| state := st'; texts := [] |})
          | Some (out, Waiting, st') =>
              Some (out, Waiting, {| state := st'; texts := texts' |})
          end
      end
  end.

(** The body of the generator [stream()], run to its end. *)
Definition stream (s : session) (envs : list chunk_env)
  : option (list TTSChunk * outcome * session) :=
  if streamWasCalled (state s) then
    Some ([], Thrown (New Error (lit "stream can only be called once.")), s)
  else
    stream_loop (set_streamWasCalled (state s)) (texts s) envs.

End Environment.

(** The constructor, without the voice configuration: it can only
    refuse the construction, and nothing but the outgoing frames reads
    it. *)
Definition initial_state : CommunicateState :=
  {| partialText := utf8_encode [];
     offsetCompensation := 0;
     lastDurationOffset := 0;
     streamWasCalled := false |}.

Definition maxSize : Z := 4096.

Definition new (text : jsstring) : option session :=
  let processedText := Utils.escape (Utils.removeIncompatibleCharacters text) in
  match Utils.splitTextByByteLength processedText maxSize with
  | Some chunks =>
      Some {| state := initial_state; texts := map utf8_encode chunks |}
  | None => None
  end.

End Communicate.

(** ** submaker.ts *)

Module SubMaker.

Import Communicate.

Record cue := {
  index : Z;
  start : Q;
  end_ : Q;
  content : jsstring
}.

(** A [SubMaker] is its field [cues]. *)
Definition SubMaker := list cue.

Definition new : SubMaker := [].

Definition seconds (ticks : Z) : Q := inject_Z ticks / inject_Z 10000000.

Definition feed (cues : SubMaker) (msg : TTSChunk) : result SubMaker :=
  match bool_decide (type msg = lit "WordBoundary"),
        offset msg, duration msg, text msg with
  | true, Some offset, Some duration, Some text =>
      let start := seconds offset in
      let end_ := seconds (offset + duration) in
      Ok (cues ++ [{| index := Z.of_nat (length cues) + 1;
                      start := start;
                      end_ := end_;
                      content := text |}])
  | _, _, _, _ =>
      Throw (New ValueError
        (lit "Invalid message type, expected 'WordBoundary' with offset, duration and text"))
  end.

(** The loop of [mergeCues] over [this.cues.slice(1)]. *)
Fixpoint merge_loop (words : Z) (newCues : list cue) (currentCue : cue)
    (rest : list cue) : list cue * cue :=
  match rest with
  | [] => (newCues, currentCue)
  | cue :: rest' =>
      if Z.of_nat (length (split (lit " ") (content currentCue))) <? words then
        merge_loop words newCues
          {| index := index currentCue;
             start := start currentCue;
             end_ := end_ cue;
             content := content currentCue ++ lit " " ++ content cue |}
          rest'
      else merge_loop words (newCues ++ [currentCue]) cue rest'
  end.

(** [newCues.map((cue, i) => ({ ...cue, index: i + 1 }))]. *)
Definition reindex (newCues : list cue) : list cue :=
  imap (fun i cue => {| index := Z.of_nat i + 1;
                        start := start cue;
                        end_ := end_ cue;
                        content := content cue |}) newCues.

Definition mergeCues (words : Z) (cues : SubMaker) : result SubMaker :=
  if words <=? 0 then
    Throw (New ValueError (lit "Invalid number of words to merge, expected > 0"))
  else
    match cues with
    | [] => Ok cues
    | first :: rest =>
        let '(newCues, currentCue) := merge_loop words [] first rest in
        Ok (reindex (newCues ++ [currentCue]))
    end.

(** Feeding a list of messages, one after the other. *)
Fixpoint feed_all (cues : SubMaker) (msgs : list TTSChunk) : result SubMaker :=
  match msgs with
  | [] => Ok cues
  | msg :: msgs' =>
      match feed cues msg with
      | Ok cues' => feed_all cues' msgs'
      | Throw e => Throw e
      end
  end.

End SubMaker.

(** ** Notions used in the statements *)

(** What [escape] has written for one character, when exactly the
    characters whose flag is set are written as entities. *)
Definition entity (q a l g m : bool) (c : Z) : jsstring :=
  if (38 =? c) && m then lit "&amp;"
  else if (60 =? c) && l then lit "&lt;"
  else if (62 =? c) && g then lit "&gt;"
  else if (34 =? c) && q then lit "&quot;"
  else if (39 =? c) && a then lit "&apos;"
  else [c].

(** A text without its white space. *)
Definition strip_ws (s : jsstring) : jsstring :=
  List.filter (fun c => negb (is_space c)) s.

(** The length of a text in UTF-8. *)
Definition byte_length (s : jsstring) : Z := Z.of_nat (length (utf8_encode s)).

(** The text the constructor of [Communicate] hands to the segmenter. *)
Definition sanitize (text : jsstring) : jsstring :=
  Utils.escape (Utils.removeIncompatibleCharacters text).

(** A binary frame: the length of the header block on two bytes, the
    header block, the payload. *)
Definition binary_frame (header : jsstring) (payload : bytes) : bytes :=
  let h := utf8_encode header in
  let n := Z.of_nat (length h) in
  byte_of (Z.shiftr n 8) :: byte_of (Z.land n 255) :: h ++ payload.

(** A WordBoundary event. *)
Definition word (t : jsstring) (o d : Z) : Communicate.TTSChunk :=
  {| Communicate.type := lit "WordBoundary";
     Communicate.data := None;
     Communicate.duration := Some d;
     Communicate.offset := Some o;
     Communicate.text := Some t |}.

Import Communicate.
Import DRM.

(** *** Metadata entries *)

Definition is_session_end (e : json) : Prop :=
  prop (Some e) (lit "Type") = Ok (Some (JStr (lit "SessionEnd"))).

(** A WordBoundary entry with offset [o], duration [d] and text [t]. *)
Definition is_word_boundary (e : json) (o d : Z) (t : jsstring) : Prop :=
  prop (Some e) (lit "Type") = Ok (Some (JStr (lit "WordBoundary"))) /\
  exists Data text0,
    prop (Some e) (lit "Data") = Ok Data /\
    prop Data (lit "Offset") = Ok (Some (JNum o)) /\
    prop Data (lit "Duration") = Ok (Some (JNum d)) /\
    prop Data (lit "text") = Ok text0 /\
    prop text0 (lit "Text") = Ok (Some (JStr t)).

(** An entry of another type, or of none. *)
Definition is_other_type (e : json) : Prop :=
  exists ty, prop (Some e) (lit "Type") = Ok ty /\
             ty <> Some (JStr (lit "WordBoundary")) /\
             ty <> Some (JStr (lit "SessionEnd")).

(** *** Frames and queues *)

(** The [Path] a message is dispatched on, when [handleMessage] takes
    it for a text frame. *)
Definition text_path (ev : ws_event) : option (option jsstring) :=
  match ev with
  | OnMessage (TextData ((_ :: _) as s)) (None | Some false) =>
      Some (fst (isomorphicGetHeadersAndDataFromText (utf8_encode s)) !! lit "Path")
  | _ => None
  end.

Definition is_turn_end (ev : ws_event) : Prop :=
  text_path ev = Some (Some (lit "turn.end")).

(** The WordBoundary events of a queue. *)
Definition word_boundaries (queue : list item) : list TTSChunk :=
  flat_map (fun x => match x with
                     | Chunk m =>
                         if bool_decide (type m = lit "WordBoundary") then [m] else []
                     | _ => []
                     end) queue.

(** Where a word ends: its offset plus its duration. *)
Definition word_end (e : TTSChunk) : option Z :=
  match offset e, duration e with
  | Some o, Some d => Some (o + d)
  | _, _ => None
  end.







(** A metadata payload: a SessionEnd entry, then one word. *)
Definition one_word (o d : Z) (t : jsstring) : json :=
  JObj [(lit "Metadata",
         JArr [JObj [(lit "Type", JStr (lit "SessionEnd"))];
               JObj [(lit "Type", JStr (lit "WordBoundary"));
                     (lit "Data",
                      JObj [(lit "Offset", JNum o); (lit "Duration", JNum d);
                            (lit "text", JObj [(lit "Text", JStr t)])])]])].

(** A text frame with the given path, and an audio frame. *)
Definition text_frame (path : jsstring) : ws_event :=
  OnMessage (TextData (lit "X-RequestId:0" ++ crlf ++ lit "Path:" ++ path
                       ++ crlf ++ crlf ++ lit "{}")) None.

Definition audio_frame : ws_event :=
  OnMessage (BinaryData (binary_frame
    (lit "Path:audio" ++ crlf ++ lit "Content-Type:audio/mpeg") [x01; x02])) None.

(** *** The clock *)

Definition skewed (skew : Q) : DRMState := {| clockSkewSeconds := Num skew |}.

(** The value of [ticks] after [ticks += WIN_EPOCH]: the adjusted Unix
    time moved to the Windows epoch, a binary64 number. *)
Definition windows_time (now : Z) (st : DRMState) : number :=
  add (getUnixTimestamp now st) (Num (inject_Z WIN_EPOCH)).

(** The number of the 300 second bucket of a time in seconds. *)
Definition bucket (T : Q) : Z := Qfloor (T / inject_Z 300).

(** The text that is hashed for a bucket: the ticks of its start, then
    the secret. *)
Definition hashed (k : Z) : jsstring :=
  digits (Z.to_N (k * 300 * 10000000)) ++ TRUSTED_CLIENT_TOKEN.

(** An upper case hexadecimal digit. *)
Definition upper_hex (c : Z) : bool :=
  ((48 <=? c) && (c <=? 57)) || ((65 <=? c) && (c <=? 70)).

(** The byte that two upper case hexadecimal digits stand for. *)
Definition unhex_digit (c : Z) : Z := if c <? 58 then c - 48 else c - 55.

Definition unhex2 (s : jsstring) : option byte :=
  match s with
  | [c1; c2] => Byte.of_N (Z.to_N (16 * unhex_digit c1 + unhex_digit c2))
  | _ => None
  end.

(** The bytes that a text of upper case hexadecimal digits stands for. *)
Fixpoint unhex (s : jsstring) : option bytes :=
  match s with
  | [] => Some []
  | c1 :: c2 :: s' =>
      match unhex2 [c1; c2], unhex s' with
      | Some b, Some l => Some (b :: l)
      | _, _ => None
      end
  | _ => None
  end.

Definition ascii_text (s : jsstring) : Prop := Forall (fun c => 0 <= c < 128) s.

(** A clock that reads one date only. *)
Definition epoch_only (date : jsstring) : option Z :=
  if str_eqb date (lit "Thu, 01 Jan 1970 00:00:00 GMT") then Some 0 else None.

(** A platform that reads the date [date] as [ms] milliseconds, and no
    other date. *)
Definition reads (date : jsstring) (ms : Z) (d : jsstring) : option Z :=
  if str_eqb d date then Some ms else None.

(** *** Characters *)

(** Is [c] one of the characters that [removeIncompatibleCharacters]
    takes out? *)
Definition removed (c : Z) : bool := existsb (Z.eqb c) Utils.chars_to_remove.

(** The characters of markup that [escape] writes as entities, the
    ampersand apart. *)
Definition markup (c : Z) : bool :=
  (c =? 60) || (c =? 62) || (c =? 34) || (c =? 39).

(** *** Header lines *)

Definition colon : Z := 58.

(** The header length that the first two bytes of a binary frame give. *)
Definition declared_length (b0 b1 : byte) : Z := 256 * byte_val b0 + byte_val b1.

(** *** Connections *)

Definition is_audio (m : TTSChunk) : bool := bool_decide (type m = lit "audio").

(** The classes of the errors that the callbacks and the receive loop
    make or pass on, when [JSON.parse] throws a SyntaxError only. *)
Definition protocol_error (n : name) : bool :=
  match n with
  | SyntaxError | TypeError | UnknownResponse | UnexpectedResponse
  | NoAudioReceived => true
  | _ => false
  end.

Definition protocol_item (x : item) : Prop :=
  match x with
  | Failure e => protocol_error (class e) = true
  | _ => True
  end.

(** The header block of an audio frame, and an audio frame with the
    payload [p]. *)
Definition audio_header : jsstring :=
  lit "X-RequestId:0" ++ crlf ++ lit "Content-Type:audio/mpeg" ++ crlf
  ++ lit "Path:audio" ++ crlf.

Definition audio_message (p : bytes) : ws_event :=
  OnMessage (BinaryData (binary_frame audio_header p)) None.

(** The state after a [turn.end] message. *)
Definition turn_ended (st : CommunicateState) : CommunicateState :=
  {| partialText := partialText st;
     offsetCompensation := lastDurationOffset st;
     lastDurationOffset := lastDurationOffset st;
     streamWasCalled := streamWasCalled st |}.

(** *** Tokens *)

(** The token of the state whose skew is NaN. *)
Definition NaN_token (digest : bytes -> bytes) : jsstring :=
  toUpperCase (flat_map hex2 (digest (utf8_encode (lit "NaN" ++ TRUSTED_CLIENT_TOKEN)))).

(** *** Cues *)

(** The cues are numbered from 1 on. *)
Definition numbered (cues : list SubMaker.cue) : Prop :=
  forall i c, cues !! i = Some c -> SubMaker.index c = Z.of_nat i + 1.

(** The number of words [mergeCues] counts in a cue. *)
Definition nwords (c : SubMaker.cue) : Z :=
  Z.of_nat (length (split (lit " ") (SubMaker.content c))).

(** The text of the cues, one after the other. *)
Definition cues_text (cues : list SubMaker.cue) : jsstring :=
  join (lit " ") (map SubMaker.content cues).

(** ** IsomorphicBuffer (isomorphic-communicate.ts) *)

Module IsomorphicBuffer.

(** What [from] is given: a string, an [ArrayBuffer], a [Uint8Array],
    or something else. *)
Inductive input :=
  | Str (s : jsstring)
  | ArrayBuffer (b : bytes)
  | Uint8Array (b : bytes)
  | Other.

Definition from (i : input) : result bytes :=
  match i with
  | Str s => Ok (utf8_encode s)
  | ArrayBuffer b => Ok b
  | Uint8Array b => Ok b
  | Other => Throw (New Error (lit "Unsupported input type for IsomorphicBuffer.from"))
  end.

(** [result.set(arr, offset)] of a typed array: [arr] is written over
    the elements from [offset] on.  It throws a RangeError when [arr]
    does not fit: [None]. *)
Definition set (result arr : bytes) (offset : nat) : option bytes :=
  if (offset + length arr <=? length result)%nat
  then Some (take offset result ++ arr ++ drop (offset + length arr) result)
  else None.

(** The loop of [concat] over [arrays]. *)
Fixpoint concat_loop (arrays : list bytes) (result : bytes) (offset : nat)
  : option bytes :=
  match arrays with
  | [] => Some result
  | arr :: arrays' =>
      match set result arr offset with
      | Some result' => concat_loop arrays' result' (offset + length arr)
      | None => None
      end
  end.

Definition concat (arrays : list bytes) : option bytes :=
  let totalLength := fold_left (fun sum arr => (sum + length arr)%nat) arrays O in
  let result := repeat x00 totalLength in
  concat_loop arrays result O.

(** [toString(buffer)]: the callers give no encoding, which is then
    "utf-8". *)
Definition toString (buffer : bytes) : jsstring := utf8_decode buffer.

End IsomorphicBuffer.

(** *** UTF-8 *)

(** The decoder run on the bytes of one piece: what it writes, and the
    state it is left in. *)
Fixpoint decode_run (st : decoder) (bs : bytes) : jsstring * decoder :=
  match bs with
  | [] => ([], st)
  | b :: bs' =>
      let '(out, st') := decode_byte st (byte_val b) in
      let '(out', st'') := decode_run st' bs' in
      (out ++ out', st'')
  end.

(** A string of scalar values: what [TextEncoder] writes as it is. *)
Definition well_formed (s : jsstring) : Prop := Forall (fun c => scalar c = c) s.

(** A check of [f] on the [2 ^ k] numbers from [lo] on. *)
Fixpoint all_pow (k : nat) (f : Z -> bool) (lo : Z) : bool :=
  match k with
  | O => f lo
  | S k' => all_pow k' f lo && all_pow k' f (lo + 2 ^ Z.of_nat k')
  end.

(** A string without the byte order mark (U+FEFF) it may start with. *)
Definition strip_bom (s : jsstring) : jsstring :=
  match s with
  | 65279 :: s' => s'
  | _ => s
  end.

(** What the decoder has read of an open sequence is enough for the
    character to be at least U+0080: no ASCII character comes out of a
    sequence of several bytes. *)
Definition open_ok (st : decoder) : Prop :=
  needed st = 0 \/
  (0 <= seen st < needed st /\ 0 <= code_point st /\
   128 <= lower st /\ upper st <= 191 /\
   (2 <= code_point st \/
    (seen st + 2 <= needed st /\ (1 <= code_point st \/ 144 <= lower st)))).

(** What the decoder may write on a byte [v] for which [R] holds. *)
Definition decoded (R : Z -> Prop) (c : Z) : Prop :=
  c = replacement \/ 128 <= c \/ R c.

(** ** isomorphic-utils.ts: identifiers *)

Module Ids.

(** [connectId()].  [getRandomValues] is what the platform writes into
    the 16 elements of [array]. *)
Definition connectId (getRandomValues : nat -> byte) : jsstring :=
  let array := map getRandomValues (seq 0 16) in
  let at_ (i : nat) : Z := from_option byte_val 0 (array !! i) in
  let array := <[6%nat := byte_of (Z.lor (Z.land (at_ 6%nat) 15) 64)]> array in
  let at_ (i : nat) : Z := from_option byte_val 0 (array !! i) in
  let array := <[8%nat := byte_of (Z.lor (Z.land (at_ 8%nat) 63) 128)]> array in
  let hex := flat_map hex2 array in
  let uuid := slice hex 0 8 ++ lit "-" ++ slice hex 8 12 ++ lit "-"
              ++ slice hex 12 16 ++ lit "-" ++ slice hex 16 20 ++ lit "-"
              ++ slice hex 20 32 in
  replace_all (lit "-") [] uuid.

End Ids.

(** A lower case hexadecimal digit. *)
Definition lower_hex (c : Z) : bool :=
  ((48 <=? c) && (c <=? 57)) || ((97 <=? c) && (c <=? 102)).

(** ** tts_config.ts *)

Module TTSConfig.

Record TTSConfig := {
  voice : jsstring;
  rate : jsstring;
  volume : jsstring;
  pitch : jsstring
}.

(** The character classes of the patterns: [[a-z]], [[A-Z]], [\d], and
    [.], which is every character but the line terminators. *)
Definition lower (c : Z) : bool := (97 <=? c) && (c <=? 122).
Definition upper (c : Z) : bool := (65 <=? c) && (c <=? 90).
Definition digit (c : Z) : bool := (48 <=? c) && (c <=? 57).
Definition dot (c : Z) : bool :=
  negb ((c =? 10) || (c =? 13) || (c =? 8232) || (c =? 8233)).

(** The longest run of characters of a class at the start of [s], and
    what follows it. *)
Fixpoint span (p : Z -> bool) (s : jsstring) : jsstring * jsstring :=
  match s with
  | c :: s' =>
      if p c then let '(run, rest) := span p s' in (c :: run, rest)
      else ([], s)
  | [] => ([], [])
  end.

(** [s.endsWith(suffix)]. *)
Definition ends_with (suffix s : jsstring) : bool := prefixb (rev suffix) (rev s).

(** [/^([a-z]{2,})-([A-Z]{2,})-(.+Neural)$/.exec(voice)]: the three
    groups of the match.  A hyphen is no letter, so the first group is
    the whole run of lower case letters the voice starts with and the
    second one the whole run of upper case letters after the hyphen;
    the third one is all that follows the second hyphen. *)
Definition exec_short (voice : jsstring) : option (jsstring * jsstring * jsstring) :=
  let '(lang, rest) := span lower voice in
  match rest with
  | 45 :: rest =>
      let '(region, rest) := span upper rest in
      match rest with
      | 45 :: name =>
          if (2 <=? length lang)%nat && (2 <=? length region)%nat
             && forallb dot name && ends_with (lit "Neural") name
             && (7 <=? length name)%nat
          then Some (lang, region, name)
          else None
      | _ => None
      end
  | _ => None
  end.

Definition voice_prefix : jsstring :=
  lit "Microsoft Server Speech Text to Speech Voice (".

(** [.+,.+] on a whole text: no line terminator, and a comma that is
    neither its first nor its last character. *)
Definition dot_comma_dot (s : jsstring) : bool :=
  forallb dot s && existsb (Z.eqb 44) (removelast (tl s)).

(** [/^Microsoft Server Speech Text to Speech Voice \(.+,.+\)$/.test]. *)
Definition test_voice (s : jsstring) : bool :=
  prefixb voice_prefix s &&
  match rev (drop (length voice_prefix) s) with
  | 41 :: inner => dot_comma_dot (rev inner)
  | _ => false
  end.

(** [/^[+-]\d+<unit>$/.test], for the units [%] and [Hz]. *)
Definition test_signed (unit_ : jsstring) (s : jsstring) : bool :=
  match s with
  | sign :: rest =>
      ((sign =? 43) || (sign =? 45)) && ends_with unit_ rest &&
      let digits := take (length rest - length unit_) rest in
      negb (length digits =? 0)%nat && forallb digit digits
  | [] => false
  end.

(** The values of the embedding are strings, so that the test of
    [typeof paramValue] never throws. *)
Definition validateStringParam (paramName paramValue : jsstring)
    (pattern : jsstring -> bool) : result unit :=
  if negb (pattern paramValue) then
    Throw (New ValueError
      (lit "Invalid " ++ paramName ++ lit " '" ++ paramValue ++ lit "'."))
  else Ok tt.

(** The voice after the first statement of [validate]. *)
Definition full_voice (voice : jsstring) : jsstring :=
  match exec_short voice with
  | Some (lang, region, name) =>
      let '(region, name) :=
        if existsb (Z.eqb 45) name then
          let parts := split (lit "-") name in
          (region ++ lit "-" ++ nth 0 parts [], nth 1 parts [])
        else (region, name) in
      voice_prefix ++ lang ++ lit "-" ++ region ++ lit ", " ++ name ++ lit ")"
  | None => voice
  end.

Definition validate (this : TTSConfig) : result TTSConfig :=
  let this := {| voice := full_voice (voice this); rate := rate this;
                 volume := volume this; pitch := pitch this |} in
  match validateStringParam (lit "voice") (voice this) test_voice with
  | Throw e => Throw e
  | Ok _ =>
  match validateStringParam (lit "rate") (rate this) (test_signed (lit "%")) with
  | Throw e => Throw e
  | Ok _ =>
  match validateStringParam (lit "volume") (volume this) (test_signed (lit "%")) with
  | Throw e => Throw e
  | Ok _ =>
  match validateStringParam (lit "pitch") (pitch this) (test_signed (lit "Hz")) with
  | Throw e => Throw e
  | Ok _ => Ok this
  end end end end.

(** The constructor: [None] is a field that is not given. *)
Definition new (voice : jsstring) (rate volume pitch : option jsstring)
  : result TTSConfig :=
  validate {| voice := voice;
              rate := default (lit "+0%") rate;
              volume := default (lit "+0%") volume;
              pitch := default (lit "+0Hz") pitch |}.

End TTSConfig.

(** constants.ts *)
Definition DEFAULT_VOICE : jsstring := lit "en-US-EmmaMultilingualNeural".

(** The characters of an accepted rate, volume or pitch. *)
Definition prosody_char (c : Z) : bool :=
  TTSConfig.digit c || (c =? 43) || (c =? 45) || (c =? 37) || (c =? 72) || (c =? 122).

(** ** isomorphic-simple.ts *)

Module Simple.

(** [concatUint8Arrays]: [None] where [set] is. *)
Fixpoint concat_loop (arrays : list bytes) (result : bytes) (offset : nat)
  : option bytes :=
  match arrays with
  | [] => Some result
  | arr :: arrays' =>
      if (0 <? length arr)%nat then
        match IsomorphicBuffer.set result arr offset with
        | Some result' => concat_loop arrays' result' (offset + length arr)
        | None => None
        end
      else concat_loop arrays' result offset
  end.

Definition concatUint8Arrays (arrays : list bytes) : option bytes :=
  match arrays with
  | [] => Some []
  | [arr] => Some arr
  | _ =>
      let totalLength := fold_left (fun sum arr => (sum + length arr)%nat) arrays O in
      let result := repeat x00 totalLength in
      concat_loop arrays result O
  end.

(** An entry of [subtitle]. *)
Record WordBoundary := {
  offset : Z;
  duration : Z;
  text : jsstring
}.

(** The loop of [synthesize] over the chunks of the stream:
    [audioChunks] and [wordBoundaries]. *)
Fixpoint collect (chunks : list TTSChunk) : list bytes * list WordBoundary :=
  match chunks with
  | [] => ([], [])
  | chunk :: chunks' =>
      let '(audioChunks, wordBoundaries) := collect chunks' in
      match bool_decide (Communicate.type chunk = lit "audio"), Communicate.data chunk with
      | true, Some data => (data :: audioChunks, wordBoundaries)
      | _, _ =>
          match bool_decide (Communicate.type chunk = lit "WordBoundary"),
                Communicate.offset chunk, Communicate.duration chunk,
                Communicate.text chunk with
          | true, Some offset, Some duration, Some text =>
              (audioChunks,
               {| offset := offset; duration := duration; text := text |}
               :: wordBoundaries)
          | _, _, _, _ => (audioChunks, wordBoundaries)
          end
      end
  end.

(** What [synthesize] returns for the chunks its stream has yielded:
    the bytes of the audio and the subtitle. *)
Definition synthesized (chunks : list TTSChunk) : option (bytes * list WordBoundary) :=
  let '(audioChunks, wordBoundaries) := collect chunks in
  match concatUint8Arrays audioChunks with
  | Some audioBuffer => Some (audioBuffer, wordBoundaries)
  | None => None
  end.

(** [s.padStart(n, "0")]. *)
Definition padStart (n : nat) (s : jsstring) : jsstring :=
  repeat 48 (n - length s) ++ s.

Definition padNumber (num : Z) (length : nat) : jsstring :=
  padStart length (sign_digits num).

(** The times are whole numbers of ticks; [%] is the remainder that has
    the sign of the dividend. *)
Definition formatTimestamp (timeIn100ns : Z) (format : jsstring) : jsstring :=
  let totalSeconds := timeIn100ns / 10000000 in
  let hours := totalSeconds / 3600 in
  let minutes := Z.rem totalSeconds 3600 / 60 in
  let seconds := Z.rem totalSeconds 60 in
  let milliseconds := Z.rem timeIn100ns 10000000 / 10000 in
  let separator := if str_eqb format (lit "vtt") then lit "." else lit "," in
  padNumber hours 2 ++ lit ":" ++ padNumber minutes 2 ++ lit ":"
  ++ padNumber seconds 2 ++ separator ++ padNumber milliseconds 3.

End Simple.

(** What [stream] yields: an audio chunk or a word boundary. *)
Definition chunk_of (x : bytes + Simple.WordBoundary) : TTSChunk :=
  match x with
  | inl data => audio_chunk data
  | inr w => word (Simple.text w) (Simple.offset w) (Simple.duration w)
  end.

Definition audio_of (x : bytes + Simple.WordBoundary) : option bytes :=
  match x with inl data => Some data | inr _ => None end.

Definition word_of (x : bytes + Simple.WordBoundary) : option Simple.WordBoundary :=
  match x with inl _ => None | inr w => Some w end.

(** ** submaker.ts: the SRT text *)

Module Srt.

(** [x % d] for a positive whole number [d]. *)
Definition Qrem (x : Q) (d : positive) : Q :=
  (x - inject_Z (Zpos d) * inject_Z (Qtrunc (x / inject_Z (Zpos d))))%Q.

(** [Math.round]: the nearest whole number, the larger one on a tie.
    On a tie of the exact value the result in binary64 hangs on the
    rounding of the operations before, which is not embedded: [None]. *)
Definition Math_round (x : Q) : option Z :=
  if Qeq_bool (x - inject_Z (Qfloor x)) (1 # 2) then None
  else Some (Qfloor (x + (1 # 2))).

Definition pad (num : Z) (size : nat) : jsstring :=
  Simple.padStart size (sign_digits num).

(** The seconds are those of a cue: a whole number of ticks divided by
    10^7, below 10^8 s, where the floors of the source are those of the
    exact values. *)
Definition formatTime (seconds : Q) : option jsstring :=
  let h := Qfloor (seconds / inject_Z 3600) in
  let m := Qfloor (Qrem seconds 3600 / inject_Z 60) in
  let s := Qfloor (Qrem seconds 60) in
  match Math_round ((seconds - inject_Z (Qfloor seconds)) * inject_Z 1000) with
  | Some ms =>
      Some (pad h 2 ++ lit ":" ++ pad m 2 ++ lit ":" ++ pad s 2 ++ lit ","
            ++ pad ms 3)
  | None => None
  end.

(** The text of one cue in [getSrt]. *)
Definition cue_text (cue : SubMaker.cue) : option jsstring :=
  match formatTime (SubMaker.start cue), formatTime (SubMaker.end_ cue) with
  | Some start, Some end_ =>
      Some (sign_digits (SubMaker.index cue) ++ crlf
            ++ start ++ lit " --> " ++ end_ ++ crlf
            ++ SubMaker.content cue ++ crlf)
  | _, _ => None
  end.

Fixpoint cue_texts (cues : list SubMaker.cue) : option (list jsstring) :=
  match cues with
  | [] => Some []
  | cue :: cues' =>
      match cue_text cue, cue_texts cues' with
      | Some s, Some l => Some (s :: l)
      | _, _ => None
      end
  end.

Definition getSrt (cues : SubMaker.SubMaker) : option jsstring :=
  match cue_texts cues with
  | Some l => Some (join crlf l)
  | None => None
  end.

End Srt.

(** ** isomorphic-voices.ts *)

Module Voices.

Record Tags := {
  ContentCategories : list jsstring;
  VoicePersonalities : list jsstring
}.

Record Voice := {
  Name : jsstring;
  ShortName : jsstring;
  Gender : jsstring;
  Locale : jsstring;
  SuggestedCodec : jsstring;
  FriendlyName : jsstring;
  Status : jsstring;
  VoiceTag : Tags
}.

(** [FetchError]: its message and its [response], the status and the
    headers. *)
Record FetchError := {
  fetch_message : jsstring;
  fetch_response : option (Z * gmap jsstring jsstring)
}.

(** What [listVoices] throws. *)
Inductive thrown :=
  | Fetch (e : FetchError)
  | Exception (e : exn).

(** What the platform does with a request: it fails ([fetch], [json]
    or the loop over data that are no voices throws; [message] is the
    message of the error, or the text for what is no [Error]), or the
    response is not [ok] ([headers] is the object that the source makes
    of its headers), or the voices come. *)
Inductive fetched :=
  | Failed (message : jsstring)
  | NotOk (status : Z) (headers : gmap jsstring jsstring)
  | Data (data : list Voice).

Definition BASE_URL : jsstring :=
  lit "speech.platform.bing.com/consumer/speech/synthesize/readaloud".

Definition VOICE_LIST_URL : jsstring :=
  lit "https://" ++ BASE_URL ++ lit "/voices/list?trustedclienttoken="
  ++ TRUSTED_CLIENT_TOKEN.

Definition SEC_MS_GEC_VERSION : jsstring := lit "1-130.0.2849.68".

Definition trim_tags (voice : Voice) : Voice :=
  {| Name := Name voice; ShortName := ShortName voice; Gender := Gender voice;
     Locale := Locale voice; SuggestedCodec := SuggestedCodec voice;
     FriendlyName := FriendlyName voice; Status := Status voice;
     VoiceTag :=
       {| ContentCategories := map trim (ContentCategories (VoiceTag voice));
          VoicePersonalities := map trim (VoicePersonalities (VoiceTag voice)) |} |}.

Section Environment.

Variable Date_getTime : jsstring -> option Z.
Variable subtle : option (bytes -> bytes).

(** One request, at the time [now] and on what [fetch] does.  [None]
    where [generateSecMsGec] is. *)
Definition _listVoices (fetch : jsstring -> fetched) (now : Z) (st : DRMState)
  : option (thrown + list Voice) :=
  match generateSecMsGec subtle now st with
  | None => None
  | Some (Throw e) => Some (inl (Exception e))
  | Some (Ok token) =>
      let url := VOICE_LIST_URL ++ lit "&Sec-MS-GEC=" ++ token
                 ++ lit "&Sec-MS-GEC-Version=" ++ SEC_MS_GEC_VERSION in
      match fetch url with
      | Failed message =>
          Some (inl (Fetch {| fetch_message := message; fetch_response := None |}))
      | NotOk status headers =>
          Some (inl (Fetch {| fetch_message := lit "HTTP " ++ sign_digits status;
                              fetch_response := Some (status, headers) |}))
      | Data data => Some (inr (map trim_tags data))
      end
  end.

(** [listVoices]: the first request is made at [now1] on [fetch1]; a
    status 403 is handled at [now2], and the second request is made at
    [now3] on [fetch2].  The result comes with the clock skew that is
    left. *)
Definition listVoices (fetch1 : jsstring -> fetched) (now1 now2 : Z)
    (fetch2 : jsstring -> fetched) (now3 : Z) (st : DRMState)
  : option ((thrown + list Voice) * DRMState) :=
  match _listVoices fetch1 now1 st with
  | None => None
  | Some (inr data) => Some (inr data, st)
  | Some (inl (Fetch e)) =>
      match fetch_response e with
      | Some (403, headers) =>
          match handleClientResponseError Date_getTime now2 st
                  {| DRM.headers := Some (Plain headers) |} with
          | Throw e' => Some (inl (Exception e'), st)
          | Ok st' =>
              match _listVoices fetch2 now3 st' with
              | None => None
              | Some r => Some (r, st')
              end
          end
      | _ => Some (inl (Fetch e), st)
      end
  | Some (inl e) => Some (inl e, st)
  end.

End Environment.

(** A [VoicesManagerVoice]. *)
Record ManagerVoice := {
  voice : Voice;
  Language : jsstring
}.

Record VoicesManager := {
  voices : list ManagerVoice;
  calledCreate : bool
}.

(** [new IsomorphicVoicesManager()]. *)
Definition new : VoicesManager := {| voices := []; calledCreate := false |}.

(** [create], on the voices it is given or has listed. *)
Definition create (voices : list Voice) : VoicesManager :=
  {| voices := map (fun voice =>
                      {| voice := voice;
                         Language := nth 0 (split (lit "-") (Locale voice)) [] |})
                   voices;
     calledCreate := true |}.

(** [voice[key]] when it is a string; the tag is an object, which is
    equal to no value of a filter. *)
Definition field (v : ManagerVoice) (key : jsstring) : option jsstring :=
  if str_eqb key (lit "Name") then Some (Name (voice v))
  else if str_eqb key (lit "ShortName") then Some (ShortName (voice v))
  else if str_eqb key (lit "Gender") then Some (Gender (voice v))
  else if str_eqb key (lit "Locale") then Some (Locale (voice v))
  else if str_eqb key (lit "SuggestedCodec") then Some (SuggestedCodec (voice v))
  else if str_eqb key (lit "FriendlyName") then Some (FriendlyName (voice v))
  else if str_eqb key (lit "Status") then Some (Status (voice v))
  else if str_eqb key (lit "Language") then Some (Language v)
  else None.

(** [find(filter)], with the entries of [filter]. *)
Definition find (this : VoicesManager) (filter : list (jsstring * jsstring))
  : result (list ManagerVoice) :=
  if negb (calledCreate this) then
    Throw (New Error (lit "IsomorphicVoicesManager.find() called before IsomorphicVoicesManager.create()"))
  else
    Ok (List.filter
          (fun v => forallb (fun '(key, value) =>
                               match field v key with
                               | Some x => str_eqb x value
                               | None => false
                               end) filter)
          (voices this)).

End Voices.

(** * Properties *)

(** ** escape and unescape *)

Lemma flat_map_flat_map {A B C} (f : A -> list B) (g : B -> list C) l :
  flat_map g (flat_map f l) = flat_map (fun x => flat_map g (f x)) l.
Proof.
  induction l as [|x l IH]; simpl; [reflexivity|].
  rewrite flat_map_app, IH. reflexivity.
Qed.

Lemma replace_all_char c rep s :
  replace_all [c] rep s = flat_map (fun x => if c =? x then rep else [x]) s.
Proof.
  unfold replace_all. induction s as [|x s IH]; simpl; [reflexivity|].
  rewrite IH. rewrite andb_true_r. destruct (c =? x); reflexivity.
Qed.

Ltac eval_lit :=
  repeat match goal with
  | |- context [lit ?s] =>
      let v := eval vm_compute in (lit s) in change (lit s) with v
  end.

Ltac entity_cases c :=
  destruct (38 =? c) eqn:E1; [apply Z.eqb_eq in E1; subst c|];
  [|destruct (60 =? c) eqn:E2; [apply Z.eqb_eq in E2; subst c|]];
  [| |destruct (62 =? c) eqn:E3; [apply Z.eqb_eq in E3; subst c|]];
  [| | |destruct (34 =? c) eqn:E4; [apply Z.eqb_eq in E4; subst c|]];
  [| | | |destruct (39 =? c) eqn:E5; [apply Z.eqb_eq in E5; subst c|]].

Ltac use_eqb_false :=
  repeat match goal with H : (_ =? _) = false |- _ => rewrite H end.

(** [escape] writes every character on its own. *)
Lemma escape_flat_map s :
  Utils.escape s = flat_map (entity true true true true true) s.
Proof.
  unfold Utils.escape, Utils.dquote. eval_lit.
  rewrite !replace_all_char, !flat_map_flat_map.
  apply flat_map_ext. intros c. unfold entity. eval_lit.
  entity_cases c; try reflexivity.
  repeat (cbn [flat_map app andb]; use_eqb_false).
  reflexivity.
Qed.

Lemma replace_from_nomatch p0 pat rep c s :
  (p0 =? c) = false ->
  replace_from O (p0 :: pat) rep (c :: s) = c :: replace_from O (p0 :: pat) rep s.
Proof. intros E. cbn [replace_from prefixb]. rewrite E. reflexivity. Qed.

(** One replacement of [unescape] on a text written by [entity]: the
    entities are met at the characters they stand for, and nowhere
    else, as every ampersand of the text opens an entity. *)
Ltac unescape_stage s :=
  unfold replace_all, Utils.dquote;
  induction s as [|c s IH]; [reflexivity|];
  cbn [flat_map]; rewrite <- IH; clear IH;
  match goal with |- context [flat_map ?f s] => generalize (flat_map f s) end;
  intros tl; unfold entity; entity_cases c;
  repeat match goal with b : bool |- _ => destruct b end;
  cbn [andb]; use_eqb_false; cbn [andb];
  first [ reflexivity
        | cbn [app]; vm_compute (lit _); apply replace_from_nomatch; assumption ].

Lemma unescape_quot a l g s :
  replace_all (lit "&quot;") Utils.dquote (flat_map (entity true a l g true) s)
  = flat_map (entity false a l g true) s.
Proof. unescape_stage s. Qed.

Lemma unescape_apos l g s :
  replace_all (lit "&apos;") (lit "'") (flat_map (entity false true l g true) s)
  = flat_map (entity false false l g true) s.
Proof. unescape_stage s. Qed.

Lemma unescape_lt g s :
  replace_all (lit "&lt;") (lit "<") (flat_map (entity false false true g true) s)
  = flat_map (entity false false false g true) s.
Proof. unescape_stage s. Qed.

Lemma unescape_gt s :
  replace_all (lit "&gt;") (lit ">") (flat_map (entity false false false true true) s)
  = flat_map (entity false false false false true) s.
Proof. unescape_stage s. Qed.

Lemma unescape_amp s :
  replace_all (lit "&amp;") (lit "&") (flat_map (entity false false false false true) s)
  = s.
Proof.
  unfold replace_all.
  induction s as [|c s IH]; [reflexivity|].
  cbn [flat_map]. rewrite <- IH at 2. clear IH.
  generalize (flat_map (entity false false false false true) s). intros tl.
  unfold entity. destruct (38 =? c) eqn:E1; cbn [andb].
  - apply Z.eqb_eq in E1. subst c. reflexivity.
  - rewrite !andb_false_r. cbn [app]. vm_compute (lit _).
    apply replace_from_nomatch. assumption.
Qed.

(** C10: for every string [s], [unescape (escape s) = s]: the escaping
    of the outgoing SSML text and the unescaping of the incoming
    WordBoundary text are inverse in this direction. *)
Theorem unescape_escape (s : jsstring) : Utils.unescape (Utils.escape s) = s.
Proof.
  rewrite escape_flat_map. unfold Utils.unescape.
  rewrite unescape_quot, unescape_apos, unescape_lt, unescape_gt.
  apply unescape_amp.
Qed.

(** ** The text segmenter *)

(** C5: the chunks of a sanitized text do not always give the text
    back.  A text of 1366 times U+4E2D is one word of 4098 bytes; the
    cut at byte 4096 falls inside the last character, and the decoder
    writes U+FFFD for each of its parts. *)
Theorem splitTextByByteLength_cuts_character :
  let text := repeat 20013 1366 in
  sanitize text = text /\
  Utils.splitTextByByteLength text Communicate.maxSize
    = Some [repeat 20013 1365 ++ [replacement]; [replacement; replacement]] /\
  strip_ws (concat [repeat 20013 1365 ++ [replacement]; [replacement; replacement]])
    <> strip_ws text.
Proof.
  cbv zeta. split; [vm_compute; reflexivity|].
  split; [vm_compute; reflexivity|].
  intros H. apply (f_equal (fun l => l !! 1365%nat)) in H.
  vm_compute in H. discriminate H.
Qed.

(** The same on a small scale: two characters of two bytes and a limit
    of three bytes. *)
Lemma splitTextByByteLength_cuts_character_small :
  Utils.splitTextByByteLength [233; 233] 3
    = Some [[233; replacement]; [replacement]].
Proof. vm_compute. reflexivity. Qed.

(** C6: a word longer than the limit is not cut when it comes after a
    chunk that is not empty: it becomes the current chunk as it is and
    is pushed whole. *)
Theorem splitTextByByteLength_oversized_word_kept :
  let word := repeat 120 5000 in
  Utils.splitTextByByteLength (lit "a " ++ word) Communicate.maxSize
    = Some [lit "a"; word] /\
  Communicate.maxSize < Z.of_nat (length (utf8_encode word)).
Proof.
  cbv zeta. split; [vm_compute; reflexivity|].
  vm_compute. reflexivity.
Qed.

Lemma splitTextByByteLength_oversized_word_kept_small :
  Utils.splitTextByByteLength (lit "ab cdefgh") 3 = Some [lit "ab"; lit "cdefgh"].
Proof. vm_compute. reflexivity. Qed.

(** An oversized first word is cut. *)
Lemma splitTextByByteLength_oversized_first_word :
  Utils.splitTextByByteLength (lit "abcdefgh ij") 3
    = Some [lit "abc"; lit "def"; lit "gh"; lit "ij"].
Proof. vm_compute. reflexivity. Qed.

(** *** The segmenter ends *)

Lemma force_split_total wordBytes byteLength :
  0 < byteLength ->
  forall fuel i,
    0 <= i -> Z.of_nat (length wordBytes) - i <= Z.of_nat fuel ->
    is_Some (Utils.force_split fuel wordBytes i byteLength).
Proof.
  intros Hn. induction fuel as [|fuel IH]; intros i Hi Hfuel; cbn [Utils.force_split].
  - destruct (Z.ltb_spec i (Z.of_nat (length wordBytes))); [lia|eauto].
  - destruct (Z.ltb_spec i (Z.of_nat (length wordBytes))); [|eauto].
    destruct (IH (i + byteLength)) as [rest ->]; [lia|lia|eauto].
Qed.

Lemma split_loop_total byteLength words :
  0 < byteLength ->
  forall chunks currentChunk,
    is_Some (Utils.split_loop words byteLength chunks currentChunk).
Proof.
  intros Hn. induction words as [|word words IH]; intros chunks cur;
    cbn [Utils.split_loop]; [eauto|].
  destruct (_ <=? byteLength); [apply IH|].
  destruct cur; [|apply IH].
  destruct (force_split_total (utf8_encode word) byteLength Hn
              (length (utf8_encode word)) 0) as [slices ->]; [lia|lia|apply IH].
Qed.

(** With a positive limit [splitTextByByteLength] returns. *)
Lemma splitTextByByteLength_total text byteLength :
  0 < byteLength -> is_Some (Utils.splitTextByByteLength text byteLength).
Proof.
  intros Hn. unfold Utils.splitTextByByteLength.
  destruct (split_loop_total byteLength (split_ws text) Hn [] [])
    as [[chunks cur] ->].
  destruct (trim cur); eauto.
Qed.

(** The constructor returns. *)
Lemma new_total text : is_Some (Communicate.new text).
Proof.
  unfold Communicate.new.
  destruct (splitTextByByteLength_total (sanitize text) Communicate.maxSize)
    as [chunks Hc]; [reflexivity|].
  unfold sanitize in Hc. rewrite Hc. eauto.
Qed.

(** *** White space *)

Lemma strip_ws_app s1 s2 : strip_ws (s1 ++ s2) = strip_ws s1 ++ strip_ws s2.
Proof. apply List.filter_app. Qed.

Lemma strip_ws_rev s : strip_ws (rev s) = rev (strip_ws s).
Proof. apply List.filter_rev. Qed.

Lemma strip_ws_trimStart s : strip_ws (trimStart s) = strip_ws s.
Proof.
  induction s as [|c s IH]; [reflexivity|]. cbn [trimStart].
  destruct (is_space c) eqn:Hc; [|reflexivity].
  rewrite IH. cbn. rewrite Hc. reflexivity.
Qed.

Lemma strip_ws_trim s : strip_ws (trim s) = strip_ws s.
Proof.
  unfold trim, trimEnd.
  rewrite strip_ws_rev, strip_ws_trimStart, strip_ws_rev, rev_involutive.
  apply strip_ws_trimStart.
Qed.

Lemma split_ws_from_concat s : forall cur ws,
  concat (split_ws_from cur ws s) = cur ++ s.
Proof.
  induction s as [|c s IH]; intros cur ws; cbn [split_ws_from].
  - destruct ws; cbn; rewrite ?app_nil_r; reflexivity.
  - destruct (Bool.eqb (is_space c) ws).
    + rewrite IH, <- app_assoc. reflexivity.
    + cbn [concat]. rewrite IH. reflexivity.
Qed.

(** The pieces of [split(/(\s+)/)] put together are the text. *)
Lemma split_ws_concat s : concat (split_ws s) = s.
Proof. apply split_ws_from_concat. Qed.

(** *** Lengths *)

Lemma byte_length_app s1 s2 : byte_length (s1 ++ s2) = byte_length s1 + byte_length s2.
Proof.
  unfold byte_length, utf8_encode. rewrite flat_map_app, length_app. lia.
Qed.

Lemma byte_length_nonneg s : 0 <= byte_length s.
Proof. unfold byte_length. lia. Qed.

Lemma byte_length_rev s : byte_length (rev s) = byte_length s.
Proof.
  induction s as [|c s IH]; [reflexivity|].
  cbn [rev]. rewrite byte_length_app, IH.
  change (c :: s) with ([c] ++ s). rewrite byte_length_app. lia.
Qed.

Lemma byte_length_trimStart s : byte_length (trimStart s) <= byte_length s.
Proof.
  induction s as [|c s IH]; [reflexivity|]. cbn [trimStart].
  destruct (is_space c); [|reflexivity].
  change (c :: s) with ([c] ++ s). rewrite byte_length_app.
  pose proof (byte_length_nonneg [c]). lia.
Qed.

Lemma byte_length_trim s : byte_length (trim s) <= byte_length s.
Proof.
  unfold trim, trimEnd. rewrite byte_length_rev.
  etransitivity; [apply byte_length_trimStart|].
  rewrite byte_length_rev. apply byte_length_trimStart.
Qed.

(** *** When every word fits *)

Lemma split_loop_fitting byteLength words : forall chunks cur chunks' cur',
  Forall (fun w => byte_length w <= byteLength) words ->
  byte_length cur <= byteLength ->
  Forall (fun c => byte_length c <= byteLength) chunks ->
  Utils.split_loop words byteLength chunks cur = Some (chunks', cur') ->
  strip_ws (concat chunks' ++ cur') = strip_ws (concat chunks ++ cur ++ concat words) /\
  byte_length cur' <= byteLength /\
  Forall (fun c => byte_length c <= byteLength) chunks'.
Proof.
  induction words as [|word words IH]; intros chunks cur chunks' cur' Hwords Hcur Hchunks;
    cbn [Utils.split_loop].
  - intros [= <- <-]. cbn [concat]. rewrite app_nil_r. auto.
  - apply Forall_cons in Hwords as [Hword Hwords].
    fold (byte_length (cur ++ word)).
    destruct (Z.leb_spec (byte_length (cur ++ word)) byteLength) as [Hfit|Hover].
    + intros Hrun. destruct (IH _ _ _ _ Hwords Hfit Hchunks Hrun) as (H1 & H2 & H3).
      split; [|auto]. rewrite H1. cbn [concat]. rewrite <- !app_assoc. reflexivity.
    + destruct cur as [|c cur]; [cbn [app] in Hover; lia|].
      intros Hrun.
      assert (Hchunks2 : Forall (fun c => byte_length c <= byteLength)
                           (chunks ++ [trim (c :: cur)])).
      { apply Forall_app. split; [exact Hchunks|].
        constructor; [|constructor].
        pose proof (byte_length_trim (c :: cur)). lia. }
      destruct (IH _ _ _ _ Hwords Hword Hchunks2 Hrun) as (H1 & H2 & H3).
      split; [|auto]. rewrite H1. cbn [concat].
      rewrite concat_app. cbn [concat]. rewrite app_nil_r.
      rewrite !strip_ws_app, strip_ws_trim, <- !app_assoc. reflexivity.
Qed.

(** When no word of the text is longer than the limit, the chunks give
    the text back, white space apart, and none is longer than the
    limit. *)
Lemma splitTextByByteLength_fitting text byteLength :
  0 < byteLength ->
  Forall (fun w => byte_length w <= byteLength) (split_ws text) ->
  exists chunks,
    Utils.splitTextByByteLength text byteLength = Some chunks /\
    strip_ws (concat chunks) = strip_ws text /\
    Forall (fun c => byte_length c <= byteLength) chunks.
Proof.
  intros Hn Hwords. unfold Utils.splitTextByByteLength.
  destruct (split_loop_total byteLength (split_ws text) Hn [] [])
    as [[chunks cur] Hrun].
  rewrite Hrun.
  assert (H0 : byte_length [] <= byteLength) by (unfold byte_length; cbn; lia).
  destruct (split_loop_fitting _ _ _ _ _ _ Hwords H0 (List.Forall_nil _) Hrun)
    as (H1 & H2 & H3).
  cbn [concat app] in H1. rewrite split_ws_concat in H1.
  destruct (trim cur) as [|c t] eqn:Htrim.
  - exists chunks. split; [reflexivity|]. split; [|exact H3].
    rewrite <- H1, strip_ws_app, <- (strip_ws_trim cur), Htrim.
    cbn. rewrite app_nil_r. reflexivity.
  - exists (chunks ++ [c :: t]). split; [reflexivity|]. split.
    + rewrite <- H1, concat_app. cbn [concat]. rewrite app_nil_r.
      rewrite !strip_ws_app, <- Htrim, strip_ws_trim. reflexivity.
    + apply Forall_app. split; [exact H3|]. constructor; [|constructor].
      rewrite <- Htrim. pose proof (byte_length_trim cur). lia.
Qed.

(** ** The subtitle maker *)

(** C8: the four words of the example, fed to a new SubMaker and merged
    with [mergeCues(2)], give two cues: "The quick" from 0 s to 0.6 s
    with index 1 and "brown fox" from 0.6 s to 1.2 s with index 2.  The
    comparison is strict: "The quick" has two words, which is not less
    than two, so it is closed before "brown". *)
Theorem mergeCues_the_quick_brown_fox :
  match SubMaker.feed_all SubMaker.new
          [word (lit "The") 0 3000000; word (lit "quick") 3000000 3000000;
           word (lit "brown") 6000000 3000000; word (lit "fox") 9000000 3000000]
  with
  | Ok fed =>
      match SubMaker.mergeCues 2 fed with
      | Ok [c1; c2] =>
          SubMaker.index c1 = 1 /\ SubMaker.content c1 = lit "The quick" /\
          (SubMaker.start c1 == 0)%Q /\ (SubMaker.end_ c1 == 6 # 10)%Q /\
          SubMaker.index c2 = 2 /\ SubMaker.content c2 = lit "brown fox" /\
          (SubMaker.start c2 == 6 # 10)%Q /\ (SubMaker.end_ c2 == 12 # 10)%Q
      | _ => False
      end
  | Throw _ => False
  end.
Proof. vm_compute. repeat split; reflexivity. Qed.

(** The step of the loop: the next cue is taken in when the running cue
    has fewer words than [words], and only then. *)
Lemma merge_loop_strict words newCues currentCue cue rest :
  let count := Z.of_nat (length (split (lit " ") (SubMaker.content currentCue))) in
  (count < words ->
   SubMaker.merge_loop words newCues currentCue (cue :: rest)
   = SubMaker.merge_loop words newCues
       {| SubMaker.index := SubMaker.index currentCue;
          SubMaker.start := SubMaker.start currentCue;
          SubMaker.end_ := SubMaker.end_ cue;
          SubMaker.content :=
            SubMaker.content currentCue ++ lit " " ++ SubMaker.content cue |}
       rest) /\
  (words <= count ->
   SubMaker.merge_loop words newCues currentCue (cue :: rest)
   = SubMaker.merge_loop words (newCues ++ [currentCue]) cue rest).
Proof.
  intros count. cbn [SubMaker.merge_loop]. fold count.
  split; intros H.
  - rewrite (proj2 (Z.ltb_lt _ _) H). reflexivity.
  - rewrite (proj2 (Z.ltb_ge _ _) H). reflexivity.
Qed.

(** With one word for a cue nothing is merged. *)
Lemma mergeCues_one_word :
  match SubMaker.feed_all SubMaker.new
          [word (lit "The") 0 3000000; word (lit "quick") 3000000 3000000]
  with
  | Ok fed =>
      match SubMaker.mergeCues 1 fed with
      | Ok cues => map SubMaker.content cues = [lit "The"; lit "quick"]
      | Throw _ => False
      end
  | Throw _ => False
  end.
Proof. vm_compute. reflexivity. Qed.

(** ** Incoming frames *)

(** The receive loop throws a queued error when it comes to it, after
    the events queued before it. *)
Lemma receive_failure e queue audioWasReceived :
  receive (Failure e :: queue) audioWasReceived = ([], Thrown e).
Proof. reflexivity. Qed.

Lemma receive_chunks_failure messages e queue : forall audioWasReceived,
  receive (map Chunk messages ++ Failure e :: queue) audioWasReceived
  = (messages, Thrown e).
Proof.
  induction messages as [|m messages IH]; intros audio; [reflexivity|].
  cbn [map app receive]. rewrite IH. reflexivity.
Qed.

(** C3, amended: for every binary frame with the path [audio], a
    Content-Type other than audio/mpeg with a payload queues an
    UnexpectedResponse, audio/mpeg with no payload queues an
    UnexpectedResponse, and audio/mpeg with a payload queues the audio
    chunk that carries it; a Content-Type other than audio/mpeg with no
    payload queues nothing at all. *)
Theorem processBinaryData_audio (f : bytes) (c : connection)
    (headers : headers_map) (audioData : bytes) :
  isomorphicGetHeadersAndDataFromBinary f = Ok (headers, audioData) ->
  headers !! lit "Path" = Some (lit "audio") ->
  (headers !! lit "Content-Type" <> Some (lit "audio/mpeg") -> audioData <> [] ->
     exists e, class e = UnexpectedResponse /\
               processBinaryData f c = push (Failure e) c) /\
  (headers !! lit "Content-Type" = Some (lit "audio/mpeg") -> audioData = [] ->
     exists e, class e = UnexpectedResponse /\
               processBinaryData f c = push (Failure e) c) /\
  (headers !! lit "Content-Type" = Some (lit "audio/mpeg") -> audioData <> [] ->
     processBinaryData f c = push (Chunk (audio_chunk audioData)) c) /\
  (headers !! lit "Content-Type" <> Some (lit "audio/mpeg") -> audioData = [] ->
     processBinaryData f c = c).
Proof.
  intros Hf Hpath. unfold processBinaryData. rewrite Hf.
  rewrite (bool_decide_eq_true_2 _ Hpath). cbn [negb].
  repeat split.
  - intros Hct Hne. rewrite (bool_decide_eq_false_2 _ Hct). cbn [negb].
    destruct audioData as [|b bs]; [congruence|]. cbn.
    eexists. split; [|reflexivity]. reflexivity.
  - intros Hct ->. rewrite (bool_decide_eq_true_2 _ Hct). cbn.
    eexists. split; [|reflexivity]. reflexivity.
  - intros Hct Hne. rewrite (bool_decide_eq_true_2 _ Hct). cbn [negb].
    destruct audioData as [|b bs]; [congruence|]. reflexivity.
  - intros Hct ->. rewrite (bool_decide_eq_false_2 _ Hct). reflexivity.
Qed.

(** An audio frame with two bytes of payload. *)
Lemma processBinaryData_audio_witness :
  let f := binary_frame (lit "Path:audio" ++ crlf ++ lit "Content-Type:audio/mpeg")
             [x01; x02] in
  processBinaryData f new_connection
  = push (Chunk (audio_chunk [x01; x02])) new_connection.
Proof.
  cbv zeta.
  refine (proj1 (proj2 (proj2 (processBinaryData_audio _ _
    (parse_headers (lit "Path:audio" ++ crlf ++ lit "Content-Type:audio/mpeg"))
    [x01; x02] _ _))) _ _).
  - vm_compute. reflexivity.
  - vm_compute. reflexivity.
  - vm_compute. reflexivity.
  - discriminate.
Defined.

(** C3 as stated fails: a frame with the path [audio], the
    Content-Type text/plain and no payload leaves the queue as it is;
    no audio chunk is queued. *)
Lemma processBinaryData_mismatch_empty_dropped :
  let f := binary_frame (lit "Path:audio" ++ crlf ++ lit "Content-Type:text/plain") [] in
  let headers := parse_headers (lit "Path:audio" ++ crlf ++ lit "Content-Type:text/plain") in
  isomorphicGetHeadersAndDataFromBinary f = Ok (headers, []) /\
  headers !! lit "Path" = Some (lit "audio") /\
  headers !! lit "Content-Type" = Some (lit "text/plain") /\
  processBinaryData f new_connection = new_connection /\
  processBinaryData f new_connection
    <> push (Chunk (audio_chunk [])) new_connection.
Proof.
  cbv zeta. repeat split; try (vm_compute; reflexivity).
  vm_compute. discriminate.
Qed.

(** ** Metadata *)

Lemma str_eqb_eq a b : str_eqb a b = true <-> a = b.
Proof.
  revert b. induction a as [|x a IH]; intros [|y b]; cbn; try (split; congruence).
  rewrite andb_true_iff, Z.eqb_eq, IH. split; [intros [-> ->]; reflexivity|].
  intros [= -> ->]. split; reflexivity.
Qed.

Lemma is_str_true s v : is_str s v = true <-> v = Some (JStr s).
Proof.
  unfold is_str. destruct v as [[| | |s'| |]|]; try (split; congruence).
  rewrite str_eqb_eq. split; congruence.
Qed.

Lemma is_str_false s v : v <> Some (JStr s) -> is_str s v = false.
Proof.
  intros H. destruct (is_str s v) eqn:E; [|reflexivity].
  apply is_str_true in E. contradiction.
Qed.

Lemma parse_entries_session_end comp pre rest :
  Forall is_session_end pre ->
  parse_entries comp (pre ++ rest) = parse_entries comp rest.
Proof.
  induction 1 as [|e pre He _ IH]; [reflexivity|].
  cbn [app parse_entries]. unfold is_session_end in He. rewrite He.
  cbn [bind]. exact IH.
Qed.

Lemma parse_entries_word_boundary comp e post o d t :
  is_word_boundary e o d t ->
  parse_entries comp (e :: post) = Some (Ok (word (Utils.unescape t) (o + comp) d)).
Proof.
  intros [Hty (Data & text0 & HD & HO & HDu & Ht & HT)].
  cbn [parse_entries]. rewrite Hty. cbn [bind].
  replace (is_str (lit "WordBoundary") (Some (JStr (lit "WordBoundary")))) with true
    by (symmetry; apply is_str_true; reflexivity).
  unfold word_boundary. rewrite HD. cbn [bind]. rewrite HO, HDu, Ht. cbn [bind].
  rewrite HT. reflexivity.
Qed.

Lemma parse_entries_other comp e post :
  is_other_type e ->
  exists e', class e' = UnknownResponse /\
             parse_entries comp (e :: post) = Some (Throw e').
Proof.
  intros (ty & Hty & Hwb & Hse). cbn [parse_entries]. rewrite Hty. cbn [bind].
  rewrite (is_str_false _ _ Hwb), (is_str_false _ _ Hse).
  eexists. split; [|reflexivity]. reflexivity.
Qed.

Section ParseMetadata.

Variable JSON_parse : jsstring -> result json.

(** C2: on a payload whose [Metadata] is a list, [parseMetadata] skips
    the SessionEnd entries; at the first other entry it returns, for a
    WordBoundary, the event with the entry's offset plus
    [offsetCompensation], the entry's duration and its text unescaped,
    and throws UnknownResponse for any other type; with SessionEnd
    entries only, or none, it throws UnexpectedResponse. *)
Theorem parseMetadata_first_entry (st : CommunicateState) (data : bytes)
    (metadata : json) (entries : list json) :
  JSON_parse (utf8_decode data) = Ok metadata ->
  prop (Some metadata) (lit "Metadata") = Ok (Some (JArr entries)) ->
  (forall pre e post o d t,
     entries = pre ++ e :: post -> Forall is_session_end pre ->
     is_word_boundary e o d t ->
     parseMetadata JSON_parse st data
     = Some (Ok (word (Utils.unescape t) (o + offsetCompensation st) d))) /\
  (forall pre e post,
     entries = pre ++ e :: post -> Forall is_session_end pre ->
     is_other_type e ->
     exists e', class e' = UnknownResponse /\
                parseMetadata JSON_parse st data = Some (Throw e')) /\
  (Forall is_session_end entries ->
     exists e', class e' = UnexpectedResponse /\
                parseMetadata JSON_parse st data = Some (Throw e')).
Proof.
  intros Hparse Hlist.
  assert (Hpm : parseMetadata JSON_parse st data
                = parse_entries (offsetCompensation st) entries).
  { unfold parseMetadata. rewrite Hparse. cbn [bind]. rewrite Hlist. reflexivity. }
  rewrite Hpm. repeat split.
  - intros pre e post o d t -> Hpre Hwb.
    rewrite (parse_entries_session_end _ _ _ Hpre).
    apply parse_entries_word_boundary. exact Hwb.
  - intros pre e post -> Hpre Hother.
    rewrite (parse_entries_session_end _ _ _ Hpre).
    apply parse_entries_other. exact Hother.
  - intros Hall. rewrite <- (app_nil_r entries).
    rewrite (parse_entries_session_end _ _ _ Hall).
    eexists. split; [|reflexivity]. reflexivity.
Qed.

End ParseMetadata.

(** A payload with a SessionEnd entry before its word, read with a
    compensation of 7 ticks. *)
Lemma parseMetadata_first_entry_witness :
  let parse := fun _ : jsstring => Ok (one_word 100 50 (lit "a&amp;b")) in
  let st := {| partialText := []; offsetCompensation := 7;
               lastDurationOffset := 7; streamWasCalled := true |} in
  parseMetadata parse st [] = Some (Ok (word (lit "a&b") 107 50)).
Proof.
  intros parse st.
  refine (proj1 (parseMetadata_first_entry parse st [] (one_word 100 50 (lit "a&amp;b"))
                   _ _ _)
            [JObj [(lit "Type", JStr (lit "SessionEnd"))]] _ [] 100 50 (lit "a&amp;b")
            _ _ _).
  - reflexivity.
  - reflexivity.
  - reflexivity.
  - repeat constructor.
  - split; [reflexivity|]. eexists _, _. repeat split; reflexivity.
Defined.

(** ** The session *)


Lemma processBinaryData_quiet f c :
  closing (processBinaryData f c) = closing c /\
  exists items, messageQueue (processBinaryData f c) = messageQueue c ++ items /\
                word_boundaries items = [].
Proof.
  unfold processBinaryData.
  destruct (isomorphicGetHeadersAndDataFromBinary f) as [[headers audioData]|e].
  - repeat match goal with
           | |- context [if ?b then _ else _] => destruct b
           end;
      (split; [reflexivity|]);
      first [ exists []; split; [symmetry; apply app_nil_r | reflexivity]
            | eexists [_]; split; reflexivity ].
  - split; [reflexivity|]. eexists [_]. split; reflexivity.
Qed.

Section Handlers.

Variable JSON_parse : jsstring -> result json.

Lemma word_boundary_type comp metaObj m :
  word_boundary comp metaObj = Some (Ok m) -> type m = lit "WordBoundary".
Proof.
  unfold word_boundary, bind.
  repeat match goal with
         | |- context [match ?x with _ => _ end] => destruct x; try discriminate
         end.
  intros [= <-]. reflexivity.
Qed.

Lemma parse_entries_type comp entries m :
  parse_entries comp entries = Some (Ok m) -> type m = lit "WordBoundary".
Proof.
  induction entries as [|e entries IH]; cbn [parse_entries]; [discriminate|].
  unfold bind. destruct (prop (Some e) (lit "Type")) as [ty|]; [|discriminate].
  destruct (is_str (lit "WordBoundary") ty); [apply word_boundary_type|].
  destruct (is_str (lit "SessionEnd") ty); [exact IH|discriminate].
Qed.

Lemma parseMetadata_type st data m :
  parseMetadata JSON_parse st data = Some (Ok m) -> type m = lit "WordBoundary".
Proof.
  unfold parseMetadata, bind.
  repeat match goal with
         | |- context [match ?x with _ => _ end] => destruct x; try discriminate
         end.
  apply parse_entries_type.
Qed.

(** The end of the turn. *)
Lemma handleMessage_turn_end st c data isBinary st' c' :
  is_turn_end (OnMessage data isBinary) ->
  handleMessage JSON_parse st c data isBinary = Some (st', c') ->
  partialText st' = partialText st /\
  streamWasCalled st' = streamWasCalled st /\
  offsetCompensation st' = lastDurationOffset st /\
  lastDurationOffset st' = lastDurationOffset st /\
  messageQueue c' = messageQueue c.
Proof.
  unfold is_turn_end, text_path, handleMessage.
  destruct data as [[|ch s]|b|descr]; try discriminate.
  destruct isBinary as [[|]|]; try discriminate.
  all: destruct (isomorphicGetHeadersAndDataFromText (utf8_encode (ch :: s)))
         as [headers parsedData]; cbn [fst];
       intros Hte;
       assert (Hpath : headers !! lit "Path" = Some (lit "turn.end")) by congruence;
       rewrite Hpath;
       rewrite bool_decide_eq_false_2 by discriminate;
       rewrite bool_decide_eq_true_2 by reflexivity;
       intros [= <- <-]; repeat split; reflexivity.
Qed.

Lemma handleMessage_other st c data isBinary st' c' :
  ~ is_turn_end (OnMessage data isBinary) ->
  handleMessage JSON_parse st c data isBinary = Some (st', c') ->
  (st' = st /\ exists items, messageQueue c' = messageQueue c ++ items /\
                             word_boundaries items = []) \/
  (exists e, partialText st' = partialText st /\
             streamWasCalled st' = streamWasCalled st /\
             offsetCompensation st' = offsetCompensation st /\
             messageQueue c' = messageQueue c ++ [Chunk e] /\
             type e = lit "WordBoundary" /\
             word_end e = Some (lastDurationOffset st')).
Proof.
  intros Hte. unfold handleMessage.
  assert (Hpush : forall x, word_boundaries [Failure x] = []) by reflexivity.
  destruct data as [[|ch s]|b|descr].
  - destruct isBinary as [[|]|]; intros [= <- <-]; left;
      (split; [reflexivity|]); eexists; (split; [reflexivity|apply Hpush]).
  - destruct isBinary as [[|]|];
      [ intros [= <- <-]; left;
        (split; [reflexivity|]); eexists; (split; [reflexivity|apply Hpush])
      | | ].
    all: unfold is_turn_end, text_path in Hte;
      destruct (isomorphicGetHeadersAndDataFromText (utf8_encode (ch :: s)))
        as [headers parsedData]; cbn [fst] in Hte;
      case_bool_decide as Hmeta;
      [ destruct (parseMetadata JSON_parse st parsedData) as [[m|e]|] eqn:Hpm;
        [ destruct (offset m) as [o|] eqn:Ho; [|discriminate];
          destruct (duration m) as [d|] eqn:Hd; [|discriminate];
          intros [= <- <-]; right; exists m; repeat split;
          [ eapply parseMetadata_type; eassumption
          | unfold word_end; rewrite Ho, Hd; reflexivity ]
        | intros [= <- <-]; left;
          (split; [reflexivity|]); eexists; (split; [reflexivity|apply Hpush])
        | discriminate ]
      | case_bool_decide as Hend; [exfalso; apply Hte; congruence|];
        destruct (negb _ && negb _); intros [= <- <-]; left;
        (split; [reflexivity|]);
        [ eexists; (split; [reflexivity|apply Hpush])
        | exists []; split; [symmetry; apply app_nil_r|reflexivity] ] ].
  - intros H.
    assert (Hb : (st', c') = (st, processBinaryData b c)).
    { destruct isBinary as [[|]|]; cbn in H; congruence. }
    injection Hb as -> ->. left. split; [reflexivity|].
    apply processBinaryData_quiet.
  - intros H. left.
    assert (Hb : exists x, (st', c') = (st, push (Failure x) c)).
    { destruct isBinary as [[|]|]; cbn in H; eexists; injection H as <- <-; reflexivity. }
    destruct Hb as [x [= -> ->]].
    split; [reflexivity|]. eexists. split; [reflexivity|apply Hpush].
Qed.

Lemma on_event_turn_end ev st c st' c' :
  is_turn_end ev ->
  on_event JSON_parse (st, c) ev = Some (st', c') ->
  partialText st' = partialText st /\
  streamWasCalled st' = streamWasCalled st /\
  offsetCompensation st' = lastDurationOffset st /\
  lastDurationOffset st' = lastDurationOffset st /\
  messageQueue c' = messageQueue c.
Proof.
  destruct ev as [data isBinary| |]; try discriminate.
  apply handleMessage_turn_end.
Qed.

Lemma on_event_other ev st c st' c' :
  ~ is_turn_end ev ->
  on_event JSON_parse (st, c) ev = Some (st', c') ->
  (st' = st /\ exists items, messageQueue c' = messageQueue c ++ items /\
                             word_boundaries items = []) \/
  (exists e, partialText st' = partialText st /\
             streamWasCalled st' = streamWasCalled st /\
             offsetCompensation st' = offsetCompensation st /\
             messageQueue c' = messageQueue c ++ [Chunk e] /\
             type e = lit "WordBoundary" /\
             word_end e = Some (lastDurationOffset st')).
Proof.
  destruct ev as [data isBinary| |].
  - apply handleMessage_other.
  - intros _ [= <- <-]. left. split; [reflexivity|].
    exists []. split; [symmetry; apply app_nil_r|reflexivity].
  - intros _ [= <- <-]. left. split; [reflexivity|].
    exists [Close]. split; reflexivity.
Qed.

Lemma on_events_app sc evs1 evs2 :
  on_events JSON_parse sc (evs1 ++ evs2)
  = match on_events JSON_parse sc evs1 with
    | Some sc' => on_events JSON_parse sc' evs2
    | None => None
    end.
Proof.
  revert sc. induction evs1 as [|ev evs1 IH]; intros sc; cbn [app on_events].
  - reflexivity.
  - destruct (on_event JSON_parse sc ev); [apply IH|reflexivity].
Qed.


(** *** The compensation moves the events *)










(** *** A stream can be started once *)

Lemma on_event_streamWasCalled ev st c st' c' :
  on_event JSON_parse (st, c) ev = Some (st', c') ->
  streamWasCalled st' = streamWasCalled st.
Proof.
  intros H. destruct (decide (is_turn_end ev)) as [Hte|Hte].
  - apply (on_event_turn_end _ _ _ _ _ Hte H).
  - destruct (on_event_other _ _ _ _ _ Hte H) as [[-> _]|(e & _ & Hs & _)];
      [reflexivity|exact Hs].
Qed.

Lemma on_events_streamWasCalled evs : forall st c st' c',
  on_events JSON_parse (st, c) evs = Some (st', c') ->
  streamWasCalled st' = streamWasCalled st.
Proof.
  induction evs as [|ev evs IH]; intros st c st' c'; cbn [on_events].
  - intros [= <- <-]. reflexivity.
  - destruct (on_event JSON_parse (st, c) ev) as [[sa ca]|] eqn:Hstep; [|discriminate].
    intros Hrun. rewrite (IH _ _ _ _ Hrun).
    apply (on_event_streamWasCalled _ _ _ _ _ Hstep).
Qed.

Lemma _stream_streamWasCalled st env out stop st' :
  _stream JSON_parse st env = Some (out, stop, st') ->
  streamWasCalled st' = streamWasCalled st.
Proof.
  unfold _stream. destruct (opening env); [intros [= _ _ <-]; reflexivity|].
  destruct (on_events JSON_parse (st, new_connection) (events env))
    as [[sa ca]|] eqn:Hrun; [|discriminate].
  destruct (receive (messageQueue ca) false). intros [= _ _ <-].
  apply (on_events_streamWasCalled _ _ _ _ _ Hrun).
Qed.

Lemma stream_loop_streamWasCalled texts : forall st envs out stop s',
  stream_loop JSON_parse st texts envs = Some (out, stop, s') ->
  streamWasCalled (state s') = streamWasCalled st.
Proof.
  induction texts as [|text texts IH]; intros st envs out stop s'; cbn [stream_loop].
  - intros [= _ _ <-]. reflexivity.
  - destruct envs as [|env envs]; [intros [= _ _ <-]; reflexivity|].
    destruct (_stream JSON_parse (set_partialText st text) env)
      as [[[out1 stop1] st1]|] eqn:Hs; [|discriminate].
    apply _stream_streamWasCalled in Hs. cbn in Hs.
    destruct stop1.
    + destruct (stream_loop JSON_parse st1 texts envs)
        as [[[out2 stop2] s2]|] eqn:Hl; [|discriminate].
      intros [= _ _ <-]. rewrite (IH _ _ _ _ _ Hl). exact Hs.
    + intros [= _ _ <-]. exact Hs.
    + intros [= _ _ <-]. exact Hs.
Qed.

(** C9: whatever a [stream()] does and however it stops, by a return,
    by an exception or waiting for the transport, [streamWasCalled] is
    set afterwards, and any further [stream()] of the session throws the
    error "stream can only be called once." without a single event and
    without a change of the session.  ([stream] is the body of the
    generator, which starts with the first request for an event.) *)
Theorem stream_only_once (s : session) (envs : list chunk_env)
    (out : list TTSChunk) (stop : outcome) (s' : session) :
  stream JSON_parse s envs = Some (out, stop, s') ->
  streamWasCalled (state s') = true /\
  forall envs',
    stream JSON_parse s' envs'
    = Some ([], Thrown (New Error (lit "stream can only be called once.")), s').
Proof.
  intros Hrun.
  assert (Hflag : streamWasCalled (state s') = true).
  { unfold stream in Hrun. destruct (streamWasCalled (state s)) eqn:Hs.
    - injection Hrun as _ _ <-. exact Hs.
    - apply stream_loop_streamWasCalled in Hrun. exact Hrun. }
  split; [exact Hflag|].
  intros envs'. unfold stream. rewrite Hflag. reflexivity.
Qed.

End Handlers.



(** A session with one chunk, streamed to its end and started again. *)
Lemma stream_only_once_witness :
  let parse := fun _ : jsstring => Ok (one_word 100 50 (lit "Hi")) in
  let envs := [ {| opening := None;
                   events := [text_frame (lit "audio.metadata"); audio_frame;
                              text_frame (lit "turn.end"); OnClose] |} ] in
  exists s out s',
    Communicate.new (lit "Hi") = Some s /\
    stream parse s envs = Some (out, Return, s') /\
    streamWasCalled (state s') = true /\
    stream parse s' envs
    = Some ([], Thrown (New Error (lit "stream can only be called once.")), s').
Proof.
  intros parse envs.
  destruct (Communicate.new (lit "Hi")) as [s|] eqn:Hnew;
    [|vm_compute in Hnew; discriminate Hnew].
  destruct (stream parse s envs) as [[[out stop] s']|] eqn:Hrun.
  2:{ vm_compute in Hnew. injection Hnew as <-. vm_compute in Hrun. discriminate Hrun. }
  assert (Hstop : stop = Return).
  { vm_compute in Hnew. injection Hnew as <-. vm_compute in Hrun. congruence. }
  subst stop. exists s, out, s'. split; [reflexivity|]. split; [exact Hrun|].
  destruct (stream_only_once parse s envs out Return s' Hrun) as [Hflag Hagain].
  split; [exact Hflag|apply Hagain].
Defined.

(** ** The arithmetic of binary64 *)

Lemma pow2_pos e : (0 < pow2 e)%Q.
Proof. apply Qpower_0_lt. reflexivity. Qed.

Lemma pow2_add a b : (pow2 (a + b) == pow2 a * pow2 b)%Q.
Proof. apply Qpower_plus. discriminate. Qed.

Lemma pow2_Z n : 0 <= n -> (pow2 n == inject_Z (2 ^ n))%Q.
Proof. intros H. unfold pow2. rewrite Zpower_Qpower by assumption. reflexivity. Qed.

Lemma pow2_le a b : a <= b -> (pow2 a <= pow2 b)%Q.
Proof. intros H. apply Qpower_le_compat_l; [exact H|discriminate]. Qed.

Lemma pow2_lt a b : a < b -> (pow2 a < pow2 b)%Q.
Proof. intros H. apply Qpower_lt_compat_l; [exact H|reflexivity]. Qed.

Lemma pow2_lt_inv a b : (pow2 a < pow2 b)%Q -> a < b.
Proof.
  intros H. destruct (Z_lt_le_dec a b) as [|Hle]; [assumption|].
  apply pow2_le in Hle. lra.
Qed.

Lemma frac_le (x y u v : Q) :
  (0 < y)%Q -> (0 < v)%Q -> (x * v <= u * y)%Q -> (x / y <= u / v)%Q.
Proof.
  intros Hy Hv H. apply Qle_shift_div_r; [exact Hy|].
  assert (E : (u / v * y == u * y / v)%Q) by (field; lra).
  rewrite E. apply Qle_shift_div_l; [exact Hv|exact H].
Qed.

Lemma frac_lt (x y u v : Q) :
  (0 < y)%Q -> (0 < v)%Q -> (x * v < u * y)%Q -> (x / y < u / v)%Q.
Proof.
  intros Hy Hv H. apply Qlt_shift_div_r; [exact Hy|].
  assert (E : (u / v * y == u * y / v)%Q) by (field; lra).
  rewrite E. apply Qlt_shift_div_l; [exact Hv|exact H].
Qed.

Lemma pow2_sub a b : 0 <= a -> 0 <= b ->
  (pow2 (a - b) == inject_Z (2 ^ a) / inject_Z (2 ^ b))%Q.
Proof.
  intros Ha Hb. unfold Z.sub. rewrite pow2_add.
  unfold pow2 at 2. rewrite Qpower_opp. fold (pow2 b).
  rewrite !pow2_Z by assumption. reflexivity.
Qed.

Lemma binade_spec a :
  (0 < a)%Q -> (pow2 (binade a) <= a < pow2 (binade a + 1))%Q.
Proof.
  intros Ha. destruct a as [n d].
  assert (Hn : 0 < n) by (unfold Qlt in Ha; cbn in Ha; lia).
  pose proof (Z.log2_spec n Hn) as [Hn1 Hn2].
  pose proof (Z.log2_spec (Zpos d) eq_refl) as [Hd1 Hd2].
  pose proof (Z.log2_nonneg n) as Hln.
  pose proof (Z.log2_nonneg (Zpos d)) as Hld.
  set (ln := Z.log2 n) in *. set (ld := Z.log2 (Zpos d)) in *.
  assert (E : (n # d == inject_Z n / inject_Z (Zpos d))%Q) by apply Qmake_Qdiv.
  assert (Hdpos : (0 < inject_Z (Zpos d))%Q) by reflexivity.
  assert (Hpp : forall k, 0 <= k -> (0 < inject_Z (2 ^ k))%Q).
  { intros k Hk. rewrite <- pow2_Z by assumption. apply pow2_pos. }
  assert (Hup : (n # d < pow2 (ln - ld + 1))%Q).
  { replace (ln - ld + 1) with ((ln + 1) - ld) by lia.
    rewrite pow2_sub, E by lia.
    apply frac_lt; [exact Hdpos|apply Hpp; lia|].
    rewrite <- !inject_Z_mult, <- Zlt_Qlt.
    replace (Z.succ ln) with (ln + 1) in Hn2 by lia. nia. }
  assert (Hlow : (pow2 (ln - ld - 1) <= n # d)%Q).
  { replace (ln - ld - 1) with (ln - (ld + 1)) by lia.
    rewrite pow2_sub, E by lia.
    apply frac_le; [apply Hpp; lia|exact Hdpos|].
    rewrite <- !inject_Z_mult, <- Zle_Qle.
    replace (Z.succ ld) with (ld + 1) in Hd2 by lia. nia. }
  unfold binade. cbn [Qnum Qden]. fold ln ld.
  destruct (Qle_bool (pow2 (ln - ld)) (n # d)) eqn:Hc.
  - apply Qle_bool_iff in Hc. split; assumption.
  - assert (Hlt : (n # d < pow2 (ln - ld))%Q).
    { apply Qnot_le_lt. intros H. apply Qle_bool_iff in H. congruence. }
    replace (ln - ld - 1 + 1) with (ln - ld) by lia. split; assumption.
Qed.

Lemma binade_unique a e :
  (pow2 e <= a < pow2 (e + 1))%Q -> binade a = e.
Proof.
  intros [H1 H2].
  assert (Ha : (0 < a)%Q) by (pose proof (pow2_pos e); lra).
  destruct (binade_spec a Ha) as [B1 B2].
  assert (binade a < e + 1) by (apply pow2_lt_inv; lra).
  assert (e < binade a + 1) by (apply pow2_lt_inv; lra).
  lia.
Qed.

Lemma binade_comp a b : (0 < a)%Q -> (a == b)%Q -> binade a = binade b.
Proof.
  intros Ha E. symmetry. apply binade_unique. rewrite <- E. apply binade_spec, Ha.
Qed.

Lemma rne_comp r r' : (r == r')%Q -> rne r = rne r'.
Proof.
  intros E. unfold rne. rewrite <- (Qfloor_comp _ _ E).
  assert (E' : (r - inject_Z (Qfloor r) == r' - inject_Z (Qfloor r))%Q)
    by lra.
  rewrite (Qcompare_comp _ _ E' (1 # 2) (1 # 2) (Qeq_refl _)). reflexivity.
Qed.

Lemma rne_error r : (Qabs (inject_Z (rne r) - r) <= 1 # 2)%Q.
Proof.
  pose proof (Qfloor_le r) as H1. pose proof (Qlt_floor r) as H2.
  rewrite inject_Z_plus in H2. change (inject_Z 1) with 1%Q in H2.
  apply Qabs_Qle_condition. unfold rne.
  destruct (r - inject_Z (Qfloor r) ?= 1 # 2)%Q eqn:Hc.
  - apply Qeq_alt in Hc. destruct (Z.even (Qfloor r));
      rewrite ?inject_Z_plus; change (inject_Z 1) with 1%Q; split; lra.
  - apply Qlt_alt in Hc. split; lra.
  - apply Qgt_alt in Hc. rewrite inject_Z_plus. change (inject_Z 1) with 1%Q.
    split; lra.
Qed.

Lemma rne_int n : rne (inject_Z n) = n.
Proof.
  unfold rne. rewrite Qfloor_Z.
  assert (E : (inject_Z n - inject_Z n == 0)%Q) by ring.
  rewrite (Qcompare_comp _ _ E (1 # 2) (1 # 2) (Qeq_refl _)). reflexivity.
Qed.

Lemma fl_comp q q' : (q == q')%Q -> fl q = fl q'.
Proof.
  intros E. unfold fl.
  assert (E0 : Qeq_bool q 0 = Qeq_bool q' 0).
  { apply eq_true_iff_eq. rewrite !Qeq_bool_iff, E. reflexivity. }
  rewrite <- E0. destruct (Qeq_bool q 0) eqn:Hz; [reflexivity|].
  assert (Hq : ~ (q == 0)%Q) by (intros H; apply Qeq_bool_iff in H; congruence).
  assert (Ha : (0 < Qabs q)%Q).
  { pose proof (Qabs_nonneg q). destruct (Qeq_dec (Qabs q) 0) as [H0|H0]; [|lra].
    exfalso. apply Hq. revert H0. apply Qabs_case; intros; lra. }
  assert (Eb : binade (Qabs q) = binade (Qabs q')).
  { apply binade_comp; [exact Ha|rewrite E; reflexivity]. }
  rewrite <- Eb.
  set (p := Z.max (binade (Qabs q)) (-1022) - 52).
  assert (Em : rne (Qabs q / pow2 p) = rne (Qabs q' / pow2 p)).
  { apply rne_comp. rewrite E. reflexivity. }
  rewrite <- Em.
  assert (Es : Qle_bool 0 q = Qle_bool 0 q').
  { apply eq_true_iff_eq. rewrite !Qle_bool_iff, E. reflexivity. }
  rewrite <- Es. reflexivity.
Qed.

Lemma Qabs_pos_lt q : ~ (q == 0)%Q -> (0 < Qabs q)%Q.
Proof.
  intros Hq. pose proof (Qabs_nonneg q).
  destruct (Qeq_dec (Qabs q) 0) as [H0|H0]; [|lra].
  exfalso. apply Hq. revert H0. apply Qabs_case; intros; lra.
Qed.

(** The value of [fl q] when it does not overflow. *)
Lemma fl_unfold q :
  ~ (q == 0)%Q ->
  let a := Qabs q in
  let p := Z.max (binade a) (-1022) - 52 in
  let r := (inject_Z (rne (a / pow2 p)) * pow2 p)%Q in
  (r < pow2 1024)%Q ->
  exists x, fl q = Num x /\ (Qabs x == r)%Q /\ (Qabs (x - q) == Qabs (r - a))%Q.
Proof.
  intros Hq a p r Hr. unfold fl.
  destruct (Qeq_bool q 0) eqn:Hz; [apply Qeq_bool_iff in Hz; contradiction|].
  fold a p r.
  destruct (Qle_bool (pow2 1024) r) eqn:Ho; [apply Qle_bool_iff in Ho; lra|].
  assert (Hr0 : (0 <= r)%Q).
  { unfold r. apply Qmult_le_0_compat; [|apply Qlt_le_weak, pow2_pos].
    assert (Hquot : (0 <= a / pow2 p)%Q).
    { apply Qle_shift_div_l; [apply pow2_pos|]. pose proof (Qabs_nonneg q).
      unfold a. lra. }
    pose proof (rne_error (a / pow2 p)) as He. apply Qabs_Qle_condition in He.
    destruct (Z_lt_le_dec (rne (a / pow2 p)) 0) as [Hneg|Hpos].
    - exfalso. assert (rne (a / pow2 p) <= -1) by lia.
      rewrite Zle_Qle in H. change (inject_Z (-1)) with (-1)%Q in H. lra.
    - rewrite Zle_Qle in Hpos. exact Hpos. }
  destruct (Qle_bool 0 q) eqn:Hs.
  - apply Qle_bool_iff in Hs. eexists. split; [reflexivity|].
    split; [apply Qabs_pos, Hr0|]. unfold a. rewrite (Qabs_pos q Hs). reflexivity.
  - assert (Hneg : (q < 0)%Q).
    { apply Qnot_le_lt. intros H. apply Qle_bool_iff in H. congruence. }
    eexists. split; [reflexivity|]. split.
    + rewrite Qabs_opp. apply Qabs_pos, Hr0.
    + unfold a. rewrite (Qabs_neg q) by lra.
      assert (E : (- r - q == - (r - - q))%Q) by ring.
      rewrite E, Qabs_opp. reflexivity.
Qed.

(** A number of 53 bits times a power of two is a binary64 number. *)
Lemma fl_exact (m j : Z) :
  Z.abs m < 2 ^ 53 -> -1074 <= j ->
  (Qabs (inject_Z m * pow2 j) < pow2 1024)%Q ->
  exists x, fl (inject_Z m * pow2 j) = Num x /\ (x == inject_Z m * pow2 j)%Q.
Proof.
  intros Hm Hj Hbig. set (q := (inject_Z m * pow2 j)%Q) in *.
  destruct (Z.eq_dec m 0) as [->|Hm0].
  - exists 0%Q. split; [|unfold q; ring].
    unfold fl. replace (Qeq_bool q 0) with true; [reflexivity|].
    symmetry. apply Qeq_bool_iff. unfold q. ring.
  - assert (Hq : ~ (q == 0)%Q).
    { unfold q. intros H. apply Qmult_integral in H as [H|H].
      - apply Hm0. unfold Qeq in H. cbn in H. lia.
      - pose proof (pow2_pos j). lra. }
    assert (Ea : (Qabs q == inject_Z (Z.abs m) * pow2 j)%Q).
    { unfold q. rewrite Qabs_Qmult, (Qabs_pos (pow2 j))
        by apply Qlt_le_weak, pow2_pos.
      unfold Qabs, inject_Z. reflexivity. }
    pose proof (Qabs_pos_lt q Hq) as Ha.
    destruct (binade_spec _ Ha) as [B1 _].
    assert (He : binade (Qabs q) < 53 + j).
    { apply pow2_lt_inv. eapply Qle_lt_trans; [exact B1|].
      rewrite Ea, pow2_add, (pow2_Z 53) by lia.
      apply Qmult_lt_compat_r; [apply pow2_pos|]. rewrite <- Zlt_Qlt. exact Hm. }
    set (p := Z.max (binade (Qabs q)) (-1022) - 52).
    assert (Hp : p <= j) by (unfold p; lia).
    assert (Equot : (Qabs q / pow2 p == inject_Z (Z.abs m * 2 ^ (j - p)))%Q).
    { rewrite Ea, inject_Z_mult, <- pow2_Z by lia.
      replace j with ((j - p) + p) at 1 by lia. rewrite pow2_add.
      field. pose proof (pow2_pos p). lra. }
    assert (Er : (inject_Z (rne (Qabs q / pow2 p)) * pow2 p == Qabs q)%Q).
    { rewrite (rne_comp _ _ Equot), rne_int, Ea, inject_Z_mult, <- pow2_Z by lia.
      replace j with ((j - p) + p) at 2 by lia. rewrite pow2_add. ring. }
    destruct (fl_unfold q Hq) as (x & Hx & Hax & Herr).
    { fold p. rewrite Er. exact Hbig. }
    exists x. split; [exact Hx|].
    fold p in Herr. rewrite Er in Herr.
    assert (E0 : (Qabs q - Qabs q == 0)%Q) by ring.
    rewrite E0 in Herr. change (Qabs 0) with 0%Q in Herr.
    assert (Hz : (x - q == 0)%Q).
    { revert Herr. apply Qabs_case; intros; lra. }
    lra.
Qed.

Lemma fl_int n : Z.abs n < 2 ^ 53 ->
  exists x, fl (inject_Z n) = Num x /\ (x == inject_Z n)%Q.
Proof.
  intros Hn. destruct (fl_exact n 0 Hn) as (x & Hx & Ex); [lia| |].
  - change (pow2 0) with 1%Q. rewrite Qmult_1_r.
    assert (E : (Qabs (inject_Z n) == inject_Z (Z.abs n))%Q) by reflexivity.
    rewrite E, pow2_Z by lia. rewrite <- Zlt_Qlt.
    apply Z.lt_trans with (2 ^ 53); [exact Hn|reflexivity].
  - exists x. split.
    + rewrite <- Hx. apply fl_comp. change (pow2 0) with 1%Q. ring.
    + rewrite Ex. change (pow2 0) with 1%Q. ring.
Qed.

(** The error of a rounding: half a unit in the last place. *)
Lemma fl_error q k :
  (Qabs q < pow2 k)%Q -> -1021 <= k <= 1023 ->
  exists x, fl q = Num x /\ (Qabs (x - q) <= pow2 (k - 54))%Q.
Proof.
  intros Hq Hk.
  destruct (Qeq_dec q 0) as [Hz|Hz].
  - exists 0%Q. split.
    + unfold fl. replace (Qeq_bool q 0) with true; [reflexivity|].
      symmetry. apply Qeq_bool_iff, Hz.
    + rewrite Hz. change (Qabs (0 - 0)) with 0%Q. apply Qlt_le_weak, pow2_pos.
  - pose proof (Qabs_pos_lt q Hz) as Ha.
    destruct (binade_spec _ Ha) as [B1 _].
    assert (He : binade (Qabs q) < k) by (apply pow2_lt_inv; lra).
    set (p := Z.max (binade (Qabs q)) (-1022) - 52).
    assert (Hp : p <= k - 53) by (unfold p; lia).
    pose proof (rne_error (Qabs q / pow2 p)) as Hm.
    set (m := rne (Qabs q / pow2 p)) in *.
    assert (Herr : (Qabs (inject_Z m * pow2 p - Qabs q) <= pow2 (k - 54))%Q).
    { assert (E : (inject_Z m * pow2 p - Qabs q
                   == (inject_Z m - Qabs q / pow2 p) * pow2 p)%Q)
        by (field; pose proof (pow2_pos p); lra).
      rewrite E, Qabs_Qmult, (Qabs_pos (pow2 p)) by apply Qlt_le_weak, pow2_pos.
      apply Qle_trans with ((1 # 2) * pow2 p)%Q.
      - apply Qmult_le_compat_r; [exact Hm|apply Qlt_le_weak, pow2_pos].
      - apply Qle_trans with ((1 # 2) * pow2 (k - 53))%Q.
        + apply Qmult_le_l; [reflexivity|apply pow2_le, Hp].
        + replace (k - 53) with ((k - 54) + 1) by lia. rewrite pow2_add.
          change (pow2 1) with 2%Q. lra. }
    destruct (fl_unfold q Hz) as (x & Hx & _ & Hxe).
    { fold p m. apply Qabs_Qle_condition in Herr.
      assert (pow2 k <= pow2 1023)%Q by (apply pow2_le; lia).
      assert (pow2 (k - 54) <= pow2 1023)%Q by (apply pow2_le; lia).
      assert (E : (pow2 1024 == 2 * pow2 1023)%Q).
      { change 1024 with (1 + 1023). rewrite pow2_add. reflexivity. }
      rewrite E. lra. }
    exists x. split; [exact Hx|]. fold p m in Hxe. rewrite Hxe. exact Herr.
Qed.

Lemma Qtrunc_nonneg q : (0 <= q)%Q -> Qtrunc q = Qfloor q.
Proof. intros H. unfold Qtrunc. apply Qle_bool_iff in H. rewrite H. reflexivity. Qed.

(** ** The freshness token *)

(** *** Digits *)

Lemma lit_inj s s' : lit s = lit s' -> s = s'.
Proof.
  revert s'. induction s as [|a s IH]; intros [|a' s']; cbn; try discriminate.
  - reflexivity.
  - intros [= Ha Hs]. f_equal; [|apply IH, Hs].
    apply N2Z.inj in Ha.
    rewrite <- (ascii_N_embedding a), <- (ascii_N_embedding a'), Ha. reflexivity.
Qed.

Lemma digits_inj n n' : digits n = digits n' -> n = n'.
Proof.
  unfold digits. intros H. apply lit_inj in H.
  assert (Hnn : forall m, N.to_uint m <> Decimal.Nil).
  { intros [|p]; [discriminate|apply DecimalPos.Unsigned.to_uint_nonnil]. }
  apply (f_equal NilZero.uint_of_string) in H.
  rewrite !NilZero.usu in H by apply Hnn.
  injection H as H. apply DecimalN.Unsigned.to_uint_inj, H.
Qed.

Lemma string_of_uint_ascii d : ascii_text (lit (NilEmpty.string_of_uint d)).
Proof.
  induction d; cbn; constructor; try assumption; vm_compute; split; congruence.
Qed.

Lemma digits_ascii n : ascii_text (digits n).
Proof.
  unfold digits, NilZero.string_of_uint.
  destruct (N.to_uint n); try apply string_of_uint_ascii.
  constructor; [vm_compute; split; congruence|constructor].
Qed.

(** *** The encoder on ASCII text *)

Lemma byte_val_of c : 0 <= c < 256 -> byte_val (byte_of c) = c.
Proof.
  intros Hc. unfold byte_val, byte_of.
  destruct (Byte.of_N (Z.to_N c)) as [b|] eqn:Hb.
  - apply Byte.to_of_N in Hb. rewrite Hb. lia.
  - apply Byte.of_N_None_iff in Hb. lia.
Qed.

Lemma utf8_encode_ascii s : ascii_text s -> map byte_val (utf8_encode s) = s.
Proof.
  induction 1 as [|c s Hc _ IH]; [reflexivity|].
  unfold utf8_encode in *. cbn [flat_map]. rewrite map_app, IH.
  unfold encode_char, scalar, replacement.
  replace ((c <? 0) || (1114111 <? c) || (55296 <=? c) && (c <=? 57343)) with false
    by (symmetry; repeat (apply orb_false_iff; split); try lia;
        apply andb_false_iff; left; lia).
  replace (c <? 128) with true by (symmetry; lia).
  cbn [map app]. rewrite byte_val_of by lia. reflexivity.
Qed.

Lemma utf8_encode_ascii_inj s s' :
  ascii_text s -> ascii_text s' -> utf8_encode s = utf8_encode s' -> s = s'.
Proof.
  intros Hs Hs' H. apply (f_equal (map byte_val)) in H.
  rewrite !utf8_encode_ascii in H by assumption. exact H.
Qed.

(** *** The digest in hexadecimal *)

Lemma unhex2_hex2 b : unhex2 (toUpperCase (hex2 b)) = Some b.
Proof. destruct b; reflexivity. Qed.

Lemma hex_inj l l' :
  toUpperCase (flat_map hex2 l) = toUpperCase (flat_map hex2 l') -> l = l'.
Proof.
  unfold toUpperCase.
  assert (Hlen : forall b, length (toUpperCase (hex2 b)) = 2%nat)
    by (intros b; destruct b; reflexivity).
  assert (Hne : forall b r, toUpperCase (hex2 b) ++ r <> [])
    by (intros b r H; apply (f_equal length) in H;
        rewrite length_app, Hlen in H; discriminate).
  unfold toUpperCase in *.
  revert l'. induction l as [|b l IH]; intros [|b' l']; cbn [flat_map];
    rewrite ?map_app.
  - reflexivity.
  - intros H. symmetry in H. apply Hne in H. contradiction.
  - intros H. apply Hne in H. contradiction.
  - intros H. apply app_inj_1 in H as [Hb Hl]; [|rewrite !Hlen; reflexivity].
    f_equal; [|apply IH, Hl].
    pose proof (unhex2_hex2 b) as E. pose proof (unhex2_hex2 b') as E'.
    unfold toUpperCase in E, E'. rewrite Hb in E. congruence.
Qed.

Lemma hex2_upper b :
  exists c1 c2, toUpperCase (hex2 b) = [c1; c2] /\
                upper_hex c1 = true /\ upper_hex c2 = true.
Proof. destruct b; eexists _, _; (split; [reflexivity|split; reflexivity]). Qed.

Lemma toUpperCase_app s t : toUpperCase (s ++ t) = toUpperCase s ++ toUpperCase t.
Proof. apply map_app. Qed.

Lemma hex_upper l :
  length (toUpperCase (flat_map hex2 l)) = (2 * length l)%nat /\
  Forall (fun c => upper_hex c = true) (toUpperCase (flat_map hex2 l)).
Proof.
  induction l as [|b l [IH1 IH2]]; [split; [reflexivity|constructor]|].
  cbn [flat_map]. rewrite toUpperCase_app.
  destruct (hex2_upper b) as (c1 & c2 & -> & H1 & H2).
  split.
  - cbn [app length]. rewrite IH1. lia.
  - cbn [app]. repeat (constructor; [assumption|]). exact IH2.
Qed.

Lemma unhex_hex l : unhex (toUpperCase (flat_map hex2 l)) = Some l.
Proof.
  induction l as [|b l IH]; [reflexivity|].
  cbn [flat_map]. rewrite toUpperCase_app.
  destruct (hex2_upper b) as (c1 & c2 & E & _).
  pose proof (unhex2_hex2 b) as Hb. rewrite E in *. cbn [app unhex].
  rewrite Hb, IH. reflexivity.
Qed.

(** *** The arithmetic of the ticks *)

Lemma Qfloor_half n : Qfloor (inject_Z n + (1 # 2)) = n.
Proof.
  unfold Qfloor, Qplus, inject_Z. cbn.
  replace (n * 2 + 1 * 1) with (1 + n * 2) by ring.
  rewrite Z.div_add by discriminate. reflexivity.
Qed.

Lemma toFixed0_integer q n :
  (q == inject_Z n)%Q -> 0 <= n < 10 ^ 21 ->
  toFixed0 (Num q) = Some (digits (Z.to_N n)).
Proof.
  intros Hq Hn. unfold toFixed0.
  assert (Hpos : (0 <= q)%Q)
    by (rewrite Hq; change 0%Q with (inject_Z 0); rewrite <- Zle_Qle; lia).
  assert (Habs : (Qabs q == inject_Z n)%Q) by (rewrite Qabs_pos; assumption).
  destruct (Qle_bool (inject_Z (10 ^ 21)) (Qabs q)) eqn:Hbig.
  - apply Qle_bool_iff in Hbig. rewrite Habs, <- Zle_Qle in Hbig. lia.
  - apply Qle_bool_iff in Hpos. rewrite Hpos. cbn [app].
    rewrite Habs, Qfloor_half. reflexivity.
Qed.

Lemma bucket_bounds T B :
  (0 <= T)%Q -> (T < inject_Z B)%Q -> 0 <= bucket T /\ bucket T * 300 < B.
Proof.
  intros H0 H1. unfold bucket.
  assert (Hdiv : (0 <= T / inject_Z 300)%Q).
  { apply Qle_shift_div_l; [reflexivity|]. rewrite Qmult_0_l. exact H0. }
  split.
  - change 0 with (Qfloor 0). apply Qfloor_resp_le, Hdiv.
  - rewrite Zlt_Qlt, inject_Z_mult.
    eapply Qle_lt_trans; [|exact H1].
    assert (Ha : (T == T / inject_Z 300 * inject_Z 300)%Q) by (field; discriminate).
    rewrite Ha at 2.
    apply Qmult_le_compat_r; [apply Qfloor_le|discriminate].
Qed.

(** From the Windows epoch on and as long as the ticks are below 2^62,
    the three assignments to [ticks] after the sum are exact: the ticks
    are those of the start of the bucket of the sum. *)
Lemma ticks_of_bucket unixTimestamp T :
  add unixTimestamp (Num (inject_Z WIN_EPOCH)) = Num T ->
  (0 <= T)%Q -> (T < inject_Z (4 * 10 ^ 11))%Q ->
  exists q, ticks_of unixTimestamp = Num q /\
            (q == inject_Z (bucket T * 300 * 10000000))%Q.
Proof.
  intros HT H0 H1. unfold ticks_of. rewrite HT. cbn [rem_by sub opp add].
  destruct (bucket_bounds T _ H0 H1) as [Hk0 Hk1].
  assert (E1 : (T + - (T - inject_Z 300 * inject_Z (Qtrunc (T / inject_Z 300)))
                == inject_Z (bucket T * 300))%Q).
  { rewrite Qtrunc_nonneg.
    - unfold bucket. rewrite inject_Z_mult. ring.
    - apply Qle_shift_div_l; [reflexivity|]. rewrite Qmult_0_l. exact H0. }
  rewrite (fl_comp _ _ E1).
  destruct (fl_int (bucket T * 300)) as (x & -> & Ex); [lia|].
  cbn [mul].
  assert (E2 : (x * inject_Z (S_TO_NS / 100)
                == inject_Z (bucket T * 5859375) * pow2 9)%Q).
  { rewrite Ex. change (inject_Z (S_TO_NS / 100)) with (inject_Z 10000000).
    change (pow2 9) with (inject_Z 512). rewrite <- !inject_Z_mult.
    replace (bucket T * 300 * 10000000) with (bucket T * 5859375 * 512) by lia.
    reflexivity. }
  rewrite (fl_comp _ _ E2).
  destruct (fl_exact (bucket T * 5859375) 9) as (y & -> & Ey); [lia|lia| |].
  - rewrite Qabs_pos.
    + apply Qlt_trans with (pow2 53 * pow2 9)%Q.
      * apply Qmult_lt_compat_r; [apply pow2_pos|].
        rewrite pow2_Z by lia. rewrite <- Zlt_Qlt. lia.
      * rewrite <- pow2_add. apply pow2_lt. lia.
    + apply Qmult_le_0_compat; [|apply Qlt_le_weak, pow2_pos].
      change 0%Q with (inject_Z 0). rewrite <- Zle_Qle. lia.
  - exists y. split; [reflexivity|]. rewrite Ey.
    change (pow2 9) with (inject_Z 512). rewrite <- inject_Z_mult.
    replace (bucket T * 300 * 10000000) with (bucket T * 5859375 * 512) by lia.
    reflexivity.
Qed.

Lemma strToHash_bucket unixTimestamp T :
  add unixTimestamp (Num (inject_Z WIN_EPOCH)) = Num T ->
  (0 <= T)%Q -> (T < inject_Z (4 * 10 ^ 11))%Q ->
  strToHash unixTimestamp = Some (hashed (bucket T)).
Proof.
  intros HT H0 H1. unfold strToHash, hashed.
  destruct (ticks_of_bucket _ T HT H0 H1) as (q & -> & Hq).
  destruct (bucket_bounds T _ H0 H1) as [Hk0 Hk1].
  rewrite (toFixed0_integer q _ Hq) by lia. reflexivity.
Qed.

Lemma TRUSTED_CLIENT_TOKEN_ascii : ascii_text TRUSTED_CLIENT_TOKEN.
Proof. repeat constructor; vm_compute; congruence. Qed.

Lemma hashed_inj k k' : 0 <= k -> 0 <= k' -> hashed k = hashed k' -> k = k'.
Proof.
  intros Hk Hk' H. unfold hashed in H. apply app_inv_tail, digits_inj in H. lia.
Qed.

Lemma hashed_ascii k : ascii_text (hashed k).
Proof.
  apply Forall_app. split; [apply digits_ascii|apply TRUSTED_CLIENT_TOKEN_ascii].
Qed.

Section Token.

Variable digest : bytes -> bytes.

Lemma generateSecMsGec_hashed now st T :
  windows_time now st = Num T ->
  (0 <= T)%Q -> (T < inject_Z (4 * 10 ^ 11))%Q ->
  generateSecMsGec (Some digest) now st
  = Some (Ok (toUpperCase (flat_map hex2 (digest (utf8_encode (hashed (bucket T))))))).
Proof.
  intros HT H0 H1. unfold generateSecMsGec.
  rewrite (strToHash_bucket _ T HT H0 H1). reflexivity.
Qed.

(** C4: the time that is cut to a bucket is the binary64 sum of the
    adjusted Unix time and the epoch shift.  When this sum is not
    negative and below 4 * 10^11 s (the ticks are then below 2^62 and
    exact), the token is the text of upper case hexadecimal digits that
    reads as the digest of the ticks of the start of the 300 second
    bucket of the sum, in decimal, followed by the shared secret.  Two
    calls whose sums are in the same bucket give the same token; for
    two calls in different buckets the hashed texts differ, and the
    tokens are equal exactly when the digest collides on them. *)
Theorem generateSecMsGec_bucket (now1 now2 : Z) (st1 st2 : DRMState) (T1 T2 : Q) :
  windows_time now1 st1 = Num T1 -> windows_time now2 st2 = Num T2 ->
  (0 <= T1)%Q -> (T1 < inject_Z (4 * 10 ^ 11))%Q ->
  (0 <= T2)%Q -> (T2 < inject_Z (4 * 10 ^ 11))%Q ->
  let token now st := generateSecMsGec (Some digest) now st in
  let hash k := digest (utf8_encode (hashed k)) in
  (exists tok,
     token now1 st1 = Some (Ok tok) /\
     Forall (fun c => upper_hex c = true) tok /\
     unhex tok = Some (hash (bucket T1))) /\
  (bucket T1 = bucket T2 -> token now1 st1 = token now2 st2) /\
  (bucket T1 <> bucket T2 ->
   hashed (bucket T1) <> hashed (bucket T2) /\
   (token now1 st1 = token now2 st2 <-> hash (bucket T1) = hash (bucket T2))).
Proof.
  intros HT1 HT2 H1 H1' H2 H2' token hash. unfold token.
  rewrite (generateSecMsGec_hashed _ _ _ HT1 H1 H1'),
          (generateSecMsGec_hashed _ _ _ HT2 H2 H2').
  destruct (bucket_bounds T1 _ H1 H1') as [Hk1 _].
  destruct (bucket_bounds T2 _ H2 H2') as [Hk2 _].
  split; [|split].
  - eexists. split; [reflexivity|]. split; [apply hex_upper|apply unhex_hex].
  - intros ->. reflexivity.
  - intros Hne. split.
    + intros H. apply Hne, hashed_inj; assumption.
    + split.
      * intros [= H]. apply hex_inj in H. exact H.
      * unfold hash. intros ->. reflexivity.
Qed.

End Token.

Lemma sha256_abc :
  toUpperCase (flat_map hex2 (sha256 (utf8_encode (lit "abc"))))
  = lit "BA7816BF8F01CFEA414140DE5DAE2223B00361A396177A9CB410FF61F20015AD".
Proof. vm_compute. reflexivity. Qed.

(** Two times 50 s apart in one bucket, and a third one 100 s later in
    the next bucket, with SHA-256 for the digest. *)
Lemma generateSecMsGec_bucket_witness :
  let token now := generateSecMsGec (Some sha256) now initial in
  token 1700000000000
  = Some (Ok (lit "42301B335578FEFDAE2637DED1ABD614505D432559EC08032B82048483726AFF")) /\
  token 1700000000000 = token 1700000050000 /\
  token 1700000050000 <> token 1700000150000.
Proof.
  intros token.
  split; [vm_compute; reflexivity|]. split.
  - match eval vm_compute in (windows_time 1700000000000 initial,
                              windows_time 1700000050000 initial) with
    | (Num ?T1, Num ?T2) =>
        refine (proj1 (proj2 (generateSecMsGec_bucket sha256
                  1700000000000 1700000050000 initial initial T1 T2 _ _ _ _ _ _)) _)
    end; vm_compute; first [reflexivity|discriminate].
  - match eval vm_compute in (windows_time 1700000050000 initial,
                              windows_time 1700000150000 initial) with
    | (Num ?T1, Num ?T2) =>
        refine (fun H => _
                  (proj1 (proj2 (proj2 (proj2 (generateSecMsGec_bucket sha256
                     1700000050000 1700000150000 initial initial T1 T2 _ _ _ _ _ _)) _))
                     H))
    end; vm_compute; first [reflexivity|discriminate].
Defined.

(** A clock that is 2^-21 s behind, read 2^-21 s before the boundary of
    a bucket and 100 s earlier.  Both adjusted times are in the bucket
    that starts at 133444731000000000 ticks; the sum of the first one
    with the epoch shift is rounded onto the boundary, and its token is
    the one of the next bucket. *)
Lemma generateSecMsGec_bucket_boundary :
  let st := skewed (- (1 # 2097152)) in
  let t1 := (inject_Z 1699999800 - (1 # 2097152))%Q in
  let t2 := (inject_Z 1699999700 - (1 # 2097152))%Q in
  (exists x, getUnixTimestamp 1699999800000 st = Num x /\ (x == t1)%Q) /\
  (exists x, getUnixTimestamp 1699999700000 st = Num x /\ (x == t2)%Q) /\
  bucket (t1 + inject_Z WIN_EPOCH) = 44481577 /\
  bucket (t2 + inject_Z WIN_EPOCH) = 44481577 /\
  strToHash (getUnixTimestamp 1699999800000 st)
  = Some (lit "133444734000000000" ++ TRUSTED_CLIENT_TOKEN) /\
  strToHash (getUnixTimestamp 1699999700000 st)
  = Some (lit "133444731000000000" ++ TRUSTED_CLIENT_TOKEN) /\
  generateSecMsGec (Some sha256) 1699999800000 st
  = Some (Ok (lit "42301B335578FEFDAE2637DED1ABD614505D432559EC08032B82048483726AFF")) /\
  generateSecMsGec (Some sha256) 1699999700000 st
  = Some (Ok (lit "5799CA10428681E64D7C6DAB8960712006ADFC75E04A71544B976110B3F0443E")).
Proof.
  cbv zeta.
  split; [eexists; split; vm_compute; reflexivity|].
  split; [eexists; split; vm_compute; reflexivity|].
  split; [vm_compute; reflexivity|].
  split; [vm_compute; reflexivity|].
  split; [vm_compute; reflexivity|].
  split; [vm_compute; reflexivity|].
  split; vm_compute; reflexivity.
Qed.

(** ** Clock skew *)

Section Skew.

Variable Date_getTime : jsstring -> option Z.

(** C7: without a date header, or with an empty one, the call throws
    SkewAdjustmentError; with a date the platform reads, the skew is
    adjusted by the server time minus the adjusted local time.  With a
    date the platform does not read nothing is thrown: the time of the
    invalid date is NaN, not [null], and the skew becomes NaN. *)
Theorem handleClientResponseError_cases (now : Z) (st : DRMState) (r : response) :
  (falsy (serverDate r) = true ->
     exists e, class e = SkewAdjustmentError /\
               handleClientResponseError Date_getTime now st r = Throw e) /\
  (forall date ms,
     serverDate r = Some date -> date <> [] -> Date_getTime date = Some ms ->
     handleClientResponseError Date_getTime now st r
     = Ok (adjClockSkewSeconds st
             (sub (div_by 1000 (Num (inject_Z ms))) (getUnixTimestamp now st)))) /\
  (forall date,
     serverDate r = Some date -> date <> [] -> Date_getTime date = None ->
     handleClientResponseError Date_getTime now st r
     = Ok {| clockSkewSeconds := NaN |}).
Proof.
  unfold handleClientResponseError, parseRfc2616Date. repeat split.
  - intros Hf. destruct (serverDate r) as [[|c s]|]; try discriminate;
      (eexists; split; [|reflexivity]; reflexivity).
  - intros date ms -> Hne ->. destruct date; [contradiction|]. reflexivity.
  - intros date -> Hne ->. destruct date; [contradiction|].
    unfold adjClockSkewSeconds. cbn.
    destruct (clockSkewSeconds st); reflexivity.
Qed.

End Skew.

(** A 403 response whose date header reads "not a date". *)
Lemma handleClientResponseError_cases_witness :
  let r := {| headers := Some (Plain {[ lit "date" := lit "not a date" ]}) |} in
  handleClientResponseError epoch_only 1700000000000 initial r
  = Ok {| clockSkewSeconds := NaN |}.
Proof.
  cbv zeta.
  refine (proj2 (proj2 (handleClientResponseError_cases epoch_only _ _ _))
            (lit "not a date") _ _ _).
  - vm_compute. reflexivity.
  - discriminate.
  - vm_compute. reflexivity.
Defined.

(** * Further properties *)

(** ** Sanitizing the text *)

Lemma replace_all_char_nil c s :
  replace_all [c] [] s = List.filter (fun x => negb (c =? x)) s.
Proof.
  rewrite replace_all_char. induction s as [|x s IH]; [reflexivity|].
  cbn [flat_map List.filter]. rewrite IH. destruct (c =? x); reflexivity.
Qed.

Lemma filter_filter {A} (f g : A -> bool) l :
  List.filter f (List.filter g l) = List.filter (fun x => g x && f x) l.
Proof.
  induction l as [|x l IH]; [reflexivity|]. cbn [List.filter].
  destruct (g x); cbn [List.filter andb]; rewrite IH; reflexivity.
Qed.

Lemma remove_chars_filter chars : forall s,
  fold_left (fun clean_str char => replace_all [char] [] clean_str) chars s
  = List.filter (fun x => negb (existsb (Z.eqb x) chars)) s.
Proof.
  induction chars as [|c chars IH]; intros s; cbn [fold_left existsb].
  - induction s as [|x s IHs]; [reflexivity|]. cbn. f_equal. exact IHs.
  - rewrite IH, replace_all_char_nil, filter_filter.
    apply List.filter_ext. intros x. rewrite (Z.eqb_sym x c).
    destruct (c =? x); reflexivity.
Qed.

Lemma remove_filter str :
  Utils.removeIncompatibleCharacters str
  = List.filter (fun c => negb (removed c)) str.
Proof. apply remove_chars_filter. Qed.

(** X1: [removeIncompatibleCharacters] takes out every occurrence of the
    23 characters of its list and nothing else: what is left are the
    other characters of the text, in their order. *)
Theorem removeIncompatibleCharacters_filter (str : jsstring) :
  let clean_str := Utils.removeIncompatibleCharacters str in
  clean_str = List.filter (fun c => negb (removed c)) str /\
  Forall (fun c => removed c = false) clean_str /\
  Utils.removeIncompatibleCharacters clean_str = clean_str.
Proof.
  cbv zeta. rewrite !remove_filter. split; [reflexivity|]. split.
  - induction str as [|c str IH]; [constructor|]. cbn [List.filter].
    destruct (removed c) eqn:Hc; cbn [negb]; [exact IH|]. constructor; assumption.
  - induction str as [|c str IH]; [reflexivity|]. cbn [List.filter].
    destruct (removed c) eqn:Hc; cbn [negb]; [exact IH|].
    cbn [List.filter]. rewrite Hc. cbn [negb]. f_equal. exact IH.
Qed.

Lemma entity_no_markup c :
  Forall (fun x => markup x = false) (entity true true true true true c).
Proof.
  unfold entity. entity_cases c; cbn [andb]; use_eqb_false; cbn [andb];
    try (vm_compute (lit _); repeat constructor).
  repeat constructor. unfold markup.
  rewrite (Z.eqb_sym c 60), (Z.eqb_sym c 62), (Z.eqb_sym c 34), (Z.eqb_sym c 39).
  use_eqb_false. reflexivity.
Qed.

Lemma escape_app s t : Utils.escape (s ++ t) = Utils.escape s ++ Utils.escape t.
Proof. rewrite !escape_flat_map. apply flat_map_app. Qed.

Lemma escape_markup s : Forall (fun c => markup c = false) (Utils.escape s).
Proof.
  rewrite escape_flat_map. induction s as [|c s IH]; [constructor|].
  cbn [flat_map]. apply Forall_app. split; [apply entity_no_markup|exact IH].
Qed.

(** [escape] works character by character, so that the escaping of
    a text is the escaping of its parts put together, and what it
    writes holds none of the characters [<], [>], the quotation mark
    and the apostrophe. *)
Theorem escape_char_by_char (s t : jsstring) :
  Utils.escape (s ++ t) = Utils.escape s ++ Utils.escape t /\
  Forall (fun c => markup c = false) (Utils.escape s).
Proof. split; [apply escape_app|apply escape_markup]. Qed.

Lemma sanitize_eq text :
  sanitize text
  = flat_map (fun c => if c =? 39 then lit "&apos;" else [c])
      (Utils.removeIncompatibleCharacters text).
Proof.
  unfold sanitize. rewrite escape_flat_map, remove_filter.
  induction text as [|c text IH]; [reflexivity|].
  cbn [List.filter]. destruct (removed c) eqn:Hc; cbn [negb]; [exact IH|].
  cbn [flat_map]. rewrite IH. f_equal.
  unfold removed in Hc. vm_compute (Utils.chars_to_remove) in Hc.
  cbn [existsb] in Hc. repeat (apply orb_false_elim in Hc as [? Hc]).
  unfold entity. rewrite !andb_true_r.
  rewrite (Z.eqb_sym 38 c), (Z.eqb_sym 60 c), (Z.eqb_sym 62 c), (Z.eqb_sym 34 c),
    (Z.eqb_sym 39 c).
  use_eqb_false. reflexivity.
Qed.

Lemma sanitize_app s t : sanitize (s ++ t) = sanitize s ++ sanitize t.
Proof.
  unfold sanitize. rewrite !remove_filter, List.filter_app. apply escape_app.
Qed.

(** X2: of the five entities of [escape] the constructor of
    [Communicate] only ever writes [&apos;]: the other four characters
    have been removed before.  The text it hands to the segmenter is the
    text without the removed characters, with each apostrophe written
    as [&apos;]. *)
Theorem sanitize_only_apos (text : jsstring) :
  sanitize text
  = flat_map (fun c => if c =? 39 then lit "&apos;" else [c])
      (Utils.removeIncompatibleCharacters text).
Proof. apply sanitize_eq. Qed.

(** *** The segmenter: when it ends *)

Lemma force_split_diverges wordBytes byteLength :
  byteLength <= 0 -> (0 < length wordBytes)%nat ->
  forall fuel i, i <= 0 -> Utils.force_split fuel wordBytes i byteLength = None.
Proof.
  intros Hn Hlen. induction fuel as [|fuel IH]; intros i Hi; cbn [Utils.force_split];
    destruct (Z.ltb_spec i (Z.of_nat (length wordBytes))); try lia; [reflexivity|].
  rewrite IH by lia. reflexivity.
Qed.

Lemma encode_char_length c : (0 < length (encode_char c))%nat.
Proof.
  unfold encode_char.
  repeat match goal with |- context [if ?b then _ else _] => destruct b end;
    cbn; lia.
Qed.

Lemma byte_length_pos c s : 0 < byte_length (c :: s).
Proof.
  unfold byte_length, utf8_encode. cbn [flat_map]. rewrite length_app.
  pose proof (encode_char_length c). lia.
Qed.

Lemma split_loop_diverges byteLength words :
  byteLength <= 0 -> Exists (fun w => w <> []) words ->
  forall chunks, Utils.split_loop words byteLength chunks [] = None.
Proof.
  intros Hn. induction words as [|word words IH]; intros Hex chunks.
  - inversion Hex.
  - cbn [Utils.split_loop app]. destruct word as [|c word].
    + assert (Hrest : Exists (fun w : jsstring => w <> []) words).
      { inversion Hex; [congruence|assumption]. }
      destruct (_ <=? byteLength); [apply IH, Hrest|].
      cbn. apply IH, Hrest.
    + fold (byte_length (c :: word)).
      pose proof (byte_length_pos c word).
      destruct (Z.leb_spec (byte_length (c :: word)) byteLength); [lia|].
      rewrite force_split_diverges; [reflexivity|lia| |lia].
      unfold byte_length in H. lia.
Qed.

Lemma concat_nonempty {A} (l : list (list A)) :
  concat l <> [] -> Exists (fun w => w <> []) l.
Proof.
  induction l as [|w l IH]; cbn [concat]; [congruence|].
  destruct w; [intros H; right; apply IH, H|left; congruence].
Qed.

(** X3: [splitTextByByteLength] ends on every text when the limit is
    positive.  With a limit that is not positive it ends on the empty
    text only: on every other text the loop that cuts a word does not
    end. *)
Theorem splitTextByByteLength_ends_iff (text : jsstring) (byteLength : Z) :
  is_Some (Utils.splitTextByByteLength text byteLength)
  <-> 0 < byteLength \/ text = [].
Proof.
  split.
  - intros Hsome. destruct (Z.ltb_spec 0 byteLength); [left; assumption|].
    right. destruct text as [|c text]; [reflexivity|]. exfalso.
    unfold Utils.splitTextByByteLength in Hsome.
    rewrite split_loop_diverges in Hsome.
    + destruct Hsome; discriminate.
    + lia.
    + apply concat_nonempty. rewrite split_ws_concat. congruence.
  - intros [Hn| ->]; [apply splitTextByByteLength_total, Hn|].
    unfold Utils.splitTextByByteLength.
    cbn [split_ws split_ws_from Utils.split_loop app utf8_encode flat_map length
         Utils.force_split].
    change (Z.of_nat 0) with 0. rewrite Z.ltb_irrefl.
    destruct (0 <=? byteLength); cbn; eauto.
Qed.

(** ** UTF-8 *)

Lemma all_pow_spec k f : forall lo,
  all_pow k f lo = true -> forall c, lo <= c < lo + 2 ^ Z.of_nat k -> f c = true.
Proof.
  induction k as [|k IH]; intros lo H c Hc.
  - cbn in *. assert (c = lo) by lia. subst. exact H.
  - cbn [all_pow] in H. apply andb_true_iff in H as [H1 H2].
    rewrite Nat2Z.inj_succ, Z.pow_succ_r in Hc by lia.
    destruct (Z.lt_ge_cases c (lo + 2 ^ Z.of_nat k)).
    + apply (IH lo H1). lia.
    + apply (IH _ H2). lia.
Qed.

Lemma scalar_range c :
  scalar c = c <-> 0 <= c <= 1114111 /\ ~ (55296 <= c <= 57343).
Proof.
  unfold scalar, replacement.
  destruct (Z.ltb_spec c 0), (Z.ltb_spec 1114111 c), (Z.leb_spec 55296 c),
    (Z.leb_spec c 57343); cbn; lia.
Qed.

Lemma lor_shiftl_6 a x : 0 <= x < 64 -> Z.lor (Z.shiftl a 6) x = a * 64 + x.
Proof.
  intros Hx. rewrite Z.shiftl_mul_pow2 by lia. change (2 ^ 6) with 64.
  rewrite <- Z.add_lor_land.
  assert (Z.land (a * 64) x = 0) as ->; [|lia].
  apply Z.bits_inj'. intros n Hn. rewrite Z.land_spec, Z.bits_0.
  destruct (Z.lt_ge_cases n 6).
  - change 64 with (2 ^ 6). rewrite Z.mul_pow2_bits_low by lia. reflexivity.
  - destruct (Z.eq_dec x 0) as [->|]; [rewrite Z.bits_0; apply andb_false_r|].
    rewrite (Z.bits_above_log2 x n); [apply andb_false_r|lia|].
    assert (Z.log2 x < 6); [|lia]. apply Z.log2_lt_pow2; lia.
Qed.

Lemma byte_lor (k : nat) (hi : Z) :
  all_pow k (fun x => (byte_val (byte_of (Z.lor hi x)) =? hi + x)
                      && (Z.land (hi + x) (2 ^ Z.of_nat k - 1) =? x)) 0 = true ->
  forall x, 0 <= x < 2 ^ Z.of_nat k ->
    byte_val (byte_of (Z.lor hi x)) = hi + x /\
    Z.land (hi + x) (2 ^ Z.of_nat k - 1) = x.
Proof.
  intros H x Hx. pose proof (all_pow_spec _ _ _ H x ltac:(lia)) as Hc.
  cbv beta in Hc. apply andb_true_iff in Hc as [H1 H2]. lia.
Qed.

Lemma cont_byte x : 0 <= x < 64 ->
  byte_val (byte_of (Z.lor 128 x)) = 128 + x /\ Z.land (128 + x) 63 = x.
Proof. apply (byte_lor 6 128). vm_compute. reflexivity. Qed.

Lemma lead2_byte x : 0 <= x < 32 ->
  byte_val (byte_of (Z.lor 192 x)) = 192 + x /\ Z.land (192 + x) 31 = x.
Proof. apply (byte_lor 5 192). vm_compute. reflexivity. Qed.

Lemma lead3_byte x : 0 <= x < 16 ->
  byte_val (byte_of (Z.lor 224 x)) = 224 + x /\ Z.land (224 + x) 15 = x.
Proof. apply (byte_lor 4 224). vm_compute. reflexivity. Qed.

Lemma lead4_byte x : 0 <= x < 8 ->
  byte_val (byte_of (Z.lor 240 x)) = 240 + x /\ Z.land (240 + x) 7 = x.
Proof. apply (byte_lor 3 240). vm_compute. reflexivity. Qed.

(** A continuation byte that the open sequence allows. *)
Lemma decode_byte_cont st x :
  needed st <> 0 -> 0 <= x < 64 -> lower st <= 128 + x <= upper st ->
  decode_byte st (128 + x)
  = if seen st + 1 =? needed st
    then ([code_point st * 64 + x], decoder_init)
    else ([], {| needed := needed st; seen := seen st + 1;
                 code_point := code_point st * 64 + x;
                 lower := 128; upper := 191 |}).
Proof.
  intros Hn Hx Hr. unfold decode_byte.
  destruct (Z.eqb_spec (needed st) 0); [contradiction|].
  destruct (Z.ltb_spec (128 + x) (lower st)); [lia|].
  destruct (Z.ltb_spec (upper st) (128 + x)); [lia|]. cbn [orb].
  rewrite (proj2 (cont_byte x Hx)), lor_shiftl_6 by lia. reflexivity.
Qed.

Lemma shiftr_6 c : Z.shiftr c 6 = c / 64.
Proof. apply Z.shiftr_div_pow2. lia. Qed.
Lemma shiftr_12 c : Z.shiftr c 12 = c / 4096.
Proof. apply Z.shiftr_div_pow2. lia. Qed.
Lemma shiftr_18 c : Z.shiftr c 18 = c / 262144.
Proof. apply Z.shiftr_div_pow2. lia. Qed.
Lemma land_63 c : Z.land c 63 = c mod 64.
Proof. apply (Z.land_ones c 6). lia. Qed.

Lemma decode_encode_char c :
  scalar c = c -> decode_run decoder_init (encode_char c) = ([c], decoder_init).
Proof.
  intros Hs. unfold encode_char. rewrite Hs. apply scalar_range in Hs.
  rewrite !shiftr_6, !shiftr_12, !shiftr_18, !land_63.
  destruct (Z.ltb_spec c 128); [|destruct (Z.ltb_spec c 2048);
                                  [|destruct (Z.ltb_spec c 65536)]].
  - cbn [decode_run]. rewrite byte_val_of by lia.
    unfold decode_byte, decode_lead. cbn [needed decoder_init].
    destruct (Z.leb_spec c 127); [reflexivity|lia].
  - set (h := c / 64). set (l := c mod 64).
    assert (Hh : 2 <= h < 32) by (subst h; Z.div_mod_to_equations; lia).
    assert (Hl : 0 <= l < 64) by (subst l; Z.div_mod_to_equations; lia).
    assert (Hc : c = h * 64 + l) by (subst h l; Z.div_mod_to_equations; lia).
    cbn [decode_run].
    rewrite (proj1 (lead2_byte h ltac:(lia))), (proj1 (cont_byte l Hl)).
    unfold decode_byte at 1. cbn [needed decoder_init Z.eqb]. unfold decode_lead.
    destruct (Z.leb_spec (192 + h) 127); [lia|].
    destruct (Z.leb_spec 194 (192 + h)); [|lia].
    destruct (Z.leb_spec (192 + h) 223); [|lia]. cbn [andb].
    rewrite (proj2 (lead2_byte h ltac:(lia))).
    rewrite decode_byte_cont by (cbn; lia). cbn. rewrite <- Hc. reflexivity.
  - set (a := c / 4096). set (m := c / 64 mod 64). set (l := c mod 64).
    assert (Ha : 0 <= a < 16) by (subst a; Z.div_mod_to_equations; lia).
    assert (Hm : 0 <= m < 64) by (subst m; Z.div_mod_to_equations; lia).
    assert (Hl : 0 <= l < 64) by (subst l; Z.div_mod_to_equations; lia).
    assert (Hc : c = (a * 64 + m) * 64 + l) by (subst a m l; Z.div_mod_to_equations; lia).
    cbn [decode_run].
    rewrite (proj1 (lead3_byte a Ha)), (proj1 (cont_byte m Hm)), (proj1 (cont_byte l Hl)).
    unfold decode_byte at 1. cbn [needed decoder_init Z.eqb]. unfold decode_lead.
    destruct (Z.leb_spec (224 + a) 127); [lia|].
    destruct (Z.leb_spec 194 (224 + a)); [|lia].
    destruct (Z.leb_spec (224 + a) 223); [lia|].
    destruct (Z.leb_spec 224 (224 + a)); [|lia].
    destruct (Z.leb_spec (224 + a) 239); [|lia]. cbn [andb].
    rewrite (proj2 (lead3_byte a Ha)).
    rewrite decode_byte_cont; [| cbn; lia | lia |].
    2:{ cbn [lower upper].
        destruct (Z.eqb_spec (224 + a) 224), (Z.eqb_spec (224 + a) 237); lia. }
    cbn [needed seen code_point]. change (0 + 1 =? 2) with false. cbv iota.
    rewrite decode_byte_cont by (cbn; lia).
    cbn. rewrite <- Hc. reflexivity.
  - set (a := c / 262144). set (n := c / 4096 mod 64).
    set (m := c / 64 mod 64). set (l := c mod 64).
    assert (Ha : 0 <= a < 8) by (subst a; Z.div_mod_to_equations; lia).
    assert (Ha' : a <= 4) by (subst a; Z.div_mod_to_equations; lia).
    assert (Hn : 0 <= n < 64) by (subst n; Z.div_mod_to_equations; lia).
    assert (Hm : 0 <= m < 64) by (subst m; Z.div_mod_to_equations; lia).
    assert (Hl : 0 <= l < 64) by (subst l; Z.div_mod_to_equations; lia).
    assert (Hc : c = ((a * 64 + n) * 64 + m) * 64 + l)
      by (subst a n m l; Z.div_mod_to_equations; lia).
    cbn [decode_run].
    rewrite (proj1 (lead4_byte a Ha)), (proj1 (cont_byte n Hn)),
      (proj1 (cont_byte m Hm)), (proj1 (cont_byte l Hl)).
    unfold decode_byte at 1. cbn [needed decoder_init Z.eqb]. unfold decode_lead.
    destruct (Z.leb_spec (240 + a) 127); [lia|].
    destruct (Z.leb_spec 194 (240 + a)); [|lia].
    destruct (Z.leb_spec (240 + a) 223); [lia|].
    destruct (Z.leb_spec 224 (240 + a)); [|lia].
    destruct (Z.leb_spec (240 + a) 239); [lia|].
    destruct (Z.leb_spec 240 (240 + a)); [|lia].
    destruct (Z.leb_spec (240 + a) 244); [|lia]. cbn [andb].
    rewrite (proj2 (lead4_byte a Ha)).
    rewrite decode_byte_cont; [| cbn; lia | lia |].
    2:{ cbn [lower upper].
        destruct (Z.eqb_spec (240 + a) 240), (Z.eqb_spec (240 + a) 244); lia. }
    cbn [needed seen code_point]. change (0 + 1 =? 3) with false. cbv iota.
    rewrite decode_byte_cont by (cbn; lia).
    cbn [needed seen code_point]. change (0 + 1 + 1 =? 3) with false. cbv iota.
    rewrite decode_byte_cont by (cbn; lia).
    cbn. rewrite <- Hc. reflexivity.
Qed.

Lemma decode_from_run bs1 : forall st bs2,
  decode_from st (bs1 ++ bs2)
  = fst (decode_run st bs1) ++ decode_from (snd (decode_run st bs1)) bs2.
Proof.
  induction bs1 as [|b bs1 IH]; intros st bs2; [reflexivity|].
  cbn [app decode_from decode_run].
  destruct (decode_byte st (byte_val b)) as [out st'].
  rewrite IH. destruct (decode_run st' bs1) as [out' st''].
  cbn [fst snd]. rewrite app_assoc. reflexivity.
Qed.

Lemma decode_from_encode s :
  well_formed s -> decode_from decoder_init (utf8_encode s) = s.
Proof.
  induction 1 as [|c s Hc _ IH]; [reflexivity|].
  unfold utf8_encode. cbn [flat_map]. rewrite decode_from_run.
  rewrite (decode_encode_char c Hc). cbn [fst snd app]. f_equal. exact IH.
Qed.

(** The first byte of a character tells how long it is. *)
Lemma encode_char_head c :
  scalar c = c ->
  exists b bs, encode_char c = b :: bs /\
    ((c < 128 /\ byte_val b = c /\ bs = []) \/
     (128 <= c /\ 194 <= byte_val b <= 223 /\ length bs = 1%nat) \/
     (128 <= c /\ 224 <= byte_val b <= 239 /\ length bs = 2%nat) \/
     (128 <= c /\ 240 <= byte_val b <= 244 /\ length bs = 3%nat)).
Proof.
  intros Hs. unfold encode_char. rewrite Hs. apply scalar_range in Hs.
  rewrite !shiftr_6, !shiftr_12, !shiftr_18.
  destruct (Z.ltb_spec c 128); [|destruct (Z.ltb_spec c 2048);
                                  [|destruct (Z.ltb_spec c 65536)]];
    eexists _, _; (split; [reflexivity|]).
  - left. rewrite byte_val_of by lia. auto.
  - right; left. rewrite (proj1 (lead2_byte (c / 64) ltac:(Z.div_mod_to_equations; lia))).
    split; [lia|]. split; [Z.div_mod_to_equations; lia|reflexivity].
  - right; right; left.
    rewrite (proj1 (lead3_byte (c / 4096) ltac:(Z.div_mod_to_equations; lia))).
    split; [lia|]. split; [Z.div_mod_to_equations; lia|reflexivity].
  - right; right; right.
    rewrite (proj1 (lead4_byte (c / 262144) ltac:(Z.div_mod_to_equations; lia))).
    split; [lia|]. split; [Z.div_mod_to_equations; lia|reflexivity].
Qed.

Lemma encode_char_bom : encode_char 65279 = [xef; xbb; xbf].
Proof. vm_compute. reflexivity. Qed.

(** Only U+FEFF is written as a byte order mark. *)
Lemma encode_char_not_bom c rest bs :
  scalar c = c -> c <> 65279 -> encode_char c ++ rest <> xef :: xbb :: xbf :: bs.
Proof.
  intros Hs Hc Heq.
  pose proof (decode_encode_char c Hs) as Hdec.
  destruct (encode_char_head c Hs) as (b & tl & Hb & Hcases).
  rewrite Hb in Heq, Hdec. cbn [app] in Heq.
  injection Heq as -> Htl.
  change (byte_val xef) with 239 in Hcases.
  destruct Hcases as [(? & ? & ?)|[(? & ? & ?)|[(? & ? & Hlen)|(? & ? & ?)]]]; try lia.
  destruct tl as [|b1 [|b2 [|]]]; try discriminate Hlen.
  cbn [app] in Htl. injection Htl as -> -> _.
  rewrite <- encode_char_bom, decode_encode_char in Hdec by reflexivity.
  congruence.
Qed.

Lemma utf8_decode_encode (s : jsstring) :
  well_formed s -> utf8_decode (utf8_encode s) = strip_bom s.
Proof.
  intros Hs. destruct s as [|c s]; [reflexivity|].
  pose proof (Forall_inv Hs) as Hc. pose proof (Forall_inv_tail Hs) as Hs'.
  destruct (Z.eq_dec c 65279) as [->|Hne].
  - unfold utf8_encode. cbn [flat_map]. rewrite encode_char_bom.
    cbn [app utf8_decode strip_bom]. apply decode_from_encode, Hs'.
  - assert (strip_bom (c :: s) = c :: s) as ->.
    { unfold strip_bom. destruct c as [|p|p]; try reflexivity.
      repeat (destruct p as [p|p|]; try reflexivity). congruence. }
    rewrite <- (decode_from_encode (c :: s) Hs) at 2.
    unfold utf8_decode.
    destruct (utf8_encode (c :: s)) as [|b0 [|b1 [|b2 bs]]] eqn:He; try reflexivity;
      (destruct b0; try reflexivity); (destruct b1; try reflexivity).
    destruct b2; try reflexivity.
    exfalso. exact (encode_char_not_bom c _ _ Hc Hne He).
Qed.

(** X4: a string comes back from the bytes [IsomorphicBuffer.from] makes
    of it: [toString] of these bytes is the string, for every string of
    scalar values, except that a byte order mark (U+FEFF) at its very
    beginning is lost. *)
Theorem IsomorphicBuffer_toString_from (s : jsstring) :
  well_formed s ->
  exists buffer,
    IsomorphicBuffer.from (IsomorphicBuffer.Str s) = Ok buffer /\
    IsomorphicBuffer.toString buffer = strip_bom s /\
    (head s <> Some 65279 -> IsomorphicBuffer.toString buffer = s).
Proof.
  intros Hs. exists (utf8_encode s). split; [reflexivity|].
  unfold IsomorphicBuffer.toString. rewrite utf8_decode_encode by assumption.
  split; [reflexivity|]. intros Hb.
  destruct s as [|c s]; [reflexivity|]. cbn [head] in Hb.
  destruct (Z.eq_dec c 65279) as [->|Hne]; [congruence|].
  unfold strip_bom. destruct c as [|p|p]; try reflexivity.
  repeat (destruct p as [p|p|]; try reflexivity). congruence.
Qed.


(** A string with characters of one, two, three and four bytes. *)
Lemma IsomorphicBuffer_toString_from_witness :
  exists buffer,
    IsomorphicBuffer.from (IsomorphicBuffer.Str [97; 233; 8364; 128512]) = Ok buffer /\
    IsomorphicBuffer.toString buffer = [97; 233; 8364; 128512] /\
    (head [97; 233; 8364; 128512] <> Some 65279 ->
     IsomorphicBuffer.toString buffer = [97; 233; 8364; 128512]).
Proof.
  apply (IsomorphicBuffer_toString_from [97; 233; 8364; 128512]).
  repeat constructor.
Defined.

(** ** Frames *)

Lemma slice_take_drop {A} (a : list A) i j :
  0 <= i <= j ->
  slice a i j = take (Z.to_nat (j - i)) (drop (Z.to_nat i) a).
Proof.
  intros Hij. unfold slice, slice_index.
  destruct (Z.ltb_spec i 0); [lia|]. destruct (Z.ltb_spec j 0); [lia|].
  set (len := Z.of_nat (length a)).
  destruct (Z.le_gt_cases i len) as [Hi|Hi].
  - rewrite (Z.min_l i len) by lia.
    destruct (Z.le_gt_cases j len) as [Hj|Hj].
    + rewrite (Z.min_l j len) by lia. reflexivity.
    + rewrite (Z.min_r j len) by lia.
      rewrite !take_ge; [reflexivity| |]; rewrite length_drop; lia.
  - rewrite (Z.min_r i len), (Z.min_r j len) by lia.
    rewrite Z.sub_diag. cbn [Z.to_nat take].
    rewrite (drop_ge a (Z.to_nat i)) by lia. rewrite take_nil. reflexivity.
Qed.

Lemma slice_to_end {A} (a : list A) i :
  0 <= i -> slice a i (Z.of_nat (length a)) = drop (Z.to_nat i) a.
Proof.
  intros Hi. destruct (Z.le_gt_cases i (Z.of_nat (length a))).
  - rewrite slice_take_drop by lia. apply take_ge. rewrite length_drop. lia.
  - unfold slice, slice_index. destruct (Z.ltb_spec i 0); [lia|].
    destruct (Z.ltb_spec (Z.of_nat (length a)) 0); [lia|].
    rewrite (Z.min_r i), Z.min_id, Z.sub_diag by lia. cbn [Z.to_nat take].
    rewrite (drop_ge a (Z.to_nat i)) by lia. reflexivity.
Qed.

Lemma utf8_encode_app s t : utf8_encode (s ++ t) = utf8_encode s ++ utf8_encode t.
Proof. apply flat_map_app. Qed.

Lemma utf8_encode_drop k s :
  drop (length (utf8_encode (take k s))) (utf8_encode s) = utf8_encode (drop k s).
Proof.
  rewrite <- (take_drop k s) at 2. rewrite utf8_encode_app.
  apply drop_app_length.
Qed.

Lemma strip_bom_id s : head s <> Some 65279 -> strip_bom s = s.
Proof.
  destruct s as [|c s]; [reflexivity|]. cbn [head]. intros Hc.
  destruct (Z.eq_dec c 65279) as [->|Hne]; [congruence|].
  unfold strip_bom. destruct c as [|p|p]; try reflexivity.
  repeat (destruct p as [p|p|]; try reflexivity). congruence.
Qed.

Lemma substring_to_bmp n : forall s,
  Forall (fun c => c < 65536) (take n s) -> substring_to n s = take n s.
Proof.
  induction n as [|n IH]; intros [|c s] H; try reflexivity.
  cbn [take] in H. apply Forall_cons in H as [Hc H].
  cbn [substring_to take]. destruct (Z.ltb_spec 65535 c); [lia|].
  rewrite IH by assumption. reflexivity.
Qed.

(** X5: a text message is cut at its first blank line, between two
    characters: the headers are read from the text before it and the
    data are the UTF-8 bytes of the text after it.  Without a blank line
    there are no headers, and the data are the bytes of the message
    after as many bytes as the first three UTF-16 code units of the
    text take in UTF-8: the message without its first three characters
    when these are below U+10000. *)
Theorem isomorphicGetHeadersAndDataFromText_encode (s : jsstring) :
  well_formed s -> head s <> Some 65279 ->
  isomorphicGetHeadersAndDataFromText (utf8_encode s)
  = match indexOf (crlf ++ crlf) s with
    | Some i => (parse_headers (take i s), utf8_encode (drop (i + 4) s))
    | None =>
        (empty, drop (length (utf8_encode (substring_to 3 s))) (utf8_encode s))
    end /\
  (Forall (fun c => c < 65536) (take 3 s) ->
   drop (length (utf8_encode (substring_to 3 s))) (utf8_encode s)
   = utf8_encode (drop 3 s)).
Proof.
  intros Hs Hb. split.
  - unfold isomorphicGetHeadersAndDataFromText.
    rewrite utf8_decode_encode, strip_bom_id by assumption.
    rewrite slice_to_end by lia. rewrite Nat2Z.id.
    destruct (indexOf (crlf ++ crlf) s); [rewrite utf8_encode_drop|]; reflexivity.
  - intros H3. rewrite substring_to_bmp by assumption. apply utf8_encode_drop.
Qed.

Lemma lor_shiftl_8 a x : 0 <= x < 256 -> Z.lor (Z.shiftl a 8) x = 256 * a + x.
Proof.
  intros Hx. rewrite Z.shiftl_mul_pow2 by lia. change (2 ^ 8) with 256.
  rewrite (Z.mul_comm 256 a). rewrite <- Z.add_lor_land.
  assert (Z.land (a * 256) x = 0) as ->; [|lia].
  apply Z.bits_inj'. intros n Hn. rewrite Z.land_spec, Z.bits_0.
  destruct (Z.lt_ge_cases n 8).
  - change 256 with (2 ^ 8). rewrite Z.mul_pow2_bits_low by lia. reflexivity.
  - destruct (Z.eq_dec x 0) as [->|]; [rewrite Z.bits_0; apply andb_false_r|].
    rewrite (Z.bits_above_log2 x n); [apply andb_false_r|lia|].
    assert (Z.log2 x < 8); [|lia]. apply Z.log2_lt_pow2; lia.
Qed.

Lemma byte_val_range b : 0 <= byte_val b < 256.
Proof.
  unfold byte_val. pose proof (Byte.to_N_bounded b). lia.
Qed.

(** The header length is read from the first two bytes, the high byte
    first. *)
Lemma headerLength_declared b0 b1 :
  Z.lor (Z.shiftl (byte_val b0) 8) (byte_val b1) = declared_length b0 b1.
Proof. apply lor_shiftl_8, byte_val_range. Qed.

Lemma parse_headers_nil : parse_headers [] = empty.
Proof. reflexivity. Qed.

Lemma byte_length_0 s : byte_length s = 0 -> s = [].
Proof.
  destruct s as [|c s]; [reflexivity|].
  pose proof (byte_length_pos c s). lia.
Qed.

Lemma binary_frame_parsed (header : jsstring) (payload : bytes) :
  well_formed header -> head header <> Some 65279 ->
  byte_length header < 65536 ->
  isomorphicGetHeadersAndDataFromBinary (binary_frame header payload)
  = Ok (parse_headers header, payload).
Proof.
  intros Hw Hb Hlen. unfold binary_frame, isomorphicGetHeadersAndDataFromBinary.
  fold (byte_length header). set (n := byte_length header) in *.
  assert (Hn : 0 <= n) by apply byte_length_nonneg.
  rewrite headerLength_declared. unfold declared_length.
  rewrite Z.shiftr_div_pow2 by lia. change (2 ^ 8) with 256.
  replace (Z.land n 255) with (n mod 256) by (symmetry; apply (Z.land_ones n 8); lia).
  rewrite !byte_val_of by (Z.div_mod_to_equations; lia).
  assert (256 * (n / 256) + n mod 256 = n) as -> by (Z.div_mod_to_equations; lia).
  set (h := utf8_encode header).
  assert (Hh : Z.of_nat (length h) = n) by reflexivity.
  cbn [length]. rewrite length_app.
  rewrite slice_take_drop by lia.
  replace (Z.of_nat (S (S (length h + length payload))))
    with (Z.of_nat (length (byte_of (n / 256) :: byte_of (n mod 256) :: h ++ payload)))
    by (cbn [length]; rewrite length_app; reflexivity).
  rewrite slice_to_end by lia.
  replace (Z.to_nat (n + 2)) with (S (S (length h))) by lia.
  replace (Z.to_nat (n + 2 - 2)) with (length h) by lia.
  change (Z.to_nat 2) with 2%nat. cbn [drop].
  rewrite drop_0, take_app_length, drop_app_length.
  f_equal. f_equal.
  destruct (Z.ltb_spec 0 n).
  - match goal with |- context [?a <=? ?b] => destruct (Z.leb_spec a b) as [|Hlt] end.
    2:{ cbn [length] in Hlt. rewrite length_app in Hlt. lia. }
    cbn [andb]. subst h. rewrite utf8_decode_encode, strip_bom_id by assumption.
    reflexivity.
  - cbn [andb]. rewrite (byte_length_0 header) by lia. reflexivity.
Qed.

(** X6: a binary frame is read back as it was written: for a header
    block of less than 65536 bytes the parser returns the headers of the
    block and the payload, byte for byte. *)
Theorem isomorphicGetHeadersAndDataFromBinary_frame
    (header : jsstring) (payload : bytes) :
  well_formed header -> head header <> Some 65279 ->
  byte_length header < 65536 ->
  isomorphicGetHeadersAndDataFromBinary (binary_frame header payload)
  = Ok (parse_headers header, payload).
Proof. apply binary_frame_parsed. Qed.

(** X7: a binary frame without a usable header block brings no audio.
    With fewer than two bytes the parser throws; with a header length
    of zero, or one that goes beyond the end of the frame, it returns no
    headers (and what follows the two bytes, or nothing, as data).  In
    each case the connection fails with UnexpectedResponse. *)
Theorem processBinaryData_no_header_block (f : bytes) (c : connection) :
  ((length f < 2)%nat ->
     exists e, class e = Error /\
               isomorphicGetHeadersAndDataFromBinary f = Throw e) /\
  (forall b0 b1 rest, f = b0 :: b1 :: rest ->
     (declared_length b0 b1 = 0 ->
        isomorphicGetHeadersAndDataFromBinary f = Ok (empty, rest)) /\
     (Z.of_nat (length rest) < declared_length b0 b1 ->
        isomorphicGetHeadersAndDataFromBinary f = Ok (empty, []))) /\
  ((length f < 2)%nat \/
   (exists b0 b1 rest, f = b0 :: b1 :: rest /\
      (declared_length b0 b1 = 0 \/ Z.of_nat (length rest) < declared_length b0 b1)) ->
   exists e, class e = UnexpectedResponse /\
             processBinaryData f c = push (Failure e) c).
Proof.
  assert (Hparse : forall b0 b1 rest,
    (declared_length b0 b1 = 0 ->
       isomorphicGetHeadersAndDataFromBinary (b0 :: b1 :: rest) = Ok (empty, rest)) /\
    (Z.of_nat (length rest) < declared_length b0 b1 ->
       isomorphicGetHeadersAndDataFromBinary (b0 :: b1 :: rest) = Ok (empty, []))).
  { intros b0 b1 rest. unfold isomorphicGetHeadersAndDataFromBinary.
    rewrite headerLength_declared. set (n := declared_length b0 b1).
    rewrite slice_to_end by (subst n; unfold declared_length;
      pose proof (byte_val_range b0); pose proof (byte_val_range b1); lia).
    split; intros Hn.
    - rewrite Hn. cbn. reflexivity.
    - destruct (Z.leb_spec (n + 2) (Z.of_nat (length (b0 :: b1 :: rest)))) as [Hle|_];
        [cbn [length] in Hle; lia|].
      rewrite andb_false_r. rewrite drop_ge by (cbn [length]; lia). reflexivity. }
  split; [|split].
  - intros Hlen. destruct f as [|b0 [|b1 rest]]; cbn [length] in Hlen; try lia;
      eexists; (split; [|reflexivity]); reflexivity.
  - intros b0 b1 rest ->. apply Hparse.
  - intros [Hlen|(b0 & b1 & rest & -> & Hn)].
    + destruct f as [|b0 [|b1 rest]]; cbn [length] in Hlen; try lia;
        eexists; (split; [|reflexivity]); reflexivity.
    + unfold processBinaryData.
      destruct (Hparse b0 b1 rest) as [H0 Hbig].
      destruct Hn as [Hn|Hn]; [rewrite (H0 Hn)|rewrite (Hbig Hn)];
        eexists; (split; [|reflexivity]); reflexivity.
Qed.

(** *** Header lines *)

Lemma split_from_char c cur s :
  split_from O cur [c] s
  = match s with
    | [] => [cur]
    | x :: s' => if c =? x then cur :: split_from O [] [c] s'
                 else split_from O (cur ++ [x]) [c] s'
    end.
Proof.
  destruct s as [|x s']; [reflexivity|]. cbn [split_from prefixb length Nat.pred].
  rewrite andb_true_r. reflexivity.
Qed.

Lemma split_char_no c s : forall cur,
  Forall (fun x => x <> c) s -> split_from O cur [c] s = [cur ++ s].
Proof.
  induction s as [|x s IH]; intros cur Hs; rewrite split_from_char.
  - rewrite app_nil_r. reflexivity.
  - apply Forall_cons in Hs as [Hx Hs].
    destruct (Z.eqb_spec c x); [congruence|].
    rewrite IH by assumption. rewrite <- app_assoc. reflexivity.
Qed.

Lemma split_char_cons c s rest : forall cur,
  Forall (fun x => x <> c) s ->
  split_from O cur [c] (s ++ c :: rest) = (cur ++ s) :: split_from O [] [c] rest.
Proof.
  induction s as [|x s IH]; intros cur Hs; rewrite split_from_char; cbn [app].
  - rewrite Z.eqb_refl, app_nil_r. reflexivity.
  - apply Forall_cons in Hs as [Hx Hs].
    destruct (Z.eqb_spec c x); [congruence|].
    rewrite IH by assumption. rewrite <- app_assoc. reflexivity.
Qed.

(** X8: a header line is cut at its colons and only the first two
    pieces are kept: the value of a header ends at the second colon of
    its line.  A line without a colon, or with nothing before or after
    its first colon, adds no header, and neither does a line whose key
    is [__proto__]. *)
Theorem add_header_colons (headers : headers_map) (key value rest : jsstring) :
  Forall (fun x => x <> colon) key -> Forall (fun x => x <> colon) value ->
  key <> [] -> value <> [] -> key <> lit "__proto__" ->
  add_header headers (key ++ [colon] ++ value) = <[key := trim value]> headers /\
  add_header headers (key ++ [colon] ++ value ++ [colon] ++ rest)
    = <[key := trim value]> headers /\
  add_header headers key = headers /\
  add_header headers (key ++ [colon]) = headers /\
  add_header headers ([colon] ++ value) = headers /\
  add_header headers (lit "__proto__" ++ [colon] ++ value) = headers.
Proof.
  intros Hk Hv Hk0 Hv0 Hproto. unfold add_header, split, colon in *.
  assert (Hkey : str_eqb key (lit "__proto__") = false).
  { apply not_true_is_false. intros H. apply str_eqb_eq in H. contradiction. }
  change (lit ":") with [58]. cbn [app].
  refine (conj _ (conj _ (conj _ (conj _ (conj _ _))))).
  - rewrite split_char_cons by assumption. rewrite split_char_no by assumption.
    destruct key; [congruence|]. destruct value; [congruence|].
    cbn [app take]. rewrite Hkey. reflexivity.
  - rewrite split_char_cons by assumption.
    rewrite split_char_cons by assumption.
    destruct key; [congruence|]. destruct value; [congruence|].
    cbn [app take]. rewrite Hkey. reflexivity.
  - rewrite split_char_no by assumption. destruct key; reflexivity.
  - rewrite split_char_cons by assumption. destruct key; reflexivity.
  - rewrite (split_char_cons 58 [] value) by constructor. reflexivity.
  - change (lit "__proto__" ++ 58 :: value) with (lit "__proto__" ++ 58 :: value).
    rewrite (split_char_cons 58 (lit "__proto__") value [])
      by (repeat constructor; discriminate).
    rewrite split_char_no by assumption.
    destruct value; [congruence|]. reflexivity.
Qed.


(** A [turn.end] message with a body, and a message of three
    characters of two code units each, U+1F600: the three code units
    take the first seven of its twelve bytes. *)
Lemma isomorphicGetHeadersAndDataFromText_encode_witness :
  isomorphicGetHeadersAndDataFromText
    (utf8_encode (lit "Path:turn.end" ++ crlf ++ crlf ++ lit "{}"))
  = (parse_headers (lit "Path:turn.end"), utf8_encode (lit "{}")) /\
  isomorphicGetHeadersAndDataFromText (utf8_encode [128512; 128512; 128512])
  = (empty, [x80; xf0; x9f; x98; x80]).
Proof.
  split.
  - refine (eq_trans (proj1 (isomorphicGetHeadersAndDataFromText_encode
                        (lit "Path:turn.end" ++ crlf ++ crlf ++ lit "{}") _ _)) _).
    + repeat constructor.
    + discriminate.
    + reflexivity.
  - refine (eq_trans (proj1 (isomorphicGetHeadersAndDataFromText_encode
                        [128512; 128512; 128512] _ _)) _).
    + repeat constructor.
    + discriminate.
    + reflexivity.
Defined.

(** An audio frame with the euro sign in a header. *)
Lemma isomorphicGetHeadersAndDataFromBinary_frame_witness :
  isomorphicGetHeadersAndDataFromBinary
    (binary_frame (lit "Path:audio" ++ crlf ++ lit "X-Price:" ++ [8364]) [x01; x02])
  = Ok (parse_headers (lit "Path:audio" ++ crlf ++ lit "X-Price:" ++ [8364]),
        [x01; x02]).
Proof.
  apply isomorphicGetHeadersAndDataFromBinary_frame.
  - repeat constructor.
  - discriminate.
  - reflexivity.
Defined.

(** The time stamp of a header is cut at its first colon. *)
Lemma add_header_colons_witness :
  add_header empty (lit "X-Timestamp:12:30:00Z")
  = <[lit "X-Timestamp" := lit "12"]> empty.
Proof.
  refine (proj1 (proj2 (add_header_colons empty (lit "X-Timestamp") (lit "12")
                          (lit "30:00Z") _ _ _ _ _))).
  - repeat constructor; discriminate.
  - repeat constructor; discriminate.
  - discriminate.
  - discriminate.
  - discriminate.
Defined.

(** ** The segmenter on ASCII text *)

Lemma ascii_well_formed s : ascii_text s -> well_formed s.
Proof.
  unfold ascii_text, well_formed. intros H. eapply Forall_impl; [exact H|].
  intros c Hc. cbv beta in Hc. apply scalar_range. lia.
Qed.

Lemma ascii_no_bom s : ascii_text s -> head s <> Some 65279.
Proof.
  destruct s as [|c s]; [discriminate|]. intros Hs [= ->].
  apply Forall_inv in Hs. lia.
Qed.

Lemma utf8_decode_encode_ascii s : ascii_text s -> utf8_decode (utf8_encode s) = s.
Proof.
  intros Hs. rewrite utf8_decode_encode by apply ascii_well_formed, Hs.
  apply strip_bom_id, ascii_no_bom, Hs.
Qed.

Lemma utf8_encode_ascii_bytes s : ascii_text s -> utf8_encode s = map byte_of s.
Proof.
  induction 1 as [|c s Hc _ IH]; [reflexivity|].
  unfold utf8_encode in *. cbn [flat_map map]. rewrite IH.
  unfold encode_char. rewrite (proj2 (scalar_range c)) by lia.
  destruct (Z.ltb_spec c 128); [reflexivity|lia].
Qed.

Lemma byte_length_ascii s : ascii_text s -> byte_length s = Z.of_nat (length s).
Proof.
  intros Hs. unfold byte_length. rewrite utf8_encode_ascii_bytes by assumption.
  rewrite length_map. reflexivity.
Qed.

Lemma ascii_text_take n s : ascii_text s -> ascii_text (take n s).
Proof. apply Forall_take. Qed.

Lemma ascii_text_drop n s : ascii_text s -> ascii_text (drop n s).
Proof. apply Forall_drop. Qed.

(** A slice of the bytes of an ASCII text is the text of a slice. *)
Lemma utf8_decode_slice_ascii w i j :
  ascii_text w -> 0 <= i <= j ->
  utf8_decode (slice (utf8_encode w) i j)
  = take (Z.to_nat (j - i)) (drop (Z.to_nat i) w).
Proof.
  intros Hw Hij. rewrite slice_take_drop by assumption.
  rewrite utf8_encode_ascii_bytes by assumption.
  rewrite skipn_map, firstn_map.
  rewrite <- utf8_encode_ascii_bytes by apply ascii_text_take, ascii_text_drop, Hw.
  apply utf8_decode_encode_ascii, ascii_text_take, ascii_text_drop, Hw.
Qed.

Lemma force_split_ascii w byteLength :
  ascii_text w -> 0 < byteLength ->
  forall fuel i slices, 0 <= i ->
    Utils.force_split fuel (utf8_encode w) i byteLength = Some slices ->
    concat slices = drop (Z.to_nat i) w /\
    Forall (fun c => byte_length c <= byteLength) slices.
Proof.
  intros Hw Hn. induction fuel as [|fuel IH]; intros i slices Hi;
    cbn [Utils.force_split]; fold (byte_length w);
    rewrite (byte_length_ascii w Hw);
    destruct (Z.ltb_spec i (Z.of_nat (length w))); try (intros [=]; fail).
  - intros [= <-]. rewrite drop_ge by lia. split; [reflexivity|constructor].
  - destruct (Utils.force_split fuel (utf8_encode w) (i + byteLength) byteLength)
      as [rest|] eqn:Hrest; [|discriminate].
    intros [= <-]. destruct (IH (i + byteLength) rest ltac:(lia) Hrest) as [Hcat Hsz].
    rewrite utf8_decode_slice_ascii by (try assumption; lia).
    cbn [concat]. rewrite Hcat. split.
    + replace (Z.to_nat (i + byteLength)) with (Z.to_nat i + Z.to_nat (i + byteLength - i))%nat by lia.
      rewrite <- drop_drop. apply take_drop.
    + constructor; [|exact Hsz].
      rewrite byte_length_ascii by apply ascii_text_take, ascii_text_drop, Hw.
      rewrite length_take. lia.
  - intros [= <-]. rewrite drop_ge by lia. split; [reflexivity|constructor].
Qed.

Lemma split_loop_ascii byteLength words :
  0 < byteLength ->
  forall chunks cur chunks' cur',
  Forall ascii_text words ->
  Utils.split_loop words byteLength chunks cur = Some (chunks', cur') ->
  strip_ws (concat chunks' ++ cur') = strip_ws (concat chunks ++ cur ++ concat words).
Proof.
  intros Hn. induction words as [|word words IH]; intros chunks cur chunks' cur' Hwords;
    cbn [Utils.split_loop].
  - intros [= <- <-]. cbn [concat]. rewrite app_nil_r. reflexivity.
  - apply Forall_cons in Hwords as [Hword Hwords].
    destruct (_ <=? byteLength).
    + intros Hrun. rewrite (IH _ _ _ _ Hwords Hrun). cbn [concat].
      rewrite <- !app_assoc. reflexivity.
    + destruct cur as [|c cur].
      * destruct (Utils.force_split _ _ 0 byteLength) as [slices|] eqn:Hfs;
          [|discriminate].
        intros Hrun. rewrite (IH _ _ _ _ Hwords Hrun).
        destruct (force_split_ascii word byteLength Hword Hn _ 0 _ ltac:(lia) Hfs)
          as [Hcat _].
        cbn [concat app]. rewrite concat_app, Hcat. cbn [Z.to_nat drop].
        rewrite <- !app_assoc. reflexivity.
      * intros Hrun. rewrite (IH _ _ _ _ Hwords Hrun). cbn [concat].
        rewrite concat_app. cbn [concat]. rewrite app_nil_r.
        rewrite !strip_ws_app, strip_ws_trim, <- !app_assoc. reflexivity.
Qed.

Lemma Forall_concat_inv {A} (P : A -> Prop) (l : list (list A)) :
  Forall P (concat l) -> Forall (Forall P) l.
Proof.
  induction l as [|x l IH]; cbn [concat]; intros H; [constructor|].
  apply Forall_app in H as [H1 H2]. constructor; auto.
Qed.

(** X9: an ASCII text is never damaged: for every positive limit the
    chunks give the text back, white space apart, an oversized word
    included. *)
Theorem splitTextByByteLength_ascii (text : jsstring) (byteLength : Z) :
  ascii_text text -> 0 < byteLength ->
  exists chunks,
    Utils.splitTextByByteLength text byteLength = Some chunks /\
    strip_ws (concat chunks) = strip_ws text.
Proof.
  intros Ht Hn. unfold Utils.splitTextByByteLength.
  destruct (split_loop_total byteLength (split_ws text) Hn [] [])
    as [[chunks cur] Hrun].
  rewrite Hrun.
  assert (Hwords : Forall ascii_text (split_ws text)).
  { apply Forall_concat_inv. rewrite split_ws_concat. exact Ht. }
  pose proof (split_loop_ascii _ _ Hn _ _ _ _ Hwords Hrun) as H1.
  cbn [concat app] in H1. rewrite split_ws_concat in H1.
  destruct (trim cur) as [|c t] eqn:Htrim.
  - exists chunks. split; [reflexivity|].
    rewrite <- H1, strip_ws_app, <- (strip_ws_trim cur), Htrim.
    cbn. rewrite app_nil_r. reflexivity.
  - exists (chunks ++ [c :: t]). split; [reflexivity|].
    rewrite <- H1, concat_app. cbn [concat]. rewrite app_nil_r.
    rewrite !strip_ws_app, <- Htrim, strip_ws_trim. reflexivity.
Qed.

(** ** The segmenter: white space and forced cuts *)

Lemma split_ws_from_run b run : forall cur rest,
  Forall (fun c => is_space c = b) run ->
  split_ws_from cur b (run ++ rest) = split_ws_from (cur ++ run) b rest.
Proof.
  induction run as [|c run IH]; intros cur rest Hrun; cbn [app].
  - rewrite app_nil_r. reflexivity.
  - apply Forall_cons in Hrun as [Hc Hrun]. cbn [split_ws_from].
    rewrite Hc, Bool.eqb_reflx, IH by assumption.
    rewrite <- app_assoc. reflexivity.
Qed.

Lemma split_ws_from_switch b cur c rest :
  is_space c = negb b ->
  split_ws_from cur b (c :: rest) = cur :: split_ws_from [c] (negb b) rest.
Proof.
  intros Hc. cbn [split_ws_from]. rewrite Hc. destruct b; reflexivity.
Qed.

(** A word alone is the only piece of its text. *)
Lemma split_ws_word w :
  Forall (fun c => is_space c = false) w -> split_ws w = [w].
Proof.
  intros Hw. unfold split_ws. rewrite <- (app_nil_r w) at 1.
  rewrite split_ws_from_run by assumption. reflexivity.
Qed.

(** White space before a word: an empty piece, the white space, the
    word. *)
Lemma split_ws_space_word ws w :
  ws <> [] -> Forall (fun c => is_space c = true) ws ->
  w <> [] -> Forall (fun c => is_space c = false) w ->
  split_ws (ws ++ w) = [[]; ws; w].
Proof.
  intros Hws0 Hws Hw0 Hw. unfold split_ws.
  destruct ws as [|c ws]; [congruence|]. destruct w as [|d w]; [congruence|].
  apply Forall_cons in Hws as [Hc Hws]. apply Forall_cons in Hw as [Hd Hw].
  cbn [app]. rewrite (split_ws_from_switch false) by exact Hc. cbn [negb].
  rewrite split_ws_from_run by assumption.
  rewrite (split_ws_from_switch true) by exact Hd. cbn [negb].
  rewrite <- (app_nil_r w) at 1. rewrite split_ws_from_run by assumption.
  reflexivity.
Qed.

Lemma trimStart_spaces ws :
  Forall (fun c => is_space c = true) ws -> trimStart ws = [].
Proof.
  induction 1 as [|c ws Hc _ IH]; [reflexivity|]. cbn [trimStart]. rewrite Hc. exact IH.
Qed.

Lemma trim_spaces ws : Forall (fun c => is_space c = true) ws -> trim ws = [].
Proof.
  intros Hws. unfold trim, trimEnd. rewrite (trimStart_spaces ws) by assumption.
  reflexivity.
Qed.

Lemma trimStart_word w :
  Forall (fun c => is_space c = false) w -> trimStart w = w.
Proof.
  destruct 1 as [|c w Hc _]; [reflexivity|]. cbn [trimStart]. rewrite Hc. reflexivity.
Qed.

Lemma trim_word w : Forall (fun c => is_space c = false) w -> trim w = w.
Proof.
  intros Hw. unfold trim, trimEnd. rewrite (trimStart_word w) by assumption.
  rewrite trimStart_word by (apply Forall_rev, Hw). apply rev_involutive.
Qed.

(** X10: white space before a word that fills the limit gives an empty
    chunk.  The white space alone is the current chunk when the word
    does not fit after it, and it is pushed trimmed: the first chunk is
    the empty string. *)
Theorem splitTextByByteLength_empty_chunk (ws w : jsstring) (byteLength : Z) :
  ws <> [] -> Forall (fun c => is_space c = true) ws ->
  w <> [] -> Forall (fun c => is_space c = false) w ->
  byte_length ws <= byteLength -> byte_length w <= byteLength ->
  byteLength < byte_length ws + byte_length w ->
  Utils.splitTextByByteLength (ws ++ w) byteLength = Some [[]; w].
Proof.
  intros Hws0 Hws Hw0 Hw Hfit1 Hfit2 Hover.
  unfold Utils.splitTextByByteLength.
  rewrite split_ws_space_word by assumption.
  pose proof (byte_length_nonneg ws).
  cbn [Utils.split_loop app]. fold (byte_length []). fold (byte_length ws).
  change (byte_length []) with 0.
  destruct (Z.leb_spec 0 byteLength); [|lia].
  destruct (Z.leb_spec (byte_length ws) byteLength); [|lia].
  fold (byte_length (ws ++ w)). rewrite byte_length_app.
  destruct (Z.leb_spec (byte_length ws + byte_length w) byteLength); [lia|].
  destruct ws as [|c ws]; [congruence|].
  rewrite (trim_spaces (c :: ws)), (trim_word w) by assumption.
  destruct w; [congruence|]. reflexivity.
Qed.

Lemma filter_id_Forall {A} (f : A -> bool) l :
  List.filter f l = l -> Forall (fun x => f x = true) l.
Proof.
  induction l as [|x l IH]; [constructor|]. cbn [List.filter].
  destruct (f x) eqn:Hx.
  - intros [= H]. constructor; auto.
  - intros H. pose proof (List.filter_length_le f l) as Hle.
    rewrite H in Hle. cbn [length] in Hle. lia.
Qed.

Lemma strip_ws_id w : strip_ws w = w -> Forall (fun c => is_space c = false) w.
Proof.
  intros H. apply filter_id_Forall in H.
  eapply Forall_impl; [exact H|]. intros c Hc. cbv beta in Hc.
  destruct (is_space c); [discriminate|reflexivity].
Qed.

(** An oversized ASCII word of at most twice the limit is cut in two at
    the limit. *)
Lemma force_split_two x y byteLength :
  ascii_text x -> ascii_text y ->
  Z.of_nat (length x) = byteLength -> (0 < length y <= length x)%nat ->
  Utils.force_split (length (utf8_encode (x ++ y))) (utf8_encode (x ++ y)) 0 byteLength
  = Some [x; y].
Proof.
  intros Hx Hy Hn Hlen.
  assert (Hxy : ascii_text (x ++ y)) by (apply Forall_app; auto).
  assert (Hbytes : length (utf8_encode (x ++ y)) = (length x + length y)%nat).
  { rewrite utf8_encode_ascii_bytes, length_map, length_app by assumption.
    reflexivity. }
  destruct (length (utf8_encode (x ++ y))) as [|[|fuel]] eqn:Hfuel; try lia.
  rewrite <- Hfuel.
  assert (Hstop : forall fuel',
    Utils.force_split fuel' (utf8_encode (x ++ y)) (0 + byteLength + byteLength)
      byteLength = Some []).
  { intros fuel'. destruct fuel'; cbn [Utils.force_split];
      destruct (Z.ltb_spec (0 + byteLength + byteLength)
                  (Z.of_nat (length (utf8_encode (x ++ y))))); try lia; reflexivity. }
  rewrite Hfuel at 1. cbn [Utils.force_split].
  destruct (Z.ltb_spec 0 (Z.of_nat (length (utf8_encode (x ++ y))))); [|lia].
  destruct (Z.ltb_spec (0 + byteLength) (Z.of_nat (length (utf8_encode (x ++ y)))));
    [|lia].
  rewrite Hstop. rewrite !utf8_decode_slice_ascii by (try assumption; lia).
  f_equal. f_equal; [|f_equal].
  - replace (Z.to_nat (0 + byteLength - 0)) with (length x) by lia.
    cbn [Z.to_nat drop]. rewrite drop_0. apply take_app_length.
  - replace (Z.to_nat (0 + byteLength)) with (length x) by lia.
    rewrite drop_app_length. apply take_ge. lia.
Qed.

Lemma splitTextByByteLength_two x y byteLength :
  ascii_text x -> ascii_text y ->
  Forall (fun c => is_space c = false) (x ++ y) ->
  Z.of_nat (length x) = byteLength -> (0 < length y <= length x)%nat ->
  Utils.splitTextByByteLength (x ++ y) byteLength = Some [x; y].
Proof.
  intros Hx Hy Hws Hn Hlen. unfold Utils.splitTextByByteLength.
  rewrite split_ws_word by assumption. cbn [Utils.split_loop app].
  fold (byte_length (x ++ y)).
  rewrite byte_length_ascii, length_app by (apply Forall_app; auto).
  destruct (Z.leb_spec (Z.of_nat (length x + length y)) byteLength); [lia|].
  rewrite force_split_two by assumption. reflexivity.
Qed.

(** X11: the forced cut can fall inside an entity.  A word of 4095 plain
    ASCII characters and an apostrophe is 4101 bytes long once the
    apostrophe is written as [&apos;]; it is cut after 4096 bytes, so
    that the first chunk ends with [&] and the second one is [apos;]. *)
Theorem new_cuts_entity (x : jsstring) :
  ascii_text x -> strip_ws x = x -> sanitize x = x -> length x = 4095%nat ->
  Communicate.new (x ++ lit "'")
  = Some {| state := initial_state;
            texts := [utf8_encode (x ++ lit "&"); utf8_encode (lit "apos;")] |}.
Proof.
  intros Hascii Hws Hsan Hlen. unfold Communicate.new.
  fold (sanitize (x ++ lit "'")). rewrite sanitize_app, Hsan.
  change (sanitize (lit "'")) with (lit "&" ++ lit "apos;").
  rewrite app_assoc.
  rewrite splitTextByByteLength_two; try reflexivity.
  - apply Forall_app. split; [exact Hascii|]. eval_lit. repeat constructor; lia.
  - unfold ascii_text. eval_lit. repeat constructor; lia.
  - apply Forall_app. split; [|eval_lit; repeat constructor].
    apply Forall_app. split; [apply strip_ws_id, Hws|eval_lit; repeat constructor].
  - rewrite length_app, Hlen. reflexivity.
  - rewrite length_app, Hlen. cbn. lia.
Qed.

(** A word of 4095 letters and an apostrophe. *)
Lemma new_cuts_entity_witness :
  Communicate.new (repeat 97 4095 ++ lit "'")
  = Some {| state := initial_state;
            texts := [utf8_encode (repeat 97 4095 ++ lit "&");
                      utf8_encode (lit "apos;")] |}.
Proof.
  apply new_cuts_entity.
  - apply List.Forall_forall. intros c Hc. apply repeat_spec in Hc. subst c. lia.
  - vm_compute. reflexivity.
  - vm_compute. reflexivity.
  - apply repeat_length.
Defined.

(** ** The segmenter when every word fits *)

Lemma trimStart_suffix s : exists sp, s = sp ++ trimStart s.
Proof.
  induction s as [|c s [sp IH]]; [exists []; reflexivity|]. cbn [trimStart].
  destruct (is_space c); [|exists []; reflexivity].
  exists (c :: sp). cbn [app]. f_equal. exact IH.
Qed.

Lemma trimStart_head s :
  match trimStart s with c :: _ => is_space c = false | [] => True end.
Proof.
  induction s as [|c s IH]; [exact I|]. cbn [trimStart].
  destruct (is_space c) eqn:Hc; [exact IH|exact Hc].
Qed.

Lemma trimStart_id s :
  match s with c :: _ => is_space c = false | [] => True end -> trimStart s = s.
Proof. destruct s as [|c s]; [reflexivity|]. cbn [trimStart]. intros ->. reflexivity. Qed.

(** A trimmed text is left as it is by [trim]. *)
Lemma trim_trim s : trim (trim s) = trim s.
Proof.
  unfold trim, trimEnd.
  set (a := trimStart s). set (b := trimStart (rev a)).
  assert (Hb : trimStart b = b) by apply trimStart_id, trimStart_head.
  assert (Hrb : trimStart (rev b) = rev b).
  { apply trimStart_id. destruct (trimStart_suffix (rev a)) as [sp Hsp].
    fold b in Hsp. apply (f_equal (@rev Z)) in Hsp.
    rewrite rev_involutive, rev_app_distr in Hsp.
    pose proof (trimStart_head s) as Ha. fold a in Ha.
    destruct (rev b) as [|c r]; [exact I|].
    rewrite Hsp in Ha. exact Ha. }
  rewrite Hrb, rev_involutive, Hb. reflexivity.
Qed.

Lemma split_loop_trimmed byteLength words : forall chunks cur chunks' cur',
  Forall (fun w => byte_length w <= byteLength) words ->
  Forall (fun c => trim c = c) chunks ->
  Utils.split_loop words byteLength chunks cur = Some (chunks', cur') ->
  Forall (fun c => trim c = c) chunks'.
Proof.
  induction words as [|word words IH]; intros chunks cur chunks' cur' Hwords Hchunks;
    cbn [Utils.split_loop].
  - intros [= <- <-]. exact Hchunks.
  - apply Forall_cons in Hwords as [Hword Hwords].
    fold (byte_length (cur ++ word)).
    destruct (Z.leb_spec (byte_length (cur ++ word)) byteLength) as [Hfit|Hover].
    + apply IH; assumption.
    + destruct cur as [|c cur]; [cbn [app] in Hover; lia|].
      apply IH; [assumption|].
      apply Forall_app. split; [exact Hchunks|].
      constructor; [apply trim_trim|constructor].
Qed.

(** X12: when no word and no run of white space of the text is longer
    than the limit, the chunks give the text back, white space apart;
    none is longer than the limit, and none begins or ends with white
    space. *)
Theorem splitTextByByteLength_words_fit (text : jsstring) (byteLength : Z) :
  0 < byteLength ->
  Forall (fun w => byte_length w <= byteLength) (split_ws text) ->
  exists chunks,
    Utils.splitTextByByteLength text byteLength = Some chunks /\
    strip_ws (concat chunks) = strip_ws text /\
    Forall (fun c => byte_length c <= byteLength) chunks /\
    Forall (fun c => trim c = c) chunks.
Proof.
  intros Hn Hwords.
  destruct (splitTextByByteLength_fitting text byteLength Hn Hwords)
    as (chunks & Hsplit & Htext & Hsize).
  exists chunks. repeat (split; [assumption|]).
  unfold Utils.splitTextByByteLength in Hsplit.
  destruct (Utils.split_loop _ _ _ _) as [[chunks0 cur]|] eqn:Hrun; [|discriminate].
  apply split_loop_trimmed in Hrun; [|assumption|constructor].
  destruct (trim cur) eqn:Htrim; injection Hsplit as <-; [exact Hrun|].
  apply Forall_app. split; [exact Hrun|].
  constructor; [|constructor]. rewrite <- Htrim. apply trim_trim.
Qed.

(** Three words and a limit of seven bytes. *)
Lemma splitTextByByteLength_words_fit_witness :
  exists chunks,
    Utils.splitTextByByteLength (lit "ab  cd" ++ [233] ++ lit " efg") 7 = Some chunks /\
    strip_ws (concat chunks) = lit "abcd" ++ [233] ++ lit "efg" /\
    Forall (fun c => byte_length c <= 7) chunks /\
    Forall (fun c => trim c = c) chunks.
Proof.
  apply (splitTextByByteLength_words_fit (lit "ab  cd" ++ [233] ++ lit " efg") 7).
  - lia.
  - let l := eval vm_compute in (split_ws (lit "ab  cd" ++ [233] ++ lit " efg")) in
    change (Forall (fun w => byte_length w <= 7) l).
    repeat (apply List.Forall_cons; [vm_compute; discriminate|]).
    apply List.Forall_nil.
Defined.

(** A word of five letters and a limit of two bytes. *)
Lemma splitTextByByteLength_ascii_witness :
  exists chunks,
    Utils.splitTextByByteLength (lit "a bcdef") 2 = Some chunks /\
    strip_ws (concat chunks) = lit "abcdef".
Proof.
  apply (splitTextByByteLength_ascii (lit "a bcdef") 2).
  - unfold ascii_text. eval_lit. repeat constructor; lia.
  - lia.
Defined.

(** A space before a word of three letters, and a limit of three
    bytes. *)
Lemma splitTextByByteLength_empty_chunk_witness :
  Utils.splitTextByByteLength (lit " abc") 3 = Some [[]; lit "abc"].
Proof.
  apply (splitTextByByteLength_empty_chunk (lit " ") (lit "abc") 3);
    try discriminate; try (vm_compute; discriminate);
    try (eval_lit; repeat constructor).
Defined.

(** ** No markup in what is sent *)

Ltac forall_list :=
  repeat match goal with
         | |- Forall _ (_ :: _) => apply List.Forall_cons
         | |- Forall _ [] => apply List.Forall_nil
         end.

Lemma decode_lead_ok (R : Z -> Prop) v out st' :
  0 <= v < 256 -> R v -> decode_lead v = (out, st') ->
  open_ok st' /\ Forall (decoded R) out.
Proof.
  intros Hv HR. unfold decode_lead.
  destruct (Z.leb_spec v 127).
  { intros [= <- <-]. split; [left; reflexivity|]. forall_list. right; right; exact HR. }
  destruct (Z.leb_spec 194 v), (Z.leb_spec v 223); cbn [andb].
  { intros [= <- <-]. split; [|constructor]. right. cbn.
    pose proof (proj2 (lead2_byte (v - 192) ltac:(lia))) as Hl.
    replace (192 + (v - 192)) with v in Hl by lia. rewrite Hl. lia. }
  all: destruct (Z.leb_spec 224 v), (Z.leb_spec v 239); cbn [andb].
  all: try (intros [= <- <-]; split; [|constructor]; right; cbn;
    pose proof (proj2 (lead3_byte (v - 224) ltac:(lia))) as Hl;
    replace (224 + (v - 224)) with v in Hl by lia; rewrite Hl;
    destruct (Z.eqb_spec v 224), (Z.eqb_spec v 237); lia).
  all: destruct (Z.leb_spec 240 v), (Z.leb_spec v 244); cbn [andb].
  all: try (intros [= <- <-]; split; [|constructor]; right; cbn;
    pose proof (proj2 (lead4_byte (v - 240) ltac:(lia))) as Hl;
    replace (240 + (v - 240)) with v in Hl by lia; rewrite Hl;
    destruct (Z.eqb_spec v 240), (Z.eqb_spec v 244); lia).
  all: intros [= <- <-]; (split; [left; reflexivity|]);
    forall_list; left; reflexivity.
Qed.

Lemma decode_byte_ok (R : Z -> Prop) st v out st' :
  open_ok st -> 0 <= v < 256 -> R v -> decode_byte st v = (out, st') ->
  open_ok st' /\ Forall (decoded R) out.
Proof.
  intros Hst Hv HR. unfold decode_byte.
  destruct (Z.eqb_spec (needed st) 0) as [|Hn]; [apply decode_lead_ok; assumption|].
  destruct Hst as [|(Hseen & Hcp & Hlo & Hup & Hbig)]; [contradiction|].
  destruct (Z.ltb_spec v (lower st)), (Z.ltb_spec (upper st) v); cbn [orb].
  1-3: destruct (decode_lead v) as [out0 st0] eqn:Hlead;
       destruct (decode_lead_ok R v out0 st0 Hv HR Hlead) as [H1 H2];
       intros [= <- <-]; (split; [exact H1|]); constructor; [left; reflexivity|exact H2].
  pose proof (proj2 (cont_byte (v - 128) ltac:(lia))) as Hl.
  replace (128 + (v - 128)) with v in Hl by lia. rewrite Hl.
  rewrite lor_shiftl_6 by lia.
  destruct (Z.eqb_spec (seen st + 1) (needed st)).
  - intros [= <- <-]. split; [left; reflexivity|].
    forall_list. right; left. lia.
  - intros [= <- <-]. split; [|constructor]. right. cbn. lia.
Qed.

Lemma decode_from_ok (R : Z -> Prop) bs : forall st,
  open_ok st -> Forall (fun b => R (byte_val b)) bs ->
  Forall (decoded R) (decode_from st bs).
Proof.
  induction bs as [|b bs IH]; intros st Hst Hbs; cbn [decode_from].
  - destruct (needed st =? 0); forall_list. left; reflexivity.
  - apply Forall_cons in Hbs as [Hb Hbs].
    destruct (decode_byte st (byte_val b)) as [out st'] eqn:Hdec.
    destruct (decode_byte_ok R st _ out st' Hst (byte_val_range b) Hb Hdec) as [H1 H2].
    apply Forall_app. split; [exact H2|apply IH; assumption].
Qed.

Lemma utf8_decode_ok (R : Z -> Prop) bs :
  Forall (fun b => R (byte_val b)) bs -> Forall (decoded R) (utf8_decode bs).
Proof.
  intros Hbs.
  assert (H0 : forall l, Forall (fun b => R (byte_val b)) l ->
                         Forall (decoded R) (decode_from decoder_init l)).
  { intros l. apply decode_from_ok. left. reflexivity. }
  unfold utf8_decode.
  destruct bs as [|b0 [|b1 [|b2 bs]]]; try (apply H0, Hbs);
    (destruct b0; try (apply H0, Hbs)); (destruct b1; try (apply H0, Hbs)).
  destruct b2; try (apply H0, Hbs).
  apply H0. apply Forall_cons in Hbs as [_ Hbs]. apply Forall_cons in Hbs as [_ Hbs].
  apply Forall_cons in Hbs as [_ Hbs]. exact Hbs.
Qed.

Lemma scalar_bounds c : 0 <= scalar c <= 1114111.
Proof.
  unfold scalar, replacement.
  destruct (Z.ltb_spec c 0), (Z.ltb_spec 1114111 c), (Z.leb_spec 55296 c),
    (Z.leb_spec c 57343); cbn; lia.
Qed.

Lemma scalar_low c : scalar c < 128 -> scalar c = c.
Proof.
  unfold scalar, replacement.
  destruct (_ || _); [lia|reflexivity].
Qed.

(** The bytes of a character: the character itself when it is ASCII,
    bytes from 128 on otherwise. *)
Lemma encode_char_bytes c :
  Forall (fun b => byte_val b = c \/ 128 <= byte_val b) (encode_char c).
Proof.
  unfold encode_char. pose proof (scalar_bounds c) as Hb.
  pose proof (scalar_low c) as Hlow. set (c' := scalar c) in *.
  rewrite !shiftr_6, !shiftr_12, !shiftr_18, !land_63.
  destruct (Z.ltb_spec c' 128); [|destruct (Z.ltb_spec c' 2048);
                                   [|destruct (Z.ltb_spec c' 65536)]].
  - forall_list. left. rewrite byte_val_of by lia. auto.
  - forall_list; right.
    + rewrite (proj1 (lead2_byte (c' / 64) ltac:(Z.div_mod_to_equations; lia))).
      Z.div_mod_to_equations; lia.
    + rewrite (proj1 (cont_byte (c' mod 64) ltac:(Z.div_mod_to_equations; lia))).
      Z.div_mod_to_equations; lia.
  - forall_list; right.
    + rewrite (proj1 (lead3_byte (c' / 4096) ltac:(Z.div_mod_to_equations; lia))).
      Z.div_mod_to_equations; lia.
    + rewrite (proj1 (cont_byte (c' / 64 mod 64) ltac:(Z.div_mod_to_equations; lia))).
      Z.div_mod_to_equations; lia.
    + rewrite (proj1 (cont_byte (c' mod 64) ltac:(Z.div_mod_to_equations; lia))).
      Z.div_mod_to_equations; lia.
  - forall_list; right.
    + rewrite (proj1 (lead4_byte (c' / 262144) ltac:(Z.div_mod_to_equations; lia))).
      Z.div_mod_to_equations; lia.
    + rewrite (proj1 (cont_byte (c' / 4096 mod 64) ltac:(Z.div_mod_to_equations; lia))).
      Z.div_mod_to_equations; lia.
    + rewrite (proj1 (cont_byte (c' / 64 mod 64) ltac:(Z.div_mod_to_equations; lia))).
      Z.div_mod_to_equations; lia.
    + rewrite (proj1 (cont_byte (c' mod 64) ltac:(Z.div_mod_to_equations; lia))).
      Z.div_mod_to_equations; lia.
Qed.

Lemma markup_low c : markup c = true -> c < 128 /\ c <> replacement.
Proof.
  unfold markup, replacement. intros H.
  repeat (apply orb_true_iff in H as [H|H]); apply Z.eqb_eq in H; lia.
Qed.

Lemma utf8_encode_markup s :
  Forall (fun c => markup c = false) s ->
  Forall (fun b => markup (byte_val b) = false) (utf8_encode s).
Proof.
  induction 1 as [|c s Hc _ IH]; [constructor|].
  unfold utf8_encode in *. cbn [flat_map]. apply Forall_app. split; [|exact IH].
  eapply Forall_impl; [apply encode_char_bytes|]. intros b [->|Hb]; [exact Hc|].
  destruct (markup (byte_val b)) eqn:Hm; [|reflexivity].
  apply markup_low in Hm. lia.
Qed.

Lemma utf8_decode_markup bs :
  Forall (fun b => markup (byte_val b) = false) bs ->
  Forall (fun c => markup c = false) (utf8_decode bs).
Proof.
  intros Hbs.
  eapply Forall_impl; [apply (utf8_decode_ok (fun c => markup c = false) bs Hbs)|].
  intros c [->|[Hc|Hc]]; [reflexivity| |exact Hc].
  destruct (markup c) eqn:Hm; [|reflexivity]. apply markup_low in Hm. lia.
Qed.

Lemma slice_Forall {A} (P : A -> Prop) (a : list A) i j :
  Forall P a -> Forall P (slice a i j).
Proof. intros H. unfold slice. apply Forall_take, Forall_drop, H. Qed.

Lemma force_split_markup word byteLength :
  Forall (fun c => markup c = false) word ->
  forall fuel i slices,
    Utils.force_split fuel (utf8_encode word) i byteLength = Some slices ->
    Forall (Forall (fun c => markup c = false)) slices.
Proof.
  intros Hw. induction fuel as [|fuel IH]; intros i slices; cbn [Utils.force_split];
    destruct (_ <? _); try (intros [=]; fail); try (intros [= <-]; constructor).
  destruct (Utils.force_split fuel _ _ _) as [rest|] eqn:Hrest; [|discriminate].
  intros [= <-]. constructor; [|apply (IH _ _ Hrest)].
  apply utf8_decode_markup, slice_Forall, utf8_encode_markup, Hw.
Qed.

Lemma trimStart_Forall (P : Z -> Prop) s : Forall P s -> Forall P (trimStart s).
Proof.
  induction 1 as [|c s Hc Hs IH]; [constructor|]. cbn [trimStart].
  destruct (is_space c); [exact IH|constructor; assumption].
Qed.

Lemma trim_Forall (P : Z -> Prop) s : Forall P s -> Forall P (trim s).
Proof.
  intros H. unfold trim, trimEnd.
  apply List.Forall_rev, trimStart_Forall, List.Forall_rev, trimStart_Forall, H.
Qed.

Lemma split_loop_markup byteLength words :
  forall chunks cur chunks' cur',
  Forall (Forall (fun c => markup c = false)) words ->
  Forall (Forall (fun c => markup c = false)) chunks ->
  Forall (fun c => markup c = false) cur ->
  Utils.split_loop words byteLength chunks cur = Some (chunks', cur') ->
  Forall (Forall (fun c => markup c = false)) chunks' /\
  Forall (fun c => markup c = false) cur'.
Proof.
  induction words as [|word words IH]; intros chunks cur chunks' cur' Hwords Hchunks Hcur;
    cbn [Utils.split_loop].
  - intros [= <- <-]. auto.
  - apply Forall_cons in Hwords as [Hword Hwords].
    destruct (_ <=? byteLength).
    + intros Hrun. refine (IH _ _ _ _ Hwords Hchunks _ Hrun).
      apply Forall_app. auto.
    + destruct cur as [|c cur].
      * destruct (Utils.force_split _ _ 0 byteLength) as [slices|] eqn:Hfs;
          [|discriminate].
        intros Hrun. refine (IH _ _ _ _ Hwords _ _ Hrun); [|constructor].
        apply Forall_app. split; [assumption|].
        apply (force_split_markup word byteLength Hword _ _ _ Hfs).
      * intros Hrun. refine (IH _ _ _ _ Hwords _ Hword Hrun).
        apply Forall_app. split; [assumption|].
        constructor; [|constructor]. apply trim_Forall, Hcur.
Qed.

Lemma splitTextByByteLength_markup text byteLength chunks :
  Forall (fun c => markup c = false) text ->
  Utils.splitTextByByteLength text byteLength = Some chunks ->
  Forall (Forall (fun c => markup c = false)) chunks.
Proof.
  intros Ht. unfold Utils.splitTextByByteLength.
  destruct (Utils.split_loop _ _ _ _) as [[chunks0 cur]|] eqn:Hrun; [|discriminate].
  apply split_loop_markup in Hrun as [H1 H2]; [| |constructor|constructor].
  2:{ apply Forall_concat_inv. rewrite split_ws_concat. exact Ht. }
  destruct (trim cur) eqn:Htrim; intros [= <-]; [exact H1|].
  apply Forall_app. split; [exact H1|]. constructor; [|constructor].
  rewrite <- Htrim. apply trim_Forall, H2.
Qed.

(** X13: no markup goes out with the text.  Whatever the text given to
    the constructor, each of the texts it prepares, decoded as [_stream]
    decodes it for the SSML request, holds none of the characters [<],
    [>], quotation mark and apostrophe: the text cannot close the
    element it is written in, nor open another one. *)
Theorem new_texts_no_markup (text : jsstring) :
  exists s, Communicate.new text = Some s /\
    Forall (fun partialText =>
              Forall (fun c => markup c = false) (utf8_decode partialText))
           (texts s).
Proof.
  destruct (new_total text) as [s Hs]. exists s. split; [exact Hs|].
  unfold Communicate.new in Hs.
  destruct (Utils.splitTextByByteLength _ _) as [chunks|] eqn:Hsplit; [|discriminate].
  injection Hs as <-. cbn [texts].
  apply splitTextByByteLength_markup in Hsplit; [|apply escape_markup].
  induction Hsplit as [|chunk chunks Hc _ IH]; [constructor|].
  cbn [map]. constructor; [|exact IH].
  apply utf8_decode_markup, utf8_encode_markup, Hc.
Qed.

(** ** The receive loop *)

Lemma receive_chunks_close messages rest : forall audioWasReceived,
  receive (map Chunk messages ++ Close :: rest) audioWasReceived
  = (messages,
     if audioWasReceived || existsb is_audio messages then Return
     else Thrown (New NoAudioReceived (lit "No audio was received."))).
Proof.
  induction messages as [|m messages IH]; intros a; cbn [map app receive existsb].
  - rewrite orb_false_r. destruct a; reflexivity.
  - rewrite IH. unfold is_audio at 2.
    destruct (bool_decide (type m = lit "audio")); cbn [orb];
      [rewrite orb_true_r|]; reflexivity.
Qed.

Lemma receive_chunks_waiting messages : forall audioWasReceived,
  receive (map Chunk messages) audioWasReceived = (messages, Waiting).
Proof.
  induction messages as [|m messages IH]; intros a; cbn [map receive]; [reflexivity|].
  rewrite IH. reflexivity.
Qed.

(** X14: the receive loop yields the events of the queue in their order
    up to the first item that is none.  At the close mark it returns if
    an audio chunk was among them and throws NoAudioReceived if not; at
    an error it throws this error; what comes after in the queue is
    never read. *)
Theorem receive_queue (messages : list TTSChunk) (rest : list item) (e : exn) :
  receive (map Chunk messages ++ Close :: rest) false
  = (messages,
     if existsb is_audio messages then Return
     else Thrown (New NoAudioReceived (lit "No audio was received."))) /\
  receive (map Chunk messages ++ Failure e :: rest) false = (messages, Thrown e) /\
  receive (map Chunk messages) false = (messages, Waiting).
Proof.
  split; [apply receive_chunks_close|].
  split; [apply receive_chunks_failure|apply receive_chunks_waiting].
Qed.

(** ** The errors of a connection *)

Lemma prop_throws v key e : prop v key = Throw e -> class e = TypeError.
Proof.
  unfold prop. destruct v as [[]|]; intros [= <-]; reflexivity.
Qed.

Lemma iterate_throws v e : iterate v = Throw e -> class e = TypeError.
Proof.
  unfold iterate. destruct v as [[]|]; intros [= <-]; reflexivity.
Qed.

Ltac bind_prop H :=
  match type of H with
  | bind (prop ?v ?k) _ = _ =>
      let E := fresh "E" in
      destruct (prop v k) eqn:E; cbn [bind] in H;
      [|injection H as <-; rewrite (prop_throws _ _ _ E); reflexivity]
  end.

Lemma word_boundary_throws comp metaObj e :
  word_boundary comp metaObj = Some (Throw e) -> protocol_error (class e) = true.
Proof.
  unfold word_boundary. intros H. repeat bind_prop H.
  repeat match type of H with
         | match ?x with _ => _ end = _ => destruct x; try discriminate H
         end;
    injection H as <-; reflexivity.
Qed.

Lemma parse_entries_throws comp entries e :
  parse_entries comp entries = Some (Throw e) -> protocol_error (class e) = true.
Proof.
  induction entries as [|metaObj entries IH]; cbn [parse_entries]; intros H.
  - injection H as <-. reflexivity.
  - bind_prop H. destruct (is_str (lit "WordBoundary") a).
    + apply (word_boundary_throws _ _ _ H).
    + destruct (is_str (lit "SessionEnd") a); [apply IH, H|].
      injection H as <-. reflexivity.
Qed.

Lemma push_protocol x c :
  protocol_item x -> Forall protocol_item (messageQueue c) ->
  Forall protocol_item (messageQueue (push x c)).
Proof.
  intros Hx Hc. cbn [push messageQueue]. apply Forall_app. split; [exact Hc|].
  constructor; [exact Hx|constructor].
Qed.

Lemma processBinaryData_protocol f c :
  Forall protocol_item (messageQueue c) ->
  Forall protocol_item (messageQueue (processBinaryData f c)).
Proof.
  intros Hc. unfold processBinaryData.
  repeat match goal with
         | |- context [match ?x with _ => _ end] => destruct x
         end;
    try exact Hc; apply push_protocol; try exact Hc; exact I || reflexivity.
Qed.

Section Errors.

Variable JSON_parse : jsstring -> result json.

Hypothesis JSON_parse_throws :
  forall s e, JSON_parse s = Throw e -> class e = SyntaxError.

Lemma parseMetadata_throws st data e :
  parseMetadata JSON_parse st data = Some (Throw e) ->
  protocol_error (class e) = true.
Proof.
  unfold parseMetadata. intros H.
  destruct (JSON_parse (utf8_decode data)) eqn:Hparse; cbn [bind] in H.
  2:{ injection H as <-. rewrite (JSON_parse_throws _ _ Hparse). reflexivity. }
  bind_prop H.
  destruct (iterate a0) eqn:Hit; cbn [bind] in H.
  2:{ injection H as <-. rewrite (iterate_throws _ _ Hit). reflexivity. }
  apply (parse_entries_throws _ _ _ H).
Qed.

Lemma handleMessage_protocol st c data isBinary st' c' :
  handleMessage JSON_parse st c data isBinary = Some (st', c') ->
  Forall protocol_item (messageQueue c) ->
  Forall protocol_item (messageQueue c').
Proof.
  intros H Hc. unfold handleMessage in H.
  repeat match type of H with
         | (let '(_, _) := ?x in _) = _ => destruct x
         | match ?x with _ => _ end = _ =>
             let E := fresh "E" in destruct x eqn:E; try discriminate H
         | (if ?x then _ else _) = _ => destruct x
         end;
    injection H as <- <-;
    try exact Hc;
    try (apply processBinaryData_protocol, Hc);
    try (apply push_protocol; [|exact Hc]; try exact I; try reflexivity).
  all: eapply parseMetadata_throws; eassumption.
Qed.

Lemma on_events_protocol evs : forall st c st' c',
  on_events JSON_parse (st, c) evs = Some (st', c') ->
  Forall protocol_item (messageQueue c) ->
  Forall protocol_item (messageQueue c').
Proof.
  induction evs as [|ev evs IH]; intros st c st' c'; cbn [on_events].
  - intros [= <- <-]. auto.
  - destruct (on_event JSON_parse (st, c) ev) as [[st1 c1]|] eqn:Hev; [|discriminate].
    intros Hrun Hc. apply (IH _ _ _ _ Hrun).
    destruct ev as [data isBinary| |]; cbn [on_event] in Hev.
    + apply (handleMessage_protocol _ _ _ _ _ _ Hev Hc).
    + injection Hev as <- <-. exact Hc.
    + injection Hev as <- <-. apply push_protocol; [exact I|exact Hc].
Qed.

Lemma receive_protocol queue : forall audioWasReceived out e,
  Forall protocol_item queue ->
  receive queue audioWasReceived = (out, Thrown e) ->
  protocol_error (class e) = true.
Proof.
  induction queue as [|x queue IH]; intros a out e Hq; cbn [receive].
  - discriminate.
  - apply Forall_cons in Hq as [Hx Hq]. destruct x as [m|e'|].
    + destruct (receive queue _) as [out' stop] eqn:Hrec.
      intros [= <- ->]. apply (IH _ _ _ Hq Hrec).
    + intros [= <- <-]. exact Hx.
    + destruct a; intros [= <- <-]. reflexivity.
Qed.

(** X15: what a connection can throw once it is open.  When [JSON.parse]
    throws nothing but a SyntaxError, the error that ends a connection
    is a SyntaxError, a TypeError, an UnknownResponse, an
    UnexpectedResponse or NoAudioReceived; it is never a WebSocketError:
    after the opening the error callback that would make one has been
    replaced. *)
Theorem stream_errors (st : CommunicateState) (env : chunk_env)
    (out : list TTSChunk) (e : exn) (st' : CommunicateState) :
  opening env = None ->
  _stream JSON_parse st env = Some (out, Thrown e, st') ->
  protocol_error (class e) = true /\ class e <> WebSocketError.
Proof.
  intros Hopen. unfold _stream. rewrite Hopen.
  destruct (on_events JSON_parse (st, new_connection) (events env))
    as [[st1 c]|] eqn:Hrun; [|discriminate].
  destruct (receive (messageQueue c) false) as [out1 stop] eqn:Hrec.
  intros [= <- -> <-].
  assert (H : protocol_error (class e) = true).
  { apply (receive_protocol _ _ _ _ (on_events_protocol _ _ _ _ _ Hrun
             (List.Forall_nil _)) Hrec). }
  split; [exact H|]. intros Hc. rewrite Hc in H. discriminate H.
Qed.

End Errors.

(** ** Audio frames *)

Lemma audio_header_parsed :
  well_formed audio_header /\ head audio_header <> Some 65279 /\
  byte_length audio_header < 65536 /\
  parse_headers audio_header !! lit "Path" = Some (lit "audio") /\
  parse_headers audio_header !! lit "Content-Type" = Some (lit "audio/mpeg").
Proof.
  split.
  { unfold well_formed.
    let l := eval vm_compute in audio_header in
    change (Forall (fun c => scalar c = c) l).
    repeat (apply List.Forall_cons; [reflexivity|]). apply List.Forall_nil. }
  split; [discriminate|]. split; [reflexivity|].
  split; vm_compute; reflexivity.
Qed.

Lemma processBinaryData_audio_frame p c :
  p <> [] ->
  processBinaryData (binary_frame audio_header p) c = push (Chunk (audio_chunk p)) c /\
  processBinaryData (binary_frame audio_header []) c
  = push (Failure (New UnexpectedResponse
      (lit "Received binary message, but it is missing the audio data."))) c.
Proof.
  intros Hp. destruct audio_header_parsed as (H1 & H2 & H3 & Hpath & Htype).
  unfold processBinaryData. rewrite !binary_frame_parsed by assumption.
  rewrite Hpath, Htype. rewrite !bool_decide_eq_true_2 by reflexivity.
  cbn [negb]. split; [|reflexivity].
  destruct p; [congruence|]. reflexivity.
Qed.

Section Audio.

Variable JSON_parse : jsstring -> result json.

Lemma on_events_audio payloads : forall st c,
  Forall (fun p => p <> []) payloads ->
  on_events JSON_parse (st, c) (map audio_message payloads)
  = Some (st, {| messageQueue := messageQueue c ++ map Chunk (map audio_chunk payloads);
                 closing := closing c |}).
Proof.
  induction payloads as [|p payloads IH]; intros st c Hps; cbn [map on_events].
  - rewrite app_nil_r. destruct c; reflexivity.
  - apply Forall_cons in Hps as [Hp Hps].
    cbn [on_event audio_message handleMessage].
    rewrite (proj1 (processBinaryData_audio_frame p c Hp)).
    rewrite IH by assumption. cbn [push messageQueue closing].
    rewrite <- app_assoc. reflexivity.
Qed.

Lemma on_event_turn_end_frame st c :
  on_event JSON_parse (st, c) (text_frame (lit "turn.end"))
  = Some (turn_ended st, {| messageQueue := messageQueue c; closing := true |}).
Proof.
  unfold on_event, text_frame, handleMessage.
  set (s := lit "X-RequestId:0" ++ crlf ++ lit "Path:" ++ lit "turn.end"
            ++ crlf ++ crlf ++ lit "{}").
  assert (Hpath : fst (isomorphicGetHeadersAndDataFromText (utf8_encode s))
                    !! lit "Path" = Some (lit "turn.end")) by (vm_compute; reflexivity).
  assert (Hs : exists ch s', s = ch :: s') by (eexists _, _; reflexivity).
  destruct Hs as (ch & s' & ->).
  destruct (isomorphicGetHeadersAndDataFromText _) as [headers parsedData].
  cbn [fst] in Hpath. rewrite Hpath.
  rewrite bool_decide_eq_false_2 by discriminate.
  rewrite bool_decide_eq_true_2 by reflexivity.
  reflexivity.
Qed.

(** X16: audio goes through a connection untouched.  When the service
    sends audio frames with payloads that are not empty, then the
    [turn.end] message, and the connection is closed, [_stream] yields
    one audio chunk for each frame, in the order of the frames and with
    the bytes of its payload, and returns; the offset compensation is
    then the last duration offset. *)
Theorem stream_audio_in_order (st : CommunicateState) (payloads : list bytes) :
  payloads <> [] -> Forall (fun p => p <> []) payloads ->
  _stream JSON_parse st
    {| opening := None;
       events := map audio_message payloads ++ [text_frame (lit "turn.end"); OnClose] |}
  = Some (map audio_chunk payloads, Return, turn_ended st).
Proof.
  intros Hne Hps. unfold _stream. cbn [opening events].
  rewrite on_events_app, on_events_audio by assumption.
  cbn [on_events]. rewrite on_event_turn_end_frame.
  cbn [on_event push messageQueue new_connection app].
  rewrite receive_chunks_close. cbn [orb].
  destruct payloads as [|p payloads]; [congruence|]. reflexivity.
Qed.

End Audio.


(** A connection that is closed after a malformed metadata message. *)
Lemma stream_errors_witness :
  let parse := fun _ : jsstring => Throw (New SyntaxError (lit "Unexpected token")) in
  let env := {| opening := None;
                events := [text_frame (lit "audio.metadata"); OnClose] |} in
  _stream parse initial_state env
  = Some ([], Thrown (New SyntaxError (lit "Unexpected token")), initial_state) /\
  protocol_error SyntaxError = true /\ SyntaxError <> WebSocketError.
Proof.
  intros parse env. split; [vm_compute; reflexivity|].
  refine (stream_errors parse _ initial_state env []
            (New SyntaxError (lit "Unexpected token")) initial_state _ _).
  - intros s e [= <-]. reflexivity.
  - reflexivity.
  - vm_compute. reflexivity.
Defined.

(** Two audio frames. *)
Lemma stream_audio_in_order_witness :
  _stream (fun _ => Ok JNull) initial_state
    {| opening := None;
       events := map audio_message [[x01; x02]; [x03]]
                 ++ [text_frame (lit "turn.end"); OnClose] |}
  = Some ([audio_chunk [x01; x02]; audio_chunk [x03]], Return, initial_state).
Proof.
  refine (stream_audio_in_order (fun _ => Ok JNull) initial_state [[x01; x02]; [x03]] _ _).
  - discriminate.
  - repeat constructor; discriminate.
Defined.

(** ** The clock after an adjustment *)

Lemma Qfloor_unique x k :
  (inject_Z k <= x)%Q -> (x < inject_Z (k + 1))%Q -> Qfloor x = k.
Proof.
  intros H1 H2. pose proof (Qfloor_le x) as F1. pose proof (Qlt_floor x) as F2.
  assert (k < Qfloor x + 1) by (rewrite Zlt_Qlt; lra).
  assert (Qfloor x < k + 1) by (rewrite Zlt_Qlt; lra).
  lia.
Qed.

(** The error of one operation on numbers below 2^35. *)
Lemma fl_near q k :
  (- pow2 k < q)%Q -> (q < pow2 k)%Q -> -1021 <= k <= 1023 ->
  exists x, fl q = Num x /\ (q - pow2 (k - 54) <= x)%Q /\ (x <= q + pow2 (k - 54))%Q.
Proof.
  intros H1 H2 Hk. destruct (fl_error q k) as (x & Hx & Hb).
  - apply Qabs_Qlt_condition. split; assumption.
  - exact Hk.
  - exists x. split; [exact Hx|]. apply Qabs_Qle_condition in Hb. lra.
Qed.

(** A clock in milliseconds as a rational number of seconds. *)
Lemma seconds_bound n :
  Z.abs n < 8 * 10 ^ 12 ->
  (- inject_Z 8000000000 < inject_Z n / inject_Z 1000)%Q /\
  (inject_Z n / inject_Z 1000 < inject_Z 8000000000)%Q.
Proof.
  intros H. split.
  - apply Qlt_shift_div_l; [reflexivity|].
    rewrite <- inject_Z_opp, <- inject_Z_mult, <- Zlt_Qlt. lia.
  - apply Qlt_shift_div_r; [reflexivity|].
    rewrite <- inject_Z_mult, <- Zlt_Qlt. lia.
Qed.

(** The adjusted clock after [handleClientResponseError]: the skew that
    is left, and the time read [d] milliseconds later. *)
Lemma adjusted_clock (now ms d : Z) (skew : Q) :
  Z.abs now < 8 * 10 ^ 12 -> Z.abs ms < 8 * 10 ^ 12 ->
  Z.abs (now + d) < 8 * 10 ^ 12 -> Z.abs (ms + d) < 8 * 10 ^ 12 ->
  (Qabs skew < inject_Z (8 * 10 ^ 9))%Q ->
  exists skew' q,
    add (Num skew)
        (sub (div_by 1000 (Num (inject_Z ms)))
             (add (div_by 1000 (Num (inject_Z now))) (Num skew))) = Num skew' /\
    add (div_by 1000 (Num (inject_Z (now + d)))) (Num skew') = Num q /\
    (Qabs (q - inject_Z (ms + d) / inject_Z 1000) <= 3 * pow2 (-19))%Q.
Proof.
  intros Hnow Hms Hnow' Hms' Hskew.
  apply Qabs_Qlt_condition in Hskew.
  change (inject_Z (8 * 10 ^ 9)) with (inject_Z 8000000000) in Hskew.
  destruct (seconds_bound _ Hnow) as [N1 N2].
  destruct (seconds_bound _ Hms) as [M1 M2].
  destruct (seconds_bound _ Hnow') as [N1' N2'].
  destruct (seconds_bound _ Hms') as [M1' M2'].
  assert (P33 : (pow2 33 == inject_Z 8589934592)%Q) by reflexivity.
  assert (P34 : (pow2 34 == inject_Z 17179869184)%Q) by reflexivity.
  assert (P35 : (pow2 35 == inject_Z 34359738368)%Q) by reflexivity.
  assert (Q21 : (pow2 (33 - 54) == 1 # 2097152)%Q) by reflexivity.
  assert (Q20 : (pow2 (34 - 54) == 1 # 1048576)%Q) by reflexivity.
  assert (Q19 : (pow2 (35 - 54) == 1 # 524288)%Q) by reflexivity.
  assert (Q19' : (pow2 (-19) == 1 # 524288)%Q) by reflexivity.
  assert (I8 : (inject_Z 8000000000 == 8000000000 # 1)%Q) by reflexivity.
  assert (I33 : (inject_Z 8589934592 == 8589934592 # 1)%Q) by reflexivity.
  assert (I34 : (inject_Z 17179869184 == 17179869184 # 1)%Q) by reflexivity.
  assert (I35 : (inject_Z 34359738368 == 34359738368 # 1)%Q) by reflexivity.
  assert (Ed : (inject_Z (ms + d) / inject_Z 1000
                == inject_Z ms / inject_Z 1000 + inject_Z d / inject_Z 1000)%Q)
    by (rewrite inject_Z_plus; field).
  assert (Ed' : (inject_Z (now + d) / inject_Z 1000
                 == inject_Z now / inject_Z 1000 + inject_Z d / inject_Z 1000)%Q)
    by (rewrite inject_Z_plus; field).
  set (n := (inject_Z now / inject_Z 1000)%Q) in *.
  set (m := (inject_Z ms / inject_Z 1000)%Q) in *.
  set (n' := (inject_Z (now + d) / inject_Z 1000)%Q) in *.
  set (m' := (inject_Z (ms + d) / inject_Z 1000)%Q) in *.
  set (dd := (inject_Z d / inject_Z 1000)%Q) in *.
  cbn [div_by]. change (inject_Z (Zpos 1000)) with (inject_Z 1000). fold n m n'.
  destruct (fl_near m 33) as (s & Es & Ls & Us); [lra|lra|lia|].
  destruct (fl_near n 33) as (a & Ea & La & Ua); [lra|lra|lia|].
  destruct (fl_near n' 33) as (a' & Ea' & La' & Ua'); [lra|lra|lia|].
  rewrite Es, Ea, Ea'. cbn [add sub opp].
  destruct (fl_near (a + skew) 34) as (c & Ec & Lc & Uc); [lra|lra|lia|].
  rewrite Ec. cbn [add sub opp].
  destruct (fl_near (s + - c) 35) as (dl & Edl & Ldl & Udl); [lra|lra|lia|].
  rewrite Edl. cbn [add].
  destruct (fl_near (skew + dl) 34) as (k & Ek & Lk & Uk); [lra|lra|lia|].
  rewrite Ek. exists k.
  destruct (fl_near (a' + k) 33) as (q & Eq & Lq & Uq); [lra|lra|lia|].
  rewrite Eq.
  exists q. split; [reflexivity|]. split; [reflexivity|].
  apply Qabs_Qle_condition. lra.
Qed.

(** A time within 3 * 2^-19 s of [S] milliseconds is cut to the bucket
    of [S], unless [S] is the very millisecond of a boundary. *)
Lemma strToHash_near (q : Q) (S : Z) :
  Z.abs S < 8 * 10 ^ 12 ->
  (Qabs (q - inject_Z S / inject_Z 1000) <= 3 * pow2 (-19))%Q ->
  0 <= S + WIN_EPOCH * 1000 -> S mod 300000 <> 0 ->
  strToHash (Num q) = Some (hashed ((S + WIN_EPOCH * 1000) / 300000)).
Proof.
  intros HS Hq H0 Hmod.
  destruct (seconds_bound _ HS) as [S1 S2].
  apply Qabs_Qle_condition in Hq.
  assert (P35 : (pow2 35 == inject_Z 34359738368)%Q) by reflexivity.
  assert (Q19 : (pow2 (35 - 54) == 1 # 524288)%Q) by reflexivity.
  assert (Q19' : (pow2 (-19) == 1 # 524288)%Q) by reflexivity.
  assert (I8 : (inject_Z 8000000000 == 8000000000 # 1)%Q) by reflexivity.
  assert (I35 : (inject_Z 34359738368 == 34359738368 # 1)%Q) by reflexivity.
  assert (IW : (inject_Z WIN_EPOCH == 11644473600 # 1)%Q) by reflexivity.
  set (k := (S + WIN_EPOCH * 1000) / 300000).
  set (r := (S + WIN_EPOCH * 1000) mod 300000).
  assert (Hr : 0 < r < 300000).
  { assert (r = S mod 300000).
    { unfold r. change (WIN_EPOCH * 1000) with (38814912 * 300000).
      apply Z.mod_add. discriminate. }
    pose proof (Z.mod_pos_bound S 300000 eq_refl). lia. }
  assert (HM : S + WIN_EPOCH * 1000 = 300000 * k + r)
    by (apply Z.div_mod; discriminate).
  assert (Hk : 0 <= k) by (apply Z.div_pos; lia).
  assert (ES : (inject_Z S / inject_Z 1000 + inject_Z WIN_EPOCH
                == inject_Z 300 * inject_Z k + inject_Z r / inject_Z 1000)%Q).
  { assert (E : (inject_Z S + inject_Z (WIN_EPOCH * 1000)
                 == inject_Z 300000 * inject_Z k + inject_Z r)%Q).
    { rewrite <- inject_Z_mult, <- !inject_Z_plus, HM. reflexivity. }
    change (inject_Z (WIN_EPOCH * 1000))
      with (inject_Z WIN_EPOCH * inject_Z 1000)%Q in E.
    change (inject_Z 300000) with (inject_Z 300 * inject_Z 1000)%Q in E.
    assert (E' : (inject_Z S == inject_Z 300 * inject_Z 1000 * inject_Z k
                  + inject_Z r - inject_Z WIN_EPOCH * inject_Z 1000)%Q) by lra.
    rewrite E'. field. }
  assert (I1000 : (inject_Z 1000 == 1000 # 1)%Q) by reflexivity.
  assert (Rq1 : (1 <= inject_Z r)%Q)
    by (change 1%Q with (inject_Z 1); rewrite <- Zle_Qle; lia).
  assert (Rq2 : (inject_Z r <= 299999 # 1)%Q)
    by (change (299999 # 1) with (inject_Z 299999); rewrite <- Zle_Qle; lia).
  assert (R1 : (1 # 1000 <= inject_Z r / inject_Z 1000)%Q)
    by (apply Qle_shift_div_l; [reflexivity|lra]).
  assert (R2 : (inject_Z r / inject_Z 1000 <= 299999 # 1000)%Q)
    by (apply Qle_shift_div_r; [reflexivity|lra]).
  assert (K0 : (0 <= inject_Z k)%Q)
    by (change 0%Q with (inject_Z 0); rewrite <- Zle_Qle; exact Hk).
  assert (I300 : (inject_Z 300 == 300 # 1)%Q) by reflexivity.
  set (s := (inject_Z S / inject_Z 1000)%Q) in *.
  set (rr := (inject_Z r / inject_Z 1000)%Q) in *.
  destruct (fl_near (q + inject_Z WIN_EPOCH) 35) as (T & ET & LT & UT);
    [lra|lra|lia|].
  assert (B1 : (inject_Z k * inject_Z 300 <= T)%Q) by lra.
  assert (B2 : (T < inject_Z (k + 1) * inject_Z 300)%Q)
    by (rewrite inject_Z_plus; change (inject_Z 1) with 1%Q; lra).
  assert (Hb : bucket T = k).
  { unfold bucket. apply Qfloor_unique.
    - apply Qle_shift_div_l; [reflexivity|exact B1].
    - apply Qlt_shift_div_r; [reflexivity|exact B2]. }
  rewrite (strToHash_bucket (Num q) T ET), Hb; [reflexivity|lra|].
  change (inject_Z (4 * 10 ^ 11)) with (400000000000 # 1). lra.
Qed.

(** The clock of a client without skew. *)
Lemma plain_clock (S : Z) :
  Z.abs S < 8 * 10 ^ 12 ->
  exists q, getUnixTimestamp S initial = Num q /\
            (Qabs (q - inject_Z S / inject_Z 1000) <= 3 * pow2 (-19))%Q.
Proof.
  intros HS. destruct (seconds_bound _ HS) as [S1 S2].
  assert (P33 : (pow2 33 == inject_Z 8589934592)%Q) by reflexivity.
  assert (Q21 : (pow2 (33 - 54) == 1 # 2097152)%Q) by reflexivity.
  assert (Q19' : (pow2 (-19) == 1 # 524288)%Q) by reflexivity.
  assert (I8 : (inject_Z 8000000000 == 8000000000 # 1)%Q) by reflexivity.
  assert (I33 : (inject_Z 8589934592 == 8589934592 # 1)%Q) by reflexivity.
  unfold getUnixTimestamp. cbn [clockSkewSeconds initial div_by].
  change (inject_Z (Zpos 1000)) with (inject_Z 1000).
  set (s := (inject_Z S / inject_Z 1000)%Q) in *.
  destruct (fl_near s 33) as (a & Ea & La & Ua); [lra|lra|lia|].
  rewrite Ea. cbn [add].
  destruct (fl_near (a + 0) 33) as (q & Eq & Lq & Uq); [lra|lra|lia|].
  exists q. split; [exact Eq|]. apply Qabs_Qle_condition. lra.
Qed.

Section Sync.

Variable Date_getTime : jsstring -> option Z.
Variable subtle : option (bytes -> bytes).

Lemma handleClientResponseError_sync
    (now : Z) (st : DRMState) (r : response) (date : jsstring) (ms : Z) (skew : Q) :
  serverDate r = Some date -> date <> [] -> Date_getTime date = Some ms ->
  clockSkewSeconds st = Num skew ->
  Z.abs now < 8 * 10 ^ 12 -> Z.abs ms < 8 * 10 ^ 12 ->
  (Qabs skew < inject_Z (8 * 10 ^ 9))%Q ->
  exists st',
    handleClientResponseError Date_getTime now st r = Ok st' /\
    forall d : Z,
      Z.abs (now + d) < 8 * 10 ^ 12 -> Z.abs (ms + d) < 8 * 10 ^ 12 ->
      (exists q, getUnixTimestamp (now + d) st' = Num q /\
                 (Qabs (q - inject_Z (ms + d) / inject_Z 1000) <= 3 * pow2 (-19))%Q) /\
      (0 <= ms + d + WIN_EPOCH * 1000 -> (ms + d) mod 300000 <> 0 ->
       generateSecMsGec subtle (now + d) st'
       = generateSecMsGec subtle (ms + d) initial).
Proof.
  intros Hdate Hne Hms Hskew Bnow Bms Bskew.
  destruct (adjusted_clock now ms 0 skew) as (skew' & _ & Hs' & _);
    rewrite ?Z.add_0_r; try assumption.
  exists (skewed skew'). split.
  - unfold handleClientResponseError.
    rewrite Hdate. destruct date as [|ch date]; [congruence|].
    unfold parseRfc2616Date. rewrite Hms.
    unfold getUnixTimestamp, adjClockSkewSeconds. rewrite Hskew, Hs'. reflexivity.
  - intros d Bnow' Bms'.
    destruct (adjusted_clock now ms d skew) as (skew'' & q & Hs'' & Hq & Herr);
      try assumption.
    assert (skew'' = skew') by congruence. subst skew''.
    assert (Hclock : getUnixTimestamp (now + d) (skewed skew') = Num q) by exact Hq.
    split; [exists q; split; [exact Hclock|exact Herr]|].
    intros H0 Hmod.
    destruct (plain_clock (ms + d) Bms') as (q0 & Hq0 & Herr0).
    unfold generateSecMsGec. rewrite Hclock, Hq0.
    rewrite (strToHash_near q (ms + d)), (strToHash_near q0 (ms + d)) by assumption.
    reflexivity.
Qed.

(** X17: after a response with a date that can be read, the adjusted
    clock is the clock of the server, up to the rounding of binary64.
    For clocks within 8 * 10^12 ms (some 250 years) of the epoch and a
    skew below 8 * 10^9 s: when the server date is [ms] milliseconds,
    [handleClientResponseError] at the time [now] leaves a skew with
    which the Unix time read [d] milliseconds later is within
    3 * 2^-19 s (6 microseconds) of [(ms + d) / 1000]; and unless
    [ms + d] is the very millisecond of a bucket boundary, the token
    made then is the token of a client without skew whose clock shows
    the time of the server. *)
Theorem handleClientResponseError_server_clock
    (now : Z) (st : DRMState) (r : response) (date : jsstring) (ms : Z) (skew : Q) :
  serverDate r = Some date -> date <> [] -> Date_getTime date = Some ms ->
  clockSkewSeconds st = Num skew ->
  Z.abs now < 8 * 10 ^ 12 -> Z.abs ms < 8 * 10 ^ 12 ->
  (Qabs skew < inject_Z (8 * 10 ^ 9))%Q ->
  exists st',
    handleClientResponseError Date_getTime now st r = Ok st' /\
    forall d : Z,
      Z.abs (now + d) < 8 * 10 ^ 12 -> Z.abs (ms + d) < 8 * 10 ^ 12 ->
      (exists q, getUnixTimestamp (now + d) st' = Num q /\
                 (Qabs (q - inject_Z (ms + d) / inject_Z 1000) <= 3 * pow2 (-19))%Q) /\
      (0 <= ms + d + WIN_EPOCH * 1000 -> (ms + d) mod 300000 <> 0 ->
       generateSecMsGec subtle (now + d) st'
       = generateSecMsGec subtle (ms + d) initial).
Proof. apply handleClientResponseError_sync. Qed.

(** X18: a skew that is NaN stays NaN.  Once the skew is NaN (an
    unreadable date makes it so), every later adjustment leaves it NaN,
    whatever the server date, and every token is the digest of the text
    [NaN] followed by the secret: it does not depend on the time any
    more. *)
Theorem clockSkewSeconds_NaN_stays (st : DRMState) :
  clockSkewSeconds st = NaN ->
  (forall now r st',
     handleClientResponseError Date_getTime now st r = Ok st' ->
     clockSkewSeconds st' = NaN) /\
  (forall now digest,
     generateSecMsGec (Some digest) now st = Some (Ok (NaN_token digest))).
Proof.
  intros Hst. split.
  - intros now r st'. unfold handleClientResponseError.
    destruct (serverDate r) as [[|ch date]|]; try discriminate.
    unfold parseRfc2616Date, getUnixTimestamp, adjClockSkewSeconds. rewrite Hst.
    intros [= <-]. reflexivity.
  - intros now digest. unfold generateSecMsGec, getUnixTimestamp. rewrite Hst.
    cbn [div_by]. destruct (fl _); reflexivity.
Qed.

End Sync.

(** A client whose clock shows 22:13:20 on 14 November 2023, a server
    100 s ahead, and the token made 7 s later, with SHA-256. *)
Lemma handleClientResponseError_server_clock_witness :
  let date := lit "Tue, 14 Nov 2023 22:15:00 GMT" in
  let r := {| headers := Some (Plain {[ lit "date" := date ]}) |} in
  exists st',
    handleClientResponseError (reads date 1700000100000) 1700000000000 initial r
    = Ok st' /\
    generateSecMsGec (Some sha256) 1700000007000 st'
    = generateSecMsGec (Some sha256) 1700000107000 initial /\
    generateSecMsGec (Some sha256) 1700000007000 st'
    = Some (Ok (lit "AE4CF72E466874182A75878E20EADA83D29A1C12CAD9C3E0E014CCE0BFA55880")).
Proof.
  intros date r.
  destruct (handleClientResponseError_server_clock (reads date 1700000100000)
              (Some sha256) 1700000000000 initial r date 1700000100000 0)
    as (st' & Hst' & Hd).
  - vm_compute. reflexivity.
  - discriminate.
  - vm_compute. reflexivity.
  - reflexivity.
  - vm_compute. reflexivity.
  - vm_compute. reflexivity.
  - vm_compute. reflexivity.
  - exists st'. split; [exact Hst'|].
    destruct (Hd 7000) as [_ Htok]; [vm_compute; reflexivity..|].
    assert (E : generateSecMsGec (Some sha256) 1700000007000 st'
                = generateSecMsGec (Some sha256) 1700000107000 initial).
    { apply Htok; vm_compute; discriminate. }
    split; [exact E|]. rewrite E. vm_compute. reflexivity.
Defined.

(** The token of a state whose skew is NaN, with SHA-256. *)
Lemma clockSkewSeconds_NaN_stays_witness :
  generateSecMsGec (Some sha256) 1700000000000 {| clockSkewSeconds := NaN |}
  = Some (Ok (NaN_token sha256)).
Proof.
  exact (proj2 (clockSkewSeconds_NaN_stays epoch_only {| clockSkewSeconds := NaN |} eq_refl)
           1700000000000 sha256).
Defined.

(** ** The subtitle maker: numbering *)

Lemma reindex_numbered cues : numbered (SubMaker.reindex cues).
Proof.
  intros i c. unfold SubMaker.reindex. rewrite list_lookup_imap.
  destruct (cues !! i); [|discriminate]. intros [= <-]. reflexivity.
Qed.

Lemma reindex_length cues : length (SubMaker.reindex cues) = length cues.
Proof. apply length_imap. Qed.

Lemma feed_numbered cues msg cues' :
  numbered cues -> SubMaker.feed cues msg = Ok cues' ->
  numbered cues' /\ length cues' = S (length cues).
Proof.
  intros Hn. unfold SubMaker.feed.
  destruct (bool_decide _), (offset msg), (duration msg), (text msg); try discriminate.
  intros [= <-]. split; [|rewrite length_app; cbn; lia].
  intros i c. destruct (Nat.lt_ge_cases i (length cues)) as [Hi|Hi].
  - rewrite lookup_app_l by assumption. apply Hn.
  - rewrite lookup_app_r by assumption.
    destruct (i - length cues)%nat as [|k] eqn:Hk; [|discriminate].
    intros [= <-]. cbn. lia.
Qed.

(** X19: the cues of a SubMaker are numbered from 1 on, without a gap.
    This holds for a new SubMaker and is kept by [feed], which adds one
    cue, and by [mergeCues], which also brings it about on cues that
    were not numbered so. *)
Theorem SubMaker_numbered (cues : SubMaker.SubMaker) :
  numbered SubMaker.new /\
  (forall msg cues',
     numbered cues -> SubMaker.feed cues msg = Ok cues' ->
     numbered cues' /\ length cues' = S (length cues)) /\
  (forall msgs cues',
     numbered cues -> SubMaker.feed_all cues msgs = Ok cues' ->
     numbered cues' /\ length cues' = (length cues + length msgs)%nat) /\
  (forall words cues', SubMaker.mergeCues words cues = Ok cues' -> numbered cues').
Proof.
  split; [intros i c; discriminate|].
  split; [intros msg cues'; apply feed_numbered|]. split.
  - intros msgs. revert cues. induction msgs as [|msg msgs IH]; intros cues cues' Hn;
      cbn [SubMaker.feed_all].
    + intros [= <-]. split; [exact Hn|cbn; lia].
    + destruct (SubMaker.feed cues msg) as [cues1|] eqn:Hfeed; [|discriminate].
      destruct (feed_numbered _ _ _ Hn Hfeed) as [Hn1 Hlen1]. intros Hrest.
      destruct (IH _ _ Hn1 Hrest) as [Hn' Hlen']. split; [exact Hn'|].
      rewrite Hlen', Hlen1. cbn [length]. lia.
  - intros words cues'. unfold SubMaker.mergeCues.
    destruct (words <=? 0); [discriminate|].
    destruct cues as [|first rest].
    + intros [= <-]. intros i c; discriminate.
    + destruct (SubMaker.merge_loop _ _ _ _) as [newCues currentCue].
      intros [= <-]. apply reindex_numbered.
Qed.

(** ** The subtitle maker: merging *)

Lemma join_cons sep a l :
  l <> [] -> join sep (a :: l) = a ++ sep ++ join sep l.
Proof. destruct l; [congruence|reflexivity]. Qed.

Lemma join_app_pair sep l1 a b l2 :
  join sep (l1 ++ (a ++ sep ++ b) :: l2) = join sep (l1 ++ a :: b :: l2).
Proof.
  induction l1 as [|x l1 IH]; cbn [app].
  - destruct l2 as [|y l2].
    + reflexivity.
    + rewrite !join_cons by discriminate. rewrite <- !app_assoc. reflexivity.
  - rewrite !join_cons by (destruct l1; discriminate). rewrite IH. reflexivity.
Qed.

Lemma last_cons_default {A} (x : A) l d d' :
  List.last (x :: l) d = List.last (x :: l) d'.
Proof.
  revert x. induction l as [|y l IH]; intros x; [reflexivity|].
  change (List.last (y :: l) d = List.last (y :: l) d'). apply IH.
Qed.

Lemma merge_loop_text words rest : forall newCues currentCue newCues' currentCue',
  SubMaker.merge_loop words newCues currentCue rest = (newCues', currentCue') ->
  cues_text (newCues' ++ [currentCue']) = cues_text (newCues ++ currentCue :: rest) /\
  (length (newCues' ++ [currentCue']) <= length (newCues ++ currentCue :: rest))%nat /\
  SubMaker.end_ currentCue'
  = SubMaker.end_ (List.last rest currentCue) /\
  SubMaker.start (hd currentCue' newCues') = SubMaker.start (hd currentCue newCues).
Proof.
  induction rest as [|cue rest IH]; intros newCues cur newCues' cur';
    cbn [SubMaker.merge_loop].
  - intros [= <- <-]. auto.
  - destruct (_ <? words).
    + intros Hrun. destruct (IH _ _ _ _ Hrun) as (H1 & H2 & H3 & H4).
      split; [|split; [|split]].
      * rewrite H1. unfold cues_text. rewrite !map_app. cbn [map SubMaker.content].
        apply join_app_pair.
      * rewrite H2, !length_app. cbn [length]. lia.
      * rewrite H3. destruct rest as [|c rest]; [reflexivity|].
        rewrite (last_cons_default c rest _ cur). reflexivity.
      * rewrite H4. destruct newCues; reflexivity.
    + intros Hrun. destruct (IH _ _ _ _ Hrun) as (H1 & H2 & H3 & H4).
      split; [|split; [|split]].
      * rewrite H1, <- app_assoc. reflexivity.
      * rewrite H2, <- app_assoc. reflexivity.
      * rewrite H3. destruct rest as [|c rest]; [reflexivity|].
        rewrite (last_cons_default c rest _ cur). reflexivity.
      * rewrite H4. destruct newCues; reflexivity.
Qed.

Lemma map_imap_same {A B} (f : A -> B) l : forall g : nat -> A -> A,
  (forall i x, f (g i x) = f x) -> map f (imap g l) = map f l.
Proof.
  induction l as [|x l IH]; intros g Hg; [reflexivity|].
  cbn [imap map]. rewrite Hg, IH; [reflexivity|]. intros i y. apply Hg.
Qed.

Lemma reindex_map {B} (f : SubMaker.cue -> B) cues :
  (forall c i, f {| SubMaker.index := i; SubMaker.start := SubMaker.start c;
                    SubMaker.end_ := SubMaker.end_ c;
                    SubMaker.content := SubMaker.content c |} = f c) ->
  map f (SubMaker.reindex cues) = map f cues.
Proof.
  intros Hf. unfold SubMaker.reindex. apply map_imap_same. intros i c. apply Hf.
Qed.

(** X20: [mergeCues] keeps the text and the time span.  For a positive
    number of words, the contents of the merged cues joined by spaces
    are the contents of the cues joined by spaces; there are no more
    cues than before; the first one starts where the first cue started
    and the last one ends where the last cue ended. *)
Theorem mergeCues_keeps (words : Z) (cues cues' : SubMaker.SubMaker) :
  SubMaker.mergeCues words cues = Ok cues' ->
  cues_text cues' = cues_text cues /\
  (length cues' <= length cues)%nat /\
  (cues = [] <-> cues' = []) /\
  map SubMaker.start (take 1 cues') = map SubMaker.start (take 1 cues) /\
  map SubMaker.end_ (drop (length cues' - 1) cues')
  = map SubMaker.end_ (drop (length cues - 1) cues).
Proof.
  unfold SubMaker.mergeCues. destruct (words <=? 0); [discriminate|].
  destruct cues as [|first rest].
  { intros [= <-]. repeat split; reflexivity. }
  destruct (SubMaker.merge_loop words [] first rest) as [newCues cur] eqn:Hrun.
  intros [= <-]. destruct (merge_loop_text _ _ _ _ _ _ Hrun) as (H1 & H2 & H3 & H4).
  split; [|split; [|split; [|split]]].
  - unfold cues_text in *. rewrite reindex_map by reflexivity. exact H1.
  - rewrite reindex_length. exact H2.
  - split; [discriminate|]. intros H. apply (f_equal length) in H.
    rewrite reindex_length, length_app in H. cbn in H. lia.
  - rewrite <- firstn_map, reindex_map, firstn_map by reflexivity.
    destruct newCues as [|n0 newCues]; cbn [hd app take map] in *; rewrite H4; reflexivity.
  - rewrite reindex_length, <- skipn_map, reindex_map, skipn_map by reflexivity.
    rewrite length_app. cbn [length].
    replace (length newCues + 1 - 1)%nat with (length newCues) by lia.
    rewrite drop_app_length.
    replace (S (length rest) - 1)%nat with (length rest) by lia.
    cbn [map]. rewrite H3. clear.
    revert first. induction rest as [|c rest IH]; intros first; [reflexivity|].
    cbn [length drop]. rewrite <- IH.
    destruct rest as [|c0 rest]; [reflexivity|].
    change (List.last (c :: c0 :: rest) first) with (List.last (c0 :: rest) first).
    rewrite (last_cons_default c0 rest first c). reflexivity.
Qed.

(** *** Counting words *)

Lemma split_from_char_length c s : forall cur,
  length (split_from O cur [c] s) = S (length (List.filter (Z.eqb c) s)).
Proof.
  induction s as [|x s IH]; intros cur; rewrite split_from_char; [reflexivity|].
  cbn [List.filter]. destruct (c =? x); cbn [length]; rewrite IH; reflexivity.
Qed.

Lemma split_length_app c a b :
  length (split [c] (a ++ [c] ++ b))
  = (length (split [c] a) + length (split [c] b))%nat.
Proof.
  unfold split. rewrite !split_from_char_length, !List.filter_app.
  cbn [List.filter]. rewrite Z.eqb_refl, !length_app. cbn [length]. lia.
Qed.

Lemma split_length_pos c s : (1 <= length (split [c] s))%nat.
Proof. unfold split. rewrite split_from_char_length. lia. Qed.

Lemma nwords_pos c : 1 <= nwords c.
Proof.
  unfold nwords. change (lit " ") with [32].
  pose proof (split_length_pos 32 (SubMaker.content c)). lia.
Qed.

Lemma nwords_merged cur cue i s e :
  nwords {| SubMaker.index := i; SubMaker.start := s; SubMaker.end_ := e;
            SubMaker.content := SubMaker.content cur ++ lit " " ++ SubMaker.content cue |}
  = nwords cur + nwords cue.
Proof.
  unfold nwords. cbn [SubMaker.content]. change (lit " ") with [32].
  rewrite split_length_app. lia.
Qed.

Lemma merge_loop_words words rest : forall newCues cur newCues' cur',
  Forall (fun c => nwords c = 1) rest ->
  Forall (fun c => nwords c = words) newCues ->
  1 <= nwords cur <= words ->
  SubMaker.merge_loop words newCues cur rest = (newCues', cur') ->
  Forall (fun c => nwords c = words) newCues' /\ 1 <= nwords cur' <= words.
Proof.
  induction rest as [|cue rest IH]; intros newCues cur newCues' cur' Hrest Hnew Hcur;
    cbn [SubMaker.merge_loop].
  - intros [= <- <-]. auto.
  - apply Forall_cons in Hrest as [Hcue Hrest]. fold (nwords cur).
    destruct (Z.ltb_spec (nwords cur) words).
    + apply IH; try assumption. rewrite nwords_merged. lia.
    + apply IH; try assumption; [|lia].
      apply Forall_app. split; [exact Hnew|]. constructor; [lia|constructor].
Qed.

Lemma reindex_nwords cues :
  map nwords (SubMaker.reindex cues) = map nwords cues.
Proof. apply reindex_map. reflexivity. Qed.

(** X21: cues of one word are merged [words] by [words].  When each cue
    is one word (its content has no space), then after [mergeCues] each
    cue but the last one has exactly [words] words, and the last one has
    at least one and at most [words]. *)
Theorem mergeCues_word_count (words : Z) (cues cues' : SubMaker.SubMaker) :
  Forall (fun c => nwords c = 1) cues ->
  SubMaker.mergeCues words cues = Ok cues' ->
  Forall (fun n => n = words) (removelast (map nwords cues')) /\
  Forall (fun n => 1 <= n <= words) (map nwords cues').
Proof.
  intros Hcues. unfold SubMaker.mergeCues.
  destruct (Z.leb_spec words 0) as [|Hw]; [discriminate|].
  destruct cues as [|first rest].
  { intros [= <-]. split; constructor. }
  apply Forall_cons in Hcues as [Hfirst Hrest].
  destruct (SubMaker.merge_loop words [] first rest) as [newCues cur] eqn:Hrun.
  intros [= <-]. rewrite reindex_nwords, map_app. cbn [map].
  assert (H1 : 1 <= nwords first <= words) by lia.
  destruct (merge_loop_words _ _ _ _ _ _ Hrest (List.Forall_nil _) H1 Hrun)
    as [Hnew Hcur].
  split.
  - rewrite removelast_last. apply Forall_fmap. exact Hnew.
  - apply Forall_app. split; [|constructor; [exact Hcur|constructor]].
    apply Forall_fmap. eapply Forall_impl; [exact Hnew|].
    intros c Hc. unfold compose. cbv beta in *. lia.
Qed.

(** The edges of [mergeCues].  A number of words that is not
    positive is refused with a ValueError, also when there is no cue.
    With one word per cue nothing is merged, whatever the cues hold:
    every content counts as one word at least, so that the cues are only
    numbered again. *)
Theorem mergeCues_edges (words : Z) (cues : SubMaker.SubMaker) :
  (words <= 0 ->
   exists e, class e = ValueError /\ SubMaker.mergeCues words cues = Throw e) /\
  (0 < words -> SubMaker.mergeCues words [] = Ok []) /\
  SubMaker.mergeCues 1 cues = Ok (SubMaker.reindex cues).
Proof.
  split; [|split].
  - intros Hw. unfold SubMaker.mergeCues.
    destruct (Z.leb_spec words 0); [|lia]. eexists. split; [|reflexivity]. reflexivity.
  - intros Hw. unfold SubMaker.mergeCues. destruct (Z.leb_spec words 0); [lia|reflexivity].
  - unfold SubMaker.mergeCues. cbn [Z.leb Z.compare].
    destruct cues as [|first rest]; [reflexivity|].
    assert (H : forall rest newCues cur,
      SubMaker.merge_loop 1 newCues cur rest
      = (removelast (newCues ++ cur :: rest), List.last rest cur)).
    { clear. induction rest as [|cue rest IH]; intros newCues cur; cbn [SubMaker.merge_loop].
      - rewrite removelast_last. reflexivity.
      - fold (nwords cur). pose proof (nwords_pos cur).
        destruct (Z.ltb_spec (nwords cur) 1); [lia|].
        rewrite IH, <- app_assoc. cbn [app]. f_equal.
        destruct rest as [|c0 rest]; [reflexivity|].
        change (List.last (cue :: c0 :: rest) cur) with (List.last (c0 :: rest) cur).
        apply last_cons_default. }
    rewrite H. cbn [app]. f_equal. f_equal.
    assert (Hlast : List.last rest first = List.last (first :: rest) first)
      by (destruct rest; reflexivity).
    rewrite Hlast. symmetry. apply app_removelast_last. discriminate.
Qed.


(** The four words of a sentence, merged two by two. *)
Lemma mergeCues_keeps_witness :
  let cue i o t := {| SubMaker.index := i; SubMaker.start := SubMaker.seconds o;
                      SubMaker.end_ := SubMaker.seconds (o + 3000000);
                      SubMaker.content := t |} in
  let cues := [cue 1 0 (lit "The"); cue 2 3000000 (lit "quick");
               cue 3 6000000 (lit "brown"); cue 4 9000000 (lit "fox")] in
  exists cues',
    SubMaker.mergeCues 2 cues = Ok cues' /\
    cues_text cues' = lit "The quick brown fox" /\
    map SubMaker.end_ (drop (length cues' - 1) cues') = [SubMaker.seconds 12000000].
Proof.
  intros cue cues. eexists. split; [vm_compute; reflexivity|].
  match goal with
  | |- cues_text ?c' = _ /\ _ =>
      destruct (mergeCues_keeps 2 cues c' ltac:(vm_compute; reflexivity))
        as (H1 & _ & _ & _ & H5)
  end.
  split; [rewrite H1; reflexivity|rewrite H5; reflexivity].
Defined.

(** Five words merged two by two: two cues of two words and one of one
    word. *)
Lemma mergeCues_word_count_witness :
  let cue t := {| SubMaker.index := 0; SubMaker.start := 0; SubMaker.end_ := 0;
                  SubMaker.content := t |} in
  let cues := [cue (lit "a"); cue (lit "b"); cue (lit "c"); cue (lit "d");
               cue (lit "e")] in
  exists cues',
    SubMaker.mergeCues 2 cues = Ok cues' /\
    map nwords cues' = [2; 2; 1] /\
    Forall (fun n => n = 2) (removelast (map nwords cues')) /\
    Forall (fun n => 1 <= n <= 2) (map nwords cues').
Proof.
  intros cue cues. eexists. split; [vm_compute; reflexivity|].
  split; [vm_compute; reflexivity|].
  apply (mergeCues_word_count 2 cues).
  - repeat constructor.
  - vm_compute. reflexivity.
Defined.

(** ** Identifiers *)

Lemma hex2_lower b :
  exists c1 c2, hex2 b = [c1; c2] /\ lower_hex c1 = true /\ lower_hex c2 = true.
Proof. destruct b; eexists _, _; (split; [reflexivity|split; reflexivity]). Qed.

Lemma hex2_version b :
  exists c2, hex2 (byte_of (Z.lor (Z.land (byte_val b) 15) 64)) = [52; c2] /\
             lower_hex c2 = true.
Proof. destruct b; eexists; (split; [reflexivity|reflexivity]). Qed.

Lemma hex2_variant b :
  exists c1 c2, hex2 (byte_of (Z.lor (Z.land (byte_val b) 63) 128)) = [c1; c2] /\
                (c1 = 56 \/ c1 = 57 \/ c1 = 97 \/ c1 = 98) /\
                lower_hex c1 = true /\ lower_hex c2 = true.
Proof.
  destruct b; eexists _, _; (split; [reflexivity|]);
    (split; [|split; reflexivity]); auto.
Qed.

Lemma lower_hex_not_dash c : lower_hex c = true -> (45 =? c) = false.
Proof.
  unfold lower_hex. intros H. apply Z.eqb_neq. intros <-. discriminate H.
Qed.

(** X22: a connection identifier is a version 4 UUID without its dashes:
    32 lower case hexadecimal digits, of which the 13th is [4] and the
    17th is one of [8], [9], [a], [b], whatever the random bytes. *)
Theorem connectId_uuid4 (getRandomValues : nat -> byte) :
  let id := Ids.connectId getRandomValues in
  length id = 32%nat /\
  Forall (fun c => lower_hex c = true) id /\
  id !! 12%nat = Some 52 /\
  (exists v, id !! 16%nat = Some v /\ (v = 56 \/ v = 57 \/ v = 97 \/ v = 98)).
Proof.
  cbv zeta. unfold Ids.connectId. change (lit "-") with [45].
  rewrite replace_all_char.
  cbn [seq map lookup list_lookup from_option insert list_insert flat_map].
  destruct (hex2_version (getRandomValues 6%nat)) as (v6 & -> & Hv6).
  destruct (hex2_variant (getRandomValues 8%nat)) as (v8 & w8 & -> & Hvar & Hv8 & Hw8).
  repeat match goal with
         | |- context [hex2 (getRandomValues ?i)] =>
             let c1 := fresh "c" in let c2 := fresh "c" in
             let H1 := fresh "H" in let H2 := fresh "H" in
             destruct (hex2_lower (getRandomValues i)) as (c1 & c2 & -> & H1 & H2)
         end.
  cbn [app].
  repeat match goal with
         | |- context [slice ?l ?i ?j] =>
             let v := eval cbv in (slice l i j) in change (slice l i j) with v
         end.
  cbn [app flat_map]. rewrite !Z.eqb_refl.
  repeat match goal with
         | H : lower_hex ?c = true |- context [45 =? ?c] =>
             rewrite (lower_hex_not_dash c H)
         end.
  change (45 =? 52) with false. cbn [app].
  split; [reflexivity|]. split; [repeat (constructor; [first [assumption|reflexivity]|]); constructor|].
  split; [reflexivity|]. exists v8. split; [reflexivity|exact Hvar].
Qed.

(** ** The voice configuration *)

Section Config.

Import TTSConfig.

Lemma span_spec p s run rest :
  span p s = (run, rest) ->
  s = run ++ rest /\ forallb p run = true.
Proof.
  revert run rest. induction s as [|c s IH]; intros run rest; cbn [span].
  - intros [= <- <-]. auto.
  - destruct (p c) eqn:Hc; [|intros [= <- <-]; auto].
    destruct (span p s) as [run' rest']. intros [= <- <-].
    destruct (IH _ _ eq_refl) as [-> Hrun]. cbn [forallb app]. rewrite Hc. auto.
Qed.

Lemma prefixb_spec p : forall s, prefixb p s = true <-> exists t, s = p ++ t.
Proof.
  induction p as [|a p IH]; intros s; cbn [prefixb].
  - split; [intros _; exists s; reflexivity|reflexivity].
  - destruct s as [|b s].
    + split; [discriminate|intros [t Ht]; discriminate].
    + rewrite andb_true_iff, Z.eqb_eq, IH. split.
      * intros [-> [t ->]]. exists t. reflexivity.
      * intros [t [= -> ->]]. split; [reflexivity|exists t; reflexivity].
Qed.

Lemma ends_with_spec suffix s :
  ends_with suffix s = true <-> exists p, s = p ++ suffix.
Proof.
  unfold ends_with. rewrite prefixb_spec. split.
  - intros [t Ht]. exists (rev t). apply (f_equal (@rev Z)) in Ht.
    rewrite rev_involutive, rev_app_distr, rev_involutive in Ht. exact Ht.
  - intros [p ->]. exists (rev p). apply rev_app_distr.
Qed.

Lemma forallb_Forall (p : Z -> bool) s :
  forallb p s = true <-> Forall (fun c => p c = true) s.
Proof.
  induction s as [|c s IH]; cbn [forallb]; [split; [constructor|reflexivity]|].
  rewrite andb_true_iff, IH. split.
  - intros [? ?]. constructor; assumption.
  - intros H. apply Forall_cons in H. exact H.
Qed.

(** What a match of the short form says about the voice. *)
Lemma exec_short_spec voice lang region name :
  exec_short voice = Some (lang, region, name) ->
  voice = lang ++ lit "-" ++ region ++ lit "-" ++ name /\
  Forall (fun c => lower c = true) lang /\ (2 <= length lang)%nat /\
  Forall (fun c => upper c = true) region /\ (2 <= length region)%nat /\
  Forall (fun c => dot c = true) name /\
  exists p, p <> [] /\ name = p ++ lit "Neural".
Proof.
  unfold exec_short.
  destruct (span lower voice) as [l rest] eqn:Hl.
  destruct rest as [|c rest]; [discriminate|].
  destruct (Z.eqb_spec c 45) as [->|Hc].
  2:{ destruct c as [|q|q]; try discriminate.
      repeat (destruct q as [q|q|]; try discriminate). congruence. }
  destruct (span upper rest) as [r rest'] eqn:Hr.
  destruct rest' as [|c rest']; [discriminate|].
  destruct (Z.eqb_spec c 45) as [->|Hc].
  2:{ destruct c as [|q|q]; try discriminate.
      repeat (destruct q as [q|q|]; try discriminate). congruence. }
  destruct (_ && _) eqn:Hcond; [|discriminate]. intros [= <- <- <-].
  repeat (apply andb_true_iff in Hcond as [Hcond ?]).
  apply span_spec in Hl as [-> Hl]. apply span_spec in Hr as [-> Hr].
  split; [reflexivity|].
  split; [apply forallb_Forall, Hl|]. split; [apply Nat.leb_le; assumption|].
  split; [apply forallb_Forall, Hr|]. split; [apply Nat.leb_le; assumption|].
  split; [apply forallb_Forall; assumption|].
  match goal with H : ends_with _ _ = true |- _ =>
    apply ends_with_spec in H as [p ->] end.
  exists p. split; [|reflexivity]. intros ->.
  match goal with H : (7 <=? _)%nat = true |- _ => apply Nat.leb_le in H; cbn in H; lia end.
Qed.

Lemma test_voice_built inner :
  forallb dot inner = true ->
  existsb (Z.eqb 44) (removelast (tl inner)) = true ->
  test_voice (voice_prefix ++ inner ++ lit ")") = true.
Proof.
  intros Hdot Hcomma. unfold test_voice.
  rewrite (proj2 (prefixb_spec voice_prefix _)) by (eexists; reflexivity).
  rewrite drop_app_length. change (lit ")") with [41].
  rewrite rev_unit, rev_involutive. unfold dot_comma_dot.
  rewrite Hdot, Hcomma. reflexivity.
Qed.

Lemma comma_inside a A B :
  existsb (Z.eqb 44) (removelast (tl ((a :: A) ++ lit ", " ++ B))) = true.
Proof.
  cbn [app tl]. change (lit ", " ++ B) with (44 :: 32 :: B).
  rewrite removelast_app by discriminate.
  rewrite existsb_app. cbn [removelast existsb Z.eqb Pos.eqb].
  rewrite orb_true_r. reflexivity.
Qed.

Lemma split_from_Forall (P : Z -> Prop) c s : forall cur,
  Forall P s -> Forall P cur -> Forall (Forall P) (split_from O cur [c] s).
Proof.
  induction s as [|x s IH]; intros cur Hs Hcur; rewrite split_from_char.
  - constructor; [exact Hcur|constructor].
  - apply Forall_cons in Hs as [Hx Hs]. destruct (c =? x).
    + constructor; [exact Hcur|]. apply IH; [exact Hs|constructor].
    + apply IH; [exact Hs|]. apply Forall_app. split; [exact Hcur|].
      constructor; [exact Hx|constructor].
Qed.

Lemma nth_Forall (P : Z -> Prop) n (l : list jsstring) :
  Forall (Forall P) l -> Forall P (nth n l []).
Proof.
  revert n. induction l as [|x l IH]; intros n Hl.
  - destruct n; constructor.
  - apply Forall_cons in Hl as [Hx Hl]. destruct n; [exact Hx|apply IH, Hl].
Qed.

Lemma dot_class c : lower c = true \/ upper c = true \/ c = 45 \/ c = 44 \/ c = 32 ->
  dot c = true.
Proof.
  unfold lower, upper, dot.
  intros [H|[H|[ -> |[ -> | -> ]]]]; try reflexivity;
    apply andb_true_iff in H as [H1 H2]; apply Z.leb_le in H1, H2;
    repeat match goal with |- context [?x =? ?y] => destruct (Z.eqb_spec x y); try lia end;
    reflexivity.
Qed.

(** The voice that a short name is rewritten to is accepted. *)
Lemma full_voice_accepted voice lang region name :
  exec_short voice = Some (lang, region, name) ->
  test_voice (full_voice voice) = true.
Proof.
  intros Hexec. unfold full_voice. rewrite Hexec.
  apply exec_short_spec in Hexec
    as (_ & Hlang & Hlen & Hregion & _ & Hname & _).
  assert (Hl : Forall (fun c => dot c = true) lang)
    by (eapply Forall_impl; [exact Hlang|]; intros c Hc; apply dot_class; auto).
  assert (Hr : Forall (fun c => dot c = true) region)
    by (eapply Forall_impl; [exact Hregion|]; intros c Hc; apply dot_class; auto).
  destruct lang as [|l0 lang]; [cbn in Hlen; lia|].
  set (parts := split (lit "-") name).
  assert (Hparts : Forall (Forall (fun c => dot c = true)) parts)
    by (apply split_from_Forall; [exact Hname|constructor]).
  assert (Hbuilt : forall R N,
    Forall (fun c => dot c = true) R -> Forall (fun c => dot c = true) N ->
    test_voice (voice_prefix ++ (l0 :: lang) ++ lit "-" ++ R ++ lit ", " ++ N ++ lit ")")
    = true).
  { intros R N HR HN.
    replace (voice_prefix ++ (l0 :: lang) ++ lit "-" ++ R ++ lit ", " ++ N ++ lit ")")
      with (voice_prefix ++ ((l0 :: lang ++ lit "-" ++ R) ++ lit ", " ++ N) ++ lit ")")
      by (cbn [app]; rewrite <- !app_assoc; reflexivity).
    apply test_voice_built; [|apply comma_inside].
    apply forallb_Forall. change (l0 :: lang ++ lit "-" ++ R) with ((l0 :: lang) ++ lit "-" ++ R).
    repeat (apply Forall_app; split); try assumption; repeat constructor. }
  destruct (existsb (Z.eqb 45) name).
  - apply Hbuilt; [|apply nth_Forall, Hparts].
    repeat (apply Forall_app; split); try assumption;
      try (apply nth_Forall, Hparts); repeat constructor.
  - apply Hbuilt; assumption.
Qed.

Lemma split_two p0 p1 rest :
  Forall (fun x => x <> 45) p0 -> Forall (fun x => x <> 45) p1 ->
  rest = [] \/ (exists r, rest = 45 :: r) ->
  exists more, split (lit "-") (p0 ++ lit "-" ++ p1 ++ rest) = p0 :: p1 :: more.
Proof.
  intros H0 H1 Hrest. unfold split. change (lit "-") with [45]. cbn [app].
  rewrite split_char_cons by assumption. cbn [app].
  destruct Hrest as [->|[r ->]].
  - rewrite app_nil_r, split_char_no by assumption. eexists. reflexivity.
  - rewrite split_char_cons by assumption. eexists. reflexivity.
Qed.

(** X23: a voice given by its short name is always accepted.  When the
    voice matches the short form (a language, a region and a name that
    ends with [Neural]), [validate] rewrites it to a full name that
    passes its own test.  Of a name with hyphens, the part before the
    first hyphen goes to the region and only the part between the first
    and the second hyphen is kept as the name: what follows a second
    hyphen is dropped. *)
Theorem validate_short_voice (this : TTSConfig.TTSConfig)
    (lang region name : jsstring) :
  TTSConfig.exec_short (TTSConfig.voice this) = Some (lang, region, name) ->
  TTSConfig.test_voice (TTSConfig.full_voice (TTSConfig.voice this)) = true /\
  (Forall (fun x => x <> 45) name ->
   TTSConfig.full_voice (TTSConfig.voice this)
   = TTSConfig.voice_prefix ++ lang ++ lit "-" ++ region ++ lit ", " ++ name ++ lit ")") /\
  (forall p0 p1 rest,
     name = p0 ++ lit "-" ++ p1 ++ rest ->
     Forall (fun x => x <> 45) p0 -> Forall (fun x => x <> 45) p1 ->
     rest = [] \/ (exists r, rest = 45 :: r) ->
     TTSConfig.full_voice (TTSConfig.voice this)
     = TTSConfig.voice_prefix ++ lang ++ lit "-" ++ (region ++ lit "-" ++ p0)
       ++ lit ", " ++ p1 ++ lit ")").
Proof.
  intros Hexec. split; [apply (full_voice_accepted _ _ _ _ Hexec)|].
  unfold full_voice. rewrite Hexec. split.
  - intros Hname.
    assert (existsb (Z.eqb 45) name = false) as ->; [|reflexivity].
    clear Hexec. induction Hname as [|c name Hc _ IH]; [reflexivity|].
    cbn [existsb]. rewrite IH. destruct (Z.eqb_spec 45 c); [congruence|reflexivity].
  - intros p0 p1 rest -> H0 H1 Hrest.
    assert (existsb (Z.eqb 45) (p0 ++ lit "-" ++ p1 ++ rest) = true) as ->.
    { rewrite existsb_app. cbn. apply orb_true_r. }
    destruct (split_two p0 p1 rest H0 H1 Hrest) as [more ->]. reflexivity.
Qed.

Lemma test_signed_spec unit_ s :
  test_signed unit_ s = true ->
  exists sign ds, s = sign :: ds ++ unit_ /\ (sign = 43 \/ sign = 45) /\
                  ds <> [] /\ Forall (fun c => digit c = true) ds.
Proof.
  unfold test_signed. destruct s as [|sign rest]; [discriminate|].
  intros H. apply andb_true_iff in H as [H Hds].
  apply andb_true_iff in H as [Hsign Hend].
  apply ends_with_spec in Hend as [p ->].
  rewrite length_app, Nat.add_sub, take_app_length in Hds.
  apply andb_true_iff in Hds as [Hne Hds].
  exists sign, p. split; [reflexivity|]. split.
  - apply orb_true_iff in Hsign as [H|H]; apply Z.eqb_eq in H; auto.
  - split; [|apply forallb_Forall; assumption].
    intros ->. discriminate.
Qed.

Lemma test_signed_chars unit_ s :
  Forall (fun c => prosody_char c = true) unit_ ->
  test_signed unit_ s = true -> Forall (fun c => prosody_char c = true) s.
Proof.
  intros Hu H. apply test_signed_spec in H as (sign & ds & -> & Hsign & _ & Hds).
  constructor; [destruct Hsign as [->| ->]; reflexivity|].
  apply Forall_app. split; [|exact Hu].
  eapply Forall_impl; [exact Hds|]. intros c Hc. unfold prosody_char.
  cbv beta in Hc. rewrite Hc. reflexivity.
Qed.

Lemma exec_short_full voice :
  test_voice voice = true -> exec_short voice = None.
Proof.
  unfold test_voice. intros H. apply andb_true_iff in H as [H _].
  apply prefixb_spec in H as [t ->]. reflexivity.
Qed.

Lemma full_voice_full voice : test_voice voice = true -> full_voice voice = voice.
Proof. intros H. unfold full_voice. rewrite (exec_short_full _ H). reflexivity. Qed.

(** X24: what [validate] accepts.  When it returns, the voice is a full
    name that passes the test of the voice; the rate, the volume and
    the pitch are the given ones and are made of a sign, digits and
    their unit only, so that they hold no quote and no markup; and
    validating the result again changes nothing. *)
Theorem validate_accepted (this this' : TTSConfig.TTSConfig) :
  TTSConfig.validate this = Ok this' ->
  TTSConfig.voice this' = TTSConfig.full_voice (TTSConfig.voice this) /\
  TTSConfig.test_voice (TTSConfig.voice this') = true /\
  TTSConfig.rate this' = TTSConfig.rate this /\
  TTSConfig.volume this' = TTSConfig.volume this /\
  TTSConfig.pitch this' = TTSConfig.pitch this /\
  Forall (fun c => prosody_char c = true)
    (TTSConfig.rate this' ++ TTSConfig.volume this' ++ TTSConfig.pitch this') /\
  TTSConfig.validate this' = Ok this'.
Proof.
  unfold validate, validateStringParam. cbn [voice rate volume pitch].
  destruct (test_voice (full_voice (voice this))) eqn:Hv; [|discriminate].
  destruct (test_signed (lit "%") (rate this)) eqn:Hr; [|discriminate].
  destruct (test_signed (lit "%") (volume this)) eqn:Hvol; [|discriminate].
  destruct (test_signed (lit "Hz") (pitch this)) eqn:Hp; [|discriminate].
  cbn [negb]. intros [= <-]. cbn [voice rate volume pitch].
  repeat (split; [reflexivity || assumption|]). split.
  - repeat (apply Forall_app; split);
      eapply test_signed_chars; try eassumption; repeat constructor.
  - rewrite (full_voice_full _ Hv), Hv, Hr, Hvol, Hp. reflexivity.
Qed.

(** X25: the voice is not looked into.  A full name is kept as it is and
    accepted whatever stands between its parentheses, as long as there
    is a comma with a character before and after it and no line
    terminator: an apostrophe or markup in it goes into the SSML request
    as it is. *)
Theorem validate_full_voice (x y rate volume pitch : jsstring) :
  x <> [] -> y <> [] ->
  Forall (fun c => TTSConfig.dot c = true) (x ++ y) ->
  TTSConfig.test_signed (lit "%") rate = true ->
  TTSConfig.test_signed (lit "%") volume = true ->
  TTSConfig.test_signed (lit "Hz") pitch = true ->
  let this := {| TTSConfig.voice := TTSConfig.voice_prefix ++ x ++ lit "," ++ y ++ lit ")";
                 TTSConfig.rate := rate; TTSConfig.volume := volume;
                 TTSConfig.pitch := pitch |} in
  TTSConfig.validate this = Ok this.
Proof.
  intros Hx Hy Hdot Hr Hvol Hp this.
  assert (Hv : test_voice (voice this) = true).
  { subst this. cbn [TTSConfig.voice].
    replace (voice_prefix ++ x ++ lit "," ++ y ++ lit ")")
      with (voice_prefix ++ (x ++ lit "," ++ y) ++ lit ")")
      by (rewrite <- !app_assoc; reflexivity).
    apply Forall_app in Hdot as [Hdx Hdy].
    apply test_voice_built.
    - apply forallb_Forall. repeat (apply Forall_app; split); try assumption.
      repeat constructor.
    - destruct x as [|a x]; [congruence|]. destruct y as [|b y]; [congruence|].
      cbn [app tl]. change (lit "," ++ b :: y) with (44 :: b :: y).
      rewrite removelast_app by discriminate.
      rewrite existsb_app. cbn [removelast existsb Z.eqb Pos.eqb].
      destruct y; cbn; rewrite orb_true_r; reflexivity. }
  unfold validate, validateStringParam.
  rewrite (full_voice_full _ Hv).
  subst this.
  cbn [TTSConfig.voice TTSConfig.rate TTSConfig.volume TTSConfig.pitch] in *.
  rewrite Hv, Hr, Hvol, Hp. reflexivity.
Qed.


(** The default voice, and a voice with a hyphen in its name. *)
Lemma validate_short_voice_witness :
  TTSConfig.full_voice DEFAULT_VOICE
  = lit "Microsoft Server Speech Text to Speech Voice (en-US, EmmaMultilingualNeural)" /\
  TTSConfig.full_voice (lit "zh-CN-liaoning-XiaobeiNeural")
  = lit "Microsoft Server Speech Text to Speech Voice (zh-CN-liaoning, XiaobeiNeural)" /\
  TTSConfig.test_voice (TTSConfig.full_voice (lit "zh-CN-liaoning-XiaobeiNeural")) = true.
Proof.
  pose (this v := {| TTSConfig.voice := v; TTSConfig.rate := lit "+0%";
                     TTSConfig.volume := lit "+0%"; TTSConfig.pitch := lit "+0Hz" |}).
  split; [|split].
  - refine (proj1 (proj2 (validate_short_voice (this DEFAULT_VOICE)
              (lit "en") (lit "US") (lit "EmmaMultilingualNeural") _)) _).
    + reflexivity.
    + repeat constructor; discriminate.
  - refine (proj2 (proj2 (validate_short_voice (this (lit "zh-CN-liaoning-XiaobeiNeural"))
              (lit "zh") (lit "CN") (lit "liaoning-XiaobeiNeural") _))
              (lit "liaoning") (lit "XiaobeiNeural") [] _ _ _ _).
    + reflexivity.
    + reflexivity.
    + repeat constructor; discriminate.
    + repeat constructor; discriminate.
    + left. reflexivity.
  - refine (proj1 (validate_short_voice (this (lit "zh-CN-liaoning-XiaobeiNeural"))
              (lit "zh") (lit "CN") (lit "liaoning-XiaobeiNeural") _)).
    reflexivity.
Defined.

(** The configuration of a constructor that is given the default voice
    only. *)
Lemma validate_accepted_witness :
  exists this',
    TTSConfig.new DEFAULT_VOICE None None None = Ok this' /\
    TTSConfig.voice this'
    = lit "Microsoft Server Speech Text to Speech Voice (en-US, EmmaMultilingualNeural)" /\
    TTSConfig.rate this' ++ TTSConfig.volume this' ++ TTSConfig.pitch this'
    = lit "+0%+0%+0Hz" /\
    TTSConfig.validate this' = Ok this'.
Proof.
  eexists. split; [vm_compute; reflexivity|].
  match goal with
  | |- TTSConfig.voice ?t = _ /\ _ =>
      destruct (validate_accepted
                  {| TTSConfig.voice := DEFAULT_VOICE; TTSConfig.rate := lit "+0%";
                     TTSConfig.volume := lit "+0%"; TTSConfig.pitch := lit "+0Hz" |}
                  t ltac:(vm_compute; reflexivity))
        as (H1 & _ & _ & _ & _ & _ & H7)
  end.
  split; [reflexivity|]. split; [reflexivity|exact H7].
Defined.

(** A voice whose name closes the attribute it is written in. *)
Lemma validate_full_voice_witness :
  let this := {| TTSConfig.voice :=
                   lit "Microsoft Server Speech Text to Speech Voice (en-US, x'><break/>)";
                 TTSConfig.rate := lit "+0%"; TTSConfig.volume := lit "-5%";
                 TTSConfig.pitch := lit "+10Hz" |} in
  TTSConfig.validate this = Ok this.
Proof.
  refine (validate_full_voice (lit "en-US") (lit " x'><break/>")
            (lit "+0%") (lit "-5%") (lit "+10Hz") _ _ _ _ _ _).
  - discriminate.
  - discriminate.
  - repeat constructor.
  - reflexivity.
  - reflexivity.
  - reflexivity.
Defined.

End Config.

(** ** Putting the audio together *)

Lemma drop_repeat {A} (x : A) k n : drop k (repeat x n) = repeat x (n - k).
Proof.
  revert k. induction n as [|n IH]; intros k; [destruct k; reflexivity|].
  destruct k; [reflexivity|]. cbn [repeat drop Nat.sub]. apply IH.
Qed.

Lemma set_written done arr n :
  (length arr <= n)%nat ->
  IsomorphicBuffer.set (done ++ repeat x00 n) arr (length done)
  = Some ((done ++ arr) ++ repeat x00 (n - length arr)).
Proof.
  intros Hn. unfold IsomorphicBuffer.set.
  rewrite length_app, repeat_length.
  destruct (Nat.leb_spec (length done + length arr) (length done + n)); [|lia].
  rewrite take_app_length, drop_app_ge by lia.
  replace (length done + length arr - length done)%nat with (length arr) by lia.
  rewrite drop_repeat, <- app_assoc. reflexivity.
Qed.

Lemma total_length_from arrays : forall n,
  fold_left (fun sum (arr : bytes) => (sum + length arr)%nat) arrays n
  = (n + length (concat arrays))%nat.
Proof.
  induction arrays as [|arr arrays IH]; intros n; cbn [fold_left concat].
  - cbn. lia.
  - rewrite IH, length_app. lia.
Qed.

Lemma buffer_concat_loop arrays : forall done n,
  (length (concat arrays) <= n)%nat ->
  IsomorphicBuffer.concat_loop arrays (done ++ repeat x00 n) (length done)
  = Some ((done ++ concat arrays) ++ repeat x00 (n - length (concat arrays))).
Proof.
  induction arrays as [|arr arrays IH]; intros done n Hn;
    cbn [IsomorphicBuffer.concat_loop concat].
  - cbn [length]. rewrite Nat.sub_0_r, app_nil_r. reflexivity.
  - cbn [concat] in Hn. rewrite length_app in Hn.
    rewrite set_written by lia.
    rewrite <- (length_app done arr). rewrite IH by lia.
    rewrite (length_app arr), <- !app_assoc.
    replace (n - length arr - length (concat arrays))%nat
      with (n - (length arr + length (concat arrays)))%nat by lia.
    reflexivity.
Qed.

Lemma simple_concat_loop arrays : forall done n,
  (length (concat arrays) <= n)%nat ->
  Simple.concat_loop arrays (done ++ repeat x00 n) (length done)
  = Some ((done ++ concat arrays) ++ repeat x00 (n - length (concat arrays))).
Proof.
  induction arrays as [|arr arrays IH]; intros done n Hn;
    cbn [Simple.concat_loop concat].
  - cbn [length]. rewrite Nat.sub_0_r, app_nil_r. reflexivity.
  - cbn [concat] in Hn. rewrite length_app in Hn.
    destruct (Nat.ltb_spec 0 (length arr)) as [Hpos|Hzero].
    + rewrite set_written by lia.
      rewrite <- (length_app done arr). rewrite IH by lia.
      rewrite (length_app arr), <- !app_assoc.
      replace (n - length arr - length (concat arrays))%nat
        with (n - (length arr + length (concat arrays)))%nat by lia.
      reflexivity.
    + destruct arr; [|cbn in Hzero; lia]. cbn [app length] in *.
      apply IH. lia.
Qed.

Lemma concatUint8Arrays_eq arrays : Simple.concatUint8Arrays arrays = Some (concat arrays).
Proof.
  unfold Simple.concatUint8Arrays.
  destruct arrays as [|a [|b arrays]]; [reflexivity|cbn; rewrite app_nil_r; reflexivity|].
  rewrite total_length_from.
  pose proof (simple_concat_loop (a :: b :: arrays) []
                (0 + length (concat (a :: b :: arrays))) ltac:(lia)) as H.
  cbn [app length] in H. rewrite H.
  cbn [Nat.add]. rewrite Nat.sub_diag. cbn [repeat]. rewrite app_nil_r. reflexivity.
Qed.

Lemma collect_chunks items :
  Simple.collect (map chunk_of items) = (omap audio_of items, omap word_of items).
Proof.
  induction items as [|x items IH]; [reflexivity|].
  cbn [map Simple.collect]. rewrite IH. destruct x as [data|[o d t]]; reflexivity.
Qed.

(** X26: [synthesize] puts the audio together in the order of the stream.
    [concatUint8Arrays] and [IsomorphicBuffer.concat] return the bytes
    of the arrays one after the other, whatever the arrays (empty ones
    included), and [set] never throws.  So, for every sequence of audio
    chunks and word boundaries that the stream yields, the audio that
    [synthesize] returns is the payloads of the audio chunks one after
    the other, and the subtitle is the word boundaries in their
    order. *)
Theorem synthesized_in_order (arrays : list bytes)
    (items : list (bytes + Simple.WordBoundary)) :
  Simple.concatUint8Arrays arrays = Some (concat arrays) /\
  IsomorphicBuffer.concat arrays = Some (concat arrays) /\
  Simple.synthesized (map chunk_of items)
  = Some (concat (omap audio_of items), omap word_of items).
Proof.
  split; [apply concatUint8Arrays_eq|]. split.
  - unfold IsomorphicBuffer.concat. rewrite total_length_from.
    pose proof (buffer_concat_loop arrays [] (0 + length (concat arrays)) ltac:(lia)) as H.
    cbn [app length] in H. rewrite H.
    cbn [Nat.add]. rewrite Nat.sub_diag. cbn [repeat]. rewrite app_nil_r. reflexivity.
  - unfold Simple.synthesized. rewrite collect_chunks, concatUint8Arrays_eq. reflexivity.
Qed.

(** ** Time stamps *)

Lemma digits_NilEmpty n : digits n = lit (NilEmpty.string_of_uint (N.to_uint n)).
Proof.
  unfold digits, NilZero.string_of_uint.
  destruct (N.to_uint n) eqn:E; try reflexivity.
  destruct n as [|p]; [discriminate E|].
  exfalso. exact (DecimalPos.Unsigned.to_uint_nonnil p E).
Qed.

Lemma repeat_zero_digits k d :
  repeat 48 k ++ lit (NilEmpty.string_of_uint d)
  = lit (NilEmpty.string_of_uint (Nat.iter k Decimal.D0 d)).
Proof.
  induction k as [|k IH]; [reflexivity|].
  cbn [repeat app Nat.iter nat_rect]. rewrite IH. reflexivity.
Qed.

Lemma string_of_uint_inj d d' :
  NilEmpty.string_of_uint d = NilEmpty.string_of_uint d' -> d = d'.
Proof.
  intros H. apply (f_equal NilEmpty.uint_of_string) in H.
  rewrite !NilEmpty.usu in H. congruence.
Qed.

Lemma of_uint_iter_D0 k d : N.of_uint (Nat.iter k Decimal.D0 d) = N.of_uint d.
Proof.
  rewrite <- DecimalN.Unsigned.of_uint_norm, DecimalFacts.unorm_iter_D0.
  apply DecimalN.Unsigned.of_uint_norm.
Qed.

(** A number is read back from its digits, zeros before them or not. *)
Lemma padded_inj k k' n n' :
  repeat 48 k ++ digits n = repeat 48 k' ++ digits n' -> n = n'.
Proof.
  rewrite !digits_NilEmpty, !repeat_zero_digits. intros H.
  apply lit_inj, string_of_uint_inj in H.
  apply (f_equal N.of_uint) in H.
  rewrite !of_uint_iter_D0, !DecimalN.Unsigned.of_to in H. exact H.
Qed.

Lemma padNumber_inj n n' k :
  0 <= n -> 0 <= n' -> Simple.padNumber n k = Simple.padNumber n' k -> n = n'.
Proof.
  intros Hn Hn'. unfold Simple.padNumber, Simple.padStart, sign_digits.
  destruct (Z.ltb_spec n 0); [lia|]. destruct (Z.ltb_spec n' 0); [lia|].
  cbn [app]. intros Heq. apply padded_inj in Heq. lia.
Qed.

Lemma padNumber_length_2 n : 0 <= n < 60 -> length (Simple.padNumber n 2) = 2%nat.
Proof.
  intros Hn.
  assert (H : all_pow 6 (fun n => (length (Simple.padNumber n 2) =? 2)%nat) 0 = true)
    by (vm_compute; reflexivity).
  apply Nat.eqb_eq. apply (all_pow_spec _ _ _ H). cbn. lia.
Qed.

Lemma padNumber_length_3 n : 0 <= n < 1000 -> length (Simple.padNumber n 3) = 3%nat.
Proof.
  intros Hn.
  assert (H : all_pow 10 (fun n => (negb (n <? 1000)
                                    || (length (Simple.padNumber n 3) =? 3)%nat)) 0 = true)
    by (vm_compute; reflexivity).
  pose proof (all_pow_spec _ _ _ H n ltac:(cbn; lia)) as Hc. cbv beta in Hc.
  destruct (Z.ltb_spec n 1000); [|lia]. apply Nat.eqb_eq. exact Hc.
Qed.

(** The fields of a time stamp, from the whole milliseconds of the
    time. *)
Lemma formatTimestamp_fields t format :
  0 <= t ->
  let ms := t / 10000 in
  Simple.formatTimestamp t format
  = Simple.padNumber (ms / 3600000) 2 ++ lit ":"
    ++ Simple.padNumber (ms / 60000 mod 60) 2 ++ lit ":"
    ++ Simple.padNumber (ms / 1000 mod 60) 2
    ++ (if str_eqb format (lit "vtt") then lit "." else lit ",")
    ++ Simple.padNumber (ms mod 1000) 3.
Proof.
  intros Ht ms. unfold Simple.formatTimestamp.
  rewrite !Z.rem_mod_nonneg by (try lia; apply Z.div_pos; lia).
  replace (t / 10000000 / 3600) with (ms / 3600000)
    by (subst ms; Z.div_mod_to_equations; lia).
  replace (t / 10000000 mod 3600 / 60) with (ms / 60000 mod 60)
    by (subst ms; Z.div_mod_to_equations; lia).
  replace (t / 10000000 mod 60) with (ms / 1000 mod 60)
    by (subst ms; Z.div_mod_to_equations; lia).
  replace (t mod 10000000 / 10000) with (ms mod 1000)
    by (subst ms; Z.div_mod_to_equations; lia).
  reflexivity.
Qed.

(** X27: a time stamp tells the time to the millisecond, and no more.
    For times that are not negative, two of them get the same time
    stamp exactly when they lie in the same millisecond: the ticks
    below the millisecond are cut off, not rounded, and the hours are
    never cut, however many there are. *)
Theorem formatTimestamp_millisecond (t t' : Z) (format : jsstring) :
  0 <= t -> 0 <= t' ->
  (Simple.formatTimestamp t format = Simple.formatTimestamp t' format
   <-> t / 10000 = t' / 10000).
Proof.
  intros Ht Ht'. rewrite !formatTimestamp_fields by assumption. cbv zeta.
  set (ms := t / 10000). set (ms' := t' / 10000).
  assert (Hms : 0 <= ms) by (apply Z.div_pos; lia).
  assert (Hms' : 0 <= ms') by (apply Z.div_pos; lia).
  split; [|intros ->; reflexivity].
  intros H.
  set (sep := if str_eqb format (lit "vtt") then lit "." else lit ",") in H.
  assert (Hsep : length sep = 1%nat) by (subst sep; destruct (str_eqb _ _); reflexivity).
  assert (Hm : forall x, 0 <= x -> length (Simple.padNumber (x mod 60) 2) = 2%nat)
    by (intros x Hx; apply padNumber_length_2; Z.div_mod_to_equations; lia).
  assert (Hl : forall x, 0 <= x -> length (Simple.padNumber (x mod 1000) 3) = 3%nat)
    by (intros x Hx; apply padNumber_length_3; Z.div_mod_to_equations; lia).
  assert (Htail : forall x, 0 <= x ->
            length (lit ":" ++ Simple.padNumber (x / 60000 mod 60) 2 ++ lit ":"
                    ++ Simple.padNumber (x / 1000 mod 60) 2 ++ sep
                    ++ Simple.padNumber (x mod 1000) 3) = 10%nat).
  { intros x Hx. rewrite !length_app, !Hm, Hl, Hsep by (try assumption; apply Z.div_pos; lia).
    reflexivity. }
  apply app_inj_2 in H as [Hh H]; [|rewrite !Htail by assumption; reflexivity].
  apply app_inj_1 in H as [_ H]; [|reflexivity].
  apply app_inj_1 in H as [Hmin H];
    [|rewrite !Hm by (apply Z.div_pos; lia); reflexivity].
  apply app_inj_1 in H as [_ H]; [|reflexivity].
  apply app_inj_1 in H as [Hsec H];
    [|rewrite !Hm by (apply Z.div_pos; lia); reflexivity].
  apply app_inj_1 in H as [_ Hmil]; [|reflexivity].
  apply padNumber_inj in Hh, Hmin, Hsec, Hmil;
    try (apply Z.div_pos; lia); try (Z.div_mod_to_equations; lia).
Qed.


(** 1.2345678 s and 1.234 s are written alike. *)
Lemma formatTimestamp_millisecond_witness :
  Simple.formatTimestamp 12345678 (lit "srt") = lit "00:00:01,234" /\
  Simple.formatTimestamp 12345678 (lit "srt")
  = Simple.formatTimestamp 12340000 (lit "srt").
Proof.
  split; [reflexivity|].
  apply (proj2 (formatTimestamp_millisecond 12345678 12340000 (lit "srt")
                  ltac:(lia) ltac:(lia))).
  reflexivity.
Defined.

(** ** The times of the SRT text *)

Lemma Qfloor_div a (b : positive) :
  Qfloor (inject_Z a / inject_Z (Zpos b)) = a / Zpos b.
Proof.
  unfold Qdiv, Qinv, inject_Z, Qmult, Qfloor. cbn [Qnum Qden].
  rewrite Z.mul_1_r. reflexivity.
Qed.

Lemma seconds_nonneg t : 0 <= t -> (0 <= SubMaker.seconds t)%Q.
Proof.
  intros Ht. unfold SubMaker.seconds.
  apply Qle_shift_div_l; [reflexivity|]. rewrite Qmult_0_l.
  change 0%Q with (inject_Z 0). rewrite <- Zle_Qle. exact Ht.
Qed.

Lemma Qrem_seconds t (d : positive) :
  0 <= t ->
  (Srt.Qrem (SubMaker.seconds t) d
   == inject_Z (t mod (10000000 * Zpos d)) / inject_Z 10000000)%Q.
Proof.
  intros Ht. unfold Srt.Qrem.
  assert (Hq : (SubMaker.seconds t / inject_Z (Zpos d)
                == inject_Z t / inject_Z (Zpos (10000000 * d)))%Q).
  { unfold SubMaker.seconds. rewrite Pos2Z.inj_mul, inject_Z_mult. field.
    discriminate. }
  rewrite Qtrunc_nonneg.
  2:{ apply Qle_shift_div_l; [reflexivity|]. rewrite Qmult_0_l.
      apply seconds_nonneg, Ht. }
  rewrite Hq, Qfloor_div. unfold SubMaker.seconds.
  rewrite (Z.mod_eq t (10000000 * Z.pos d)) by lia.
  change (Z.pos (10000000 * d)) with (10000000 * Z.pos d).
  unfold Zminus. rewrite inject_Z_plus, inject_Z_opp, !inject_Z_mult. field.
Qed.

Lemma seconds_floor t : Qfloor (SubMaker.seconds t) = t / 10000000.
Proof. apply (Qfloor_div t 10000000). Qed.

Lemma seconds_fraction t :
  ((SubMaker.seconds t - inject_Z (Qfloor (SubMaker.seconds t))) * inject_Z 1000
   == inject_Z (t mod 10000000) / inject_Z 10000)%Q.
Proof.
  rewrite seconds_floor. unfold SubMaker.seconds.
  rewrite (Z.mod_eq t 10000000) by lia.
  unfold Zminus. rewrite inject_Z_plus, inject_Z_opp, !inject_Z_mult. field.
Qed.

Lemma Math_round_ticks r :
  r mod 10000 <> 5000 ->
  forall x, (x == inject_Z r / inject_Z 10000)%Q ->
  Srt.Math_round x = Some ((r + 5000) / 10000).
Proof.
  intros Hr x Hx. unfold Srt.Math_round.
  assert (Hfloor : Qfloor x = r / 10000) by (rewrite Hx; apply (Qfloor_div r 10000)).
  destruct (Qeq_bool _ _) eqn:E.
  - exfalso. apply Qeq_bool_iff in E. rewrite Hfloor, Hx in E.
    unfold Qeq, Qminus, Qplus, Qdiv, Qmult, Qinv, Qopp, inject_Z in E.
    cbn [Qnum Qden] in E. Z.div_mod_to_equations. lia.
  - f_equal.
    assert (Hh : (x + (1 # 2) == inject_Z (2 * r + 10000) / inject_Z 20000)%Q).
    { rewrite Hx, inject_Z_plus, inject_Z_mult. field. }
    rewrite Hh. rewrite (Qfloor_div (2 * r + 10000) 20000).
    Z.div_mod_to_equations. lia.
Qed.

(** X28: the times of [getSrt], for a cue time of [t] ticks that is not
    negative, below 10^15 (about three years, where the values of
    binary64 round as the exact ones do) and whose exact milliseconds
    are no tie (the ticks below the millisecond are not 5000).  The
    hours, minutes and seconds are those of the whole seconds of [t],
    and the milliseconds are rounded to the nearest one, without a
    carry: from 999.5 ms on the field is [1000], four digits long, with
    the seconds left as they are.  On a whole number of milliseconds
    [formatTime] writes what [formatTimestamp] writes for an SRT
    file. *)
Theorem formatTime_rounds (t : Z) :
  0 <= t < 10 ^ 15 -> t mod 10000 <> 5000 ->
  let T := t / 10000000 in
  let r := t mod 10000000 in
  Srt.formatTime (SubMaker.seconds t)
  = Some (Srt.pad (T / 3600) 2 ++ lit ":" ++ Srt.pad (T / 60 mod 60) 2 ++ lit ":"
          ++ Srt.pad (T mod 60) 2 ++ lit "," ++ Srt.pad ((r + 5000) / 10000) 3) /\
  (9995000 < r ->
   Srt.pad ((r + 5000) / 10000) 3 = lit "1000" /\
   forall cue,
     SubMaker.start cue = SubMaker.seconds 0 -> SubMaker.end_ cue = SubMaker.seconds t ->
     Srt.getSrt [cue]
     = Some (sign_digits (SubMaker.index cue) ++ crlf
             ++ lit "00:00:00,000 --> "
             ++ (Srt.pad (T / 3600) 2 ++ lit ":" ++ Srt.pad (T / 60 mod 60) 2 ++ lit ":"
                 ++ Srt.pad (T mod 60) 2 ++ lit "," ++ lit "1000")
             ++ crlf ++ SubMaker.content cue ++ crlf)) /\
  (t mod 10000 = 0 ->
   Srt.formatTime (SubMaker.seconds t) = Some (Simple.formatTimestamp t (lit "srt"))).
Proof.
  intros [Ht _] Hhalf T r.
  assert (Hfmt : Srt.formatTime (SubMaker.seconds t)
    = Some (Srt.pad (T / 3600) 2 ++ lit ":" ++ Srt.pad (T / 60 mod 60) 2 ++ lit ":"
            ++ Srt.pad (T mod 60) 2 ++ lit "," ++ Srt.pad ((r + 5000) / 10000) 3)).
  { unfold Srt.formatTime.
    rewrite (Math_round_ticks r) by
      (try apply seconds_fraction; subst r; Z.div_mod_to_equations; lia).
    assert (Hh : Qfloor (SubMaker.seconds t / inject_Z 3600) = T / 3600).
    { assert (Hq : (SubMaker.seconds t / inject_Z 3600
                    == inject_Z t / inject_Z 36000000000)%Q)
        by (unfold SubMaker.seconds; field).
      rewrite Hq, (Qfloor_div t 36000000000). subst T. Z.div_mod_to_equations. lia. }
    assert (Hm : Qfloor (Srt.Qrem (SubMaker.seconds t) 3600 / inject_Z 60)
                 = T / 60 mod 60).
    { rewrite (Qrem_seconds t 3600 Ht).
      assert (Hq : (inject_Z (t mod (10000000 * 3600)) / inject_Z 10000000 / inject_Z 60
                    == inject_Z (t mod (10000000 * 3600)) / inject_Z 600000000)%Q)
        by field.
      rewrite Hq, (Qfloor_div _ 600000000). subst T. Z.div_mod_to_equations. lia. }
    assert (Hs : Qfloor (Srt.Qrem (SubMaker.seconds t) 60) = T mod 60).
    { rewrite (Qrem_seconds t 60 Ht), (Qfloor_div _ 10000000).
      subst T. Z.div_mod_to_equations. lia. }
    rewrite Hh, Hm, Hs. reflexivity. }
  split; [exact Hfmt|]. split.
  - intros Hr.
    assert (Hk : (r + 5000) / 10000 = 1000) by (subst r; Z.div_mod_to_equations; lia).
    rewrite Hk in *. split; [reflexivity|].
    intros cue Hstart Hend. unfold Srt.getSrt, Srt.cue_texts, Srt.cue_text.
    rewrite Hstart, Hend, Hfmt.
    change (Srt.formatTime (SubMaker.seconds 0)) with (Some (lit "00:00:00,000")).
    cbn [join]. reflexivity.
  - intros Hwhole. rewrite Hfmt, formatTimestamp_fields by assumption. cbv zeta.
    change (str_eqb (lit "srt") (lit "vtt")) with false. cbv iota.
    unfold Srt.pad, Simple.padNumber. subst T r.
    replace (t / 10000 / 3600000) with (t / 10000000 / 3600)
      by (Z.div_mod_to_equations; lia).
    replace (t / 10000 / 60000 mod 60) with (t / 10000000 / 60 mod 60)
      by (Z.div_mod_to_equations; lia).
    replace (t / 10000 / 1000 mod 60) with (t / 10000000 mod 60)
      by (Z.div_mod_to_equations; lia).
    replace ((t / 10000) mod 1000) with ((t mod 10000000 + 5000) / 10000)
      by (Z.div_mod_to_equations; lia).
    reflexivity.
Qed.


(** A cue that ends 1.999625 s after the start. *)
Lemma formatTime_rounds_witness :
  Srt.formatTime (SubMaker.seconds 19996250) = Some (lit "00:00:01,1000") /\
  Srt.getSrt [{| SubMaker.index := 1; SubMaker.start := SubMaker.seconds 0;
                 SubMaker.end_ := SubMaker.seconds 19996250;
                 SubMaker.content := lit "fox" |}]
  = Some (lit "1" ++ crlf ++ lit "00:00:00,000 --> 00:00:01,1000" ++ crlf
          ++ lit "fox" ++ crlf).
Proof.
  destruct (formatTime_rounds 19996250 ltac:(split; [lia|reflexivity])
              ltac:(discriminate))
    as (H1 & H2 & _).
  split; [rewrite H1; reflexivity|].
  rewrite (proj2 (H2 ltac:(reflexivity))
             {| SubMaker.index := 1; SubMaker.start := SubMaker.seconds 0;
                SubMaker.end_ := SubMaker.seconds 19996250;
                SubMaker.content := lit "fox" |} eq_refl eq_refl).
  reflexivity.
Defined.

(** ** Listing the voices *)

Section ListVoices.

Variable Date_getTime : jsstring -> option Z.
Variable subtle : option (bytes -> bytes).

(** X29: a status 403 is answered by one more request, made with the
    clock of the server.  When the first response has the status 403
    and a date that can be read, for clocks within 8 * 10^12 ms of the
    epoch and a skew below 8 * 10^9 s, [listVoices] makes exactly one
    more request; unless the time of the server is then the very
    millisecond of a bucket boundary, its token is the one of a client
    without skew whose clock shows the time of the server, moved on by
    the time elapsed since the adjustment; and what this request gives,
    data or error (a second 403 included), is what [listVoices] gives. *)
Theorem listVoices_retry
    (fetch1 fetch2 : jsstring -> Voices.fetched) (now1 now2 now3 : Z)
    (st : DRMState) (skew : Q) (e : Voices.FetchError)
    (headers : gmap jsstring jsstring) (date : jsstring) (ms : Z) :
  clockSkewSeconds st = Num skew ->
  Voices._listVoices subtle fetch1 now1 st = Some (inl (Voices.Fetch e)) ->
  Voices.fetch_response e = Some (403, headers) ->
  serverDate {| DRM.headers := Some (Plain headers) |} = Some date ->
  date <> [] -> Date_getTime date = Some ms ->
  let server := ms + (now3 - now2) in
  Z.abs now2 < 8 * 10 ^ 12 -> Z.abs ms < 8 * 10 ^ 12 ->
  (Qabs skew < inject_Z (8 * 10 ^ 9))%Q ->
  Z.abs now3 < 8 * 10 ^ 12 -> Z.abs server < 8 * 10 ^ 12 ->
  0 <= server + WIN_EPOCH * 1000 -> server mod 300000 <> 0 ->
  exists st',
    handleClientResponseError Date_getTime now2 st
      {| DRM.headers := Some (Plain headers) |} = Ok st' /\
    Voices.listVoices Date_getTime subtle fetch1 now1 now2 fetch2 now3 st
    = match Voices._listVoices subtle fetch2 server initial with
      | Some r => Some (r, st')
      | None => None
      end.
Proof.
  intros Hskew Hfirst Hresp Hdate Hne Hms server B2 Bms Bskew B3 Bserver H0 Hmod.
  destruct (handleClientResponseError_sync Date_getTime subtle now2 st _ date ms skew
              Hdate Hne Hms Hskew B2 Bms Bskew) as (st' & Hst' & Hsync).
  exists st'. split; [exact Hst'|].
  unfold Voices.listVoices. rewrite Hfirst, Hresp, Hst'.
  destruct (Hsync (now3 - now2)) as [_ Htoken].
  - replace (now2 + (now3 - now2)) with now3 by lia. exact B3.
  - exact Bserver.
  - replace (now2 + (now3 - now2)) with now3 in Htoken by lia.
    unfold Voices._listVoices. rewrite (Htoken H0 Hmod). reflexivity.
Qed.

(** The other ways of [listVoices].  Data that come at once are
    returned, with the tags trimmed and the skew as it was; a failure
    that is no status 403 is thrown as it is, without a second request;
    a status 403 without a date is thrown as a SkewAdjustmentError. *)
Theorem listVoices_no_retry
    (fetch1 fetch2 : jsstring -> Voices.fetched) (now1 now2 now3 : Z) (st : DRMState) :
  (forall data,
     Voices._listVoices subtle fetch1 now1 st = Some (inr data) ->
     Voices.listVoices Date_getTime subtle fetch1 now1 now2 fetch2 now3 st
     = Some (inr data, st)) /\
  (forall e,
     Voices._listVoices subtle fetch1 now1 st = Some (inl (Voices.Fetch e)) ->
     (forall headers, Voices.fetch_response e <> Some (403, headers)) ->
     Voices.listVoices Date_getTime subtle fetch1 now1 now2 fetch2 now3 st
     = Some (inl (Voices.Fetch e), st)) /\
  (forall e headers,
     Voices._listVoices subtle fetch1 now1 st = Some (inl (Voices.Fetch e)) ->
     Voices.fetch_response e = Some (403, headers) ->
     falsy (serverDate {| DRM.headers := Some (Plain headers) |}) = true ->
     exists e', class e' = SkewAdjustmentError /\
       Voices.listVoices Date_getTime subtle fetch1 now1 now2 fetch2 now3 st
       = Some (inl (Voices.Exception e'), st)).
Proof.
  split; [|split].
  - intros data H. unfold Voices.listVoices. rewrite H. reflexivity.
  - intros e H Hne. unfold Voices.listVoices. rewrite H.
    destruct (Voices.fetch_response e) as [[status headers]|]; [|reflexivity].
    destruct (Z.eq_dec status 403) as [->|Hs]; [exfalso; apply (Hne headers); reflexivity|].
    destruct status as [|p|p]; try reflexivity.
    repeat (destruct p as [p|p|]; try reflexivity). congruence.
  - intros e headers H Hresp Hfalsy. unfold Voices.listVoices. rewrite H, Hresp.
    unfold handleClientResponseError.
    destruct (serverDate _) as [[|ch date]|]; try discriminate Hfalsy;
      eexists; (split; [|reflexivity]); reflexivity.
Qed.

End ListVoices.

(** ** The voices manager *)

Lemma first_piece (c : Z) s : forall cur,
  exists p, nth 0 (split_from O cur [c] s) [] = cur ++ p /\
            Forall (fun x => x <> c) p /\
            (s = p \/ exists rest, s = p ++ c :: rest).
Proof.
  induction s as [|x s IH]; intros cur; rewrite split_from_char.
  - exists []. rewrite app_nil_r. repeat split; auto.
  - destruct (Z.eqb_spec c x) as [<-|Hx].
    + exists []. rewrite app_nil_r. split; [reflexivity|]. split; [constructor|].
      right. exists s. reflexivity.
    + destruct (IH (cur ++ [x])) as (p & Hp & Hall & Hs).
      exists (x :: p). rewrite Hp, <- app_assoc. split; [reflexivity|].
      split; [constructor; [congruence|assumption]|].
      destruct Hs as [->|[rest ->]]; [left; reflexivity|right; exists rest; reflexivity].
Qed.

Lemma first_cut (c : Z) : forall a b r1 r2 : list Z,
  Forall (fun x => x <> c) a -> Forall (fun x => x <> c) b ->
  a ++ c :: r1 = b ++ c :: r2 -> a = b.
Proof.
  induction a as [|x a IH]; intros [|y b] r1 r2 Ha Hb E; cbn [app] in E.
  - reflexivity.
  - injection E as E _. apply Forall_cons in Hb as [Hy _]. congruence.
  - injection E as E _. apply Forall_cons in Ha as [Hx _]. congruence.
  - injection E as -> E. apply Forall_cons in Ha as [_ Ha].
    apply Forall_cons in Hb as [_ Hb]. f_equal. exact (IH _ _ _ Ha Hb E).
Qed.

Lemma Language_matches (locale language : jsstring) :
  str_eqb (nth 0 (split (lit "-") locale) []) language
  = forallb (fun c => negb (c =? 45)) language
    && (str_eqb locale language || prefixb (language ++ lit "-") locale).
Proof.
  change (lit "-") with [45]. unfold split.
  destruct (first_piece 45 locale []) as (p & -> & Hp & Hs). cbn [app].
  apply Bool.eq_iff_eq_true.
  rewrite andb_true_iff, orb_true_iff, !str_eqb_eq, forallb_forall, prefixb_spec.
  assert (Hin : forall q, Forall (fun x => x <> 45) q ->
                forall x, In x q -> negb (x =? 45) = true).
  { intros q Hq x Hx. rewrite List.Forall_forall in Hq. specialize (Hq x Hx).
    destruct (Z.eqb_spec x 45); [contradiction|reflexivity]. }
  assert (Hno : forall q, (forall x, In x q -> negb (x =? 45) = true) ->
                Forall (fun x => x <> 45) q).
  { intros q Hq. apply List.Forall_forall. intros x Hx Hx'. specialize (Hq x Hx).
    subst x. discriminate Hq. }
  split.
  - intros <-. split; [apply Hin, Hp|].
    destruct Hs as [->|[rest ->]]; [left; reflexivity|].
    right. exists rest. rewrite <- app_assoc. reflexivity.
  - intros [Hl [E|[t E]]].
    + destruct Hs as [->|[rest ->]]; [exact E|].
      subst language. apply Hno in Hl. exfalso.
      rewrite Forall_app in Hl. destruct Hl as [_ Hl].
      apply Forall_cons in Hl as [Hl _]. congruence.
    + rewrite <- app_assoc in E. cbn [app] in E. apply Hno in Hl.
      destruct Hs as [->|[rest ->]].
      * exfalso. subst p. rewrite Forall_app in Hp. destruct Hp as [_ Hp].
        apply Forall_cons in Hp as [Hp _]. congruence.
      * exact (first_cut 45 _ _ _ _ Hp Hl E).
Qed.

Lemma filter_map_with {A B} (f : A -> B) (p : B -> bool) (q : A -> bool) l :
  (forall x, p (f x) = q x) ->
  List.filter p (map f l) = map f (List.filter q l).
Proof.
  intros H. induction l as [|x l IH]; [reflexivity|].
  cbn [map List.filter]. rewrite H, IH. destruct (q x); reflexivity.
Qed.

Lemma field_Language v :
  Voices.field v (lit "Language") = Some (Voices.Language v).
Proof. reflexivity. Qed.

(** X30: finding voices by language.  Before [create], [find] throws.
    After it, the filter [{Language: language}] gives, in the order of
    the list, the voices whose locale is [language] or begins with
    [language] and a hyphen, when [language] has no hyphen; a language
    with a hyphen, as "en-US", finds no voice. *)
Theorem find_by_Language (voices : list Voices.Voice) (language : jsstring) :
  (exists e, Voices.find Voices.new [(lit "Language", language)] = Throw e /\
             class e = Error) /\
  (Forall (fun c => c <> 45) language ->
   Voices.find (Voices.create voices) [(lit "Language", language)]
   = Ok (Voices.voices
           (Voices.create
              (List.filter
                 (fun voice => str_eqb (Voices.Locale voice) language
                               || prefixb (language ++ lit "-") (Voices.Locale voice))
                 voices)))) /\
  (In 45 language ->
   Voices.find (Voices.create voices) [(lit "Language", language)] = Ok []).
Proof.
  assert (Hfind : Voices.find (Voices.create voices) [(lit "Language", language)]
    = Ok (Voices.voices (Voices.create (List.filter
        (fun voice => forallb (fun c => negb (c =? 45)) language
                      && (str_eqb (Voices.Locale voice) language
                          || prefixb (language ++ lit "-") (Voices.Locale voice)))
        voices)))).
  { unfold Voices.find, Voices.create. cbn [Voices.calledCreate Voices.voices negb].
    f_equal. apply filter_map_with. intros voice.
    cbn [forallb]. rewrite andb_true_r, field_Language. cbn [Voices.Language].
    apply Language_matches. }
  split; [|split].
  - eexists. split; reflexivity.
  - intros Hl. rewrite Hfind. do 3 f_equal.
    replace (forallb (fun c => negb (c =? 45)) language) with true; [reflexivity|].
    symmetry. apply forallb_forall. intros x Hx. rewrite List.Forall_forall in Hl.
    specialize (Hl x Hx). destruct (Z.eqb_spec x 45); [contradiction|reflexivity].
  - intros Hl. rewrite Hfind.
    replace (forallb (fun c => negb (c =? 45)) language) with false.
    + cbn [andb]. f_equal. unfold Voices.create. cbn [Voices.voices].
      replace (List.filter (fun _ => false) voices) with (@nil Voices.Voice);
        [reflexivity|].
      clear. induction voices; [reflexivity|assumption].
    + symmetry. apply not_true_is_false. intros H. rewrite forallb_forall in H.
      specialize (H 45 Hl). discriminate H.
Qed.


(** A first response with the status 403 and a date 100 s ahead of
    the client; the second request is answered only when it carries the
    token of the server's clock, made with SHA-256. *)
Lemma listVoices_retry_witness :
  let date := lit "Tue, 14 Nov 2023 22:15:00 GMT" in
  let headers : gmap jsstring jsstring := {[ lit "date" := date ]} in
  let fetch1 := fun _ : jsstring => Voices.NotOk 403 headers in
  let url :=
    Voices.VOICE_LIST_URL ++ lit "&Sec-MS-GEC="
    ++ lit "AE4CF72E466874182A75878E20EADA83D29A1C12CAD9C3E0E014CCE0BFA55880"
    ++ lit "&Sec-MS-GEC-Version=" ++ Voices.SEC_MS_GEC_VERSION in
  let fetch2 := fun u : jsstring =>
    if str_eqb u url then Voices.Data [] else Voices.Failed (lit "refused") in
  exists st',
    handleClientResponseError (reads date 1700000100000) 1700000000000 initial
      {| DRM.headers := Some (Plain headers) |} = Ok st' /\
    Voices.listVoices (reads date 1700000100000) (Some sha256) fetch1
      1700000000000 1700000000000 fetch2 1700000000500 initial
    = Some (inr [], st').
Proof.
  intros date headers fetch1 url fetch2.
  destruct (listVoices_retry (reads date 1700000100000) (Some sha256) fetch1 fetch2
              1700000000000 1700000000000 1700000000500 initial 0
              {| Voices.fetch_message := lit "HTTP 403";
                 Voices.fetch_response := Some (403, headers) |}
              headers date 1700000100000)
    as (st' & Hst' & Hlist).
  - reflexivity.
  - vm_compute. reflexivity.
  - reflexivity.
  - vm_compute. reflexivity.
  - discriminate.
  - vm_compute. reflexivity.
  - vm_compute. reflexivity.
  - vm_compute. reflexivity.
  - vm_compute. reflexivity.
  - vm_compute. reflexivity.
  - vm_compute. reflexivity.
  - vm_compute. discriminate.
  - vm_compute. discriminate.
  - exists st'. split; [exact Hst'|]. rewrite Hlist. vm_compute. reflexivity.
Defined.
